(** * poodle-lex: the grammar-to-IR builder, the plug-in loader and the
      C emitter's token selection, embedded from the Python sources.

    - [Py]                 : the few Python built-ins the sources rely on
                             (exceptions, [str.lower], [list.index], [min]).
    - [CAscii]             : [Plugins/C-Ascii/C-Ascii.py], the part of
                             [generate_state_machine] that picks a state's token.
    - [LanguagePlugins]    : [Generator/LanguagePlugins.py], [load].
    - [NonDeterministicIR] : [Generator/RulesFile/NonDeterministicIR.py],
                             the [Builder] visitor and the constructor.

    Definitions come first; the properties follow in the second half. *)

From Stdlib Require Import ZArith String Ascii List Lia DecimalString DecimalNat.
From stdpp Require Import base option list strings functions gmap fin_maps.

Set Warnings "-register-all".

(* ===================================================================== *)
(** * Part I: definitions                                                 *)
(* ===================================================================== *)

Module Py.

(** Python exceptions, as far as the three sources can raise them.
    [Thrown] is what [rule.throw(message)] raises. *)
Inductive exn : Type :=
| Exception (message : string)
| AttributeError (message : string)
| TypeError (message : string)
| ValueError (message : string)
| IndexError (message : string)
| KeyError (key : string)
| Thrown (line_number : Z) (message : string).

(** [str(e)] *)
Definition str (e : exn) : string :=
  match e with
  | Exception m | AttributeError m | TypeError m | ValueError m | IndexError m => m
  | KeyError k => "'" +:+ k +:+ "'"
  | Thrown _ m => m
  end.

(** A call either returns or raises. *)
Inductive result (A : Type) : Type :=
| Return (a : A)
| Raise (e : exn).
Arguments Return {A} a.
Arguments Raise {A} e.

#[global] Instance result_ret : MRet result := fun A a => Return a.
#[global] Instance result_bind : MBind result := fun A B f m =>
  match m with
  | Return a => f a
  | Raise e => Raise e
  end.

#[global] Instance result_fmap : FMap result := fun A B f m =>
  match m with
  | Return a => Return (f a)
  | Raise e => Raise e
  end.

Definition is_Return {A} (r : result A) : Prop := ∃ a, r = Return a.
Definition is_Raise {A} (r : result A) : Prop := ∃ e, r = Raise e.

(** [str.lower()] and [str.upper()] on ASCII text: only the 26 letters move. *)
Definition lower_ascii (c : ascii) : ascii :=
  let n := nat_of_ascii c in
  if (65 <=? n)%nat && (n <=? 90)%nat then ascii_of_nat (n + 32) else c.

Definition upper_ascii (c : ascii) : ascii :=
  let n := nat_of_ascii c in
  if (97 <=? n)%nat && (n <=? 122)%nat then ascii_of_nat (n - 32) else c.

Fixpoint lower (s : string) : string :=
  match s with
  | EmptyString => EmptyString
  | String c s' => String (lower_ascii c) (lower s')
  end.

Fixpoint upper (s : string) : string :=
  match s with
  | EmptyString => EmptyString
  | String c s' => String (upper_ascii c) (upper s')
  end.

(** [l.index(x)]: position of the first element equal to [x];
    [ValueError] when there is none. *)
Fixpoint index (x : string) (l : list string) : result nat :=
  match l with
  | [] => Raise (ValueError (x +:+ " is not in list"))
  | y :: l' => if decide (y = x) then Return 0%nat else S <$> index x l'
  end.

(** [min(iterable, key=...)]: the keys are computed in iteration order, the
    running minimum is replaced only by a strictly smaller key, so the first
    of several least elements is kept; an empty iterable is a [ValueError]
    and an exception of the key function propagates. *)
Fixpoint min_loop {A} (key : A → result nat) (best : A) (kbest : nat)
    (l : list A) : result A :=
  match l with
  | [] => Return best
  | x :: l' =>
      k ← key x;
      if (k <? kbest)%nat then min_loop key x k l' else min_loop key best kbest l'
  end.

Definition min {A} (key : A → result nat) (l : list A) : result A :=
  match l with
  | [] => Raise (ValueError "min() arg is an empty sequence")
  | x :: l' => k ← key x; min_loop key x k l'
  end.

End Py.

(* --------------------------------------------------------------------- *)
(** ** Plugins/C-Ascii/C-Ascii.py                                         *)
(* --------------------------------------------------------------------- *)

Module CAscii.
Import Py.

(** An entry of [lexical_analyzer.rules], as far as the emitter reads it. *)
Record Rule : Type := {
  id : string;
  action : option string
}.

(** [tokens_by_priority = [rule.id for rule in self.lexical_analyzer.rules]] *)
Definition tokens_by_priority (rules : list Rule) : list string :=
  map id rules.

(** [min(state.final_ids, key = lambda x: tokens_by_priority.index(x))].
    [final_ids] is a Python set; the list is that set in the order in which
    it happens to be iterated. *)
Definition min_final_id (rules : list Rule) (final_ids : list string)
    : result string :=
  Py.min (fun x => index x (tokens_by_priority rules)) final_ids.

(** [token = min(...).upper()] *)
Definition token (rules : list Rule) (final_ids : list string) : result string :=
  upper <$> min_final_id rules final_ids.

(** [[rule for rule in rules if rule.id.upper() == token][0]] *)
Definition rule_of_token (rules : list Rule) (tok : string) : result Rule :=
  match filter (fun r => upper (id r) = tok) rules with
  | r :: _ => Return r
  | [] => Raise (IndexError "list index out of range")
  end.

Definition is_skip (r : Rule) : bool :=
  match action r with
  | Some a => bool_decide (lower a = "skip")
  | None => false
  end.

(** The closing part of one [case] of [generate_state_machine] (the source's
    lines 266 to 279): the lines written for a state with the given
    [final_ids].  [start_id] is [self.ids[self.dfa.start_state]]. *)
Definition final_case (rules : list Rule) (rule_ids : gmap string string)
    (namespace start_id : string) (final_ids : list string)
    : result (list string) :=
  if decide (0 < length final_ids)%nat then
    tok ← token rules final_ids;
    rule ← rule_of_token rules tok;
    if is_skip rule then
      Return [ "state = " +:+ start_id +:+ ";";
               "ungetc(c, f);";
               "token_index = 0;" ]
    else
      match rule_ids !! tok with
      | Some code_id => Return [ "token.id = " +:+ code_id +:+ ";"; "done = 1;" ]
      | None => Raise (KeyError tok)
      end
  else
    Return [ "state = STATE_" +:+ upper namespace +:+ "_INVALIDCHAR;" ].

Definition sample_rules : list Rule :=
  [ {| id := "KEYWORD_IF"; action := None |};
    {| id := "WS"; action := Some "Skip" |};
    {| id := "IDENTIFIER"; action := Some "capture" |} ].

End CAscii.

(* --------------------------------------------------------------------- *)
(** ** Generator/LanguagePlugins.py                                       *)
(* --------------------------------------------------------------------- *)

Module LanguagePlugins.
Import Py.

(** The value [json.load] hands back.  An object is kept as the list of its
    items in the order in which the resulting dict is iterated. *)
Inductive json : Type :=
| JNull
| JBool (b : bool)
| JInt (n : Z)
| JFloat (literal : string)
| JString (s : string)
| JList (l : list json)
| JDict (items : list (string * json)).

(** What [os.path] answers; the file system is outside the program. *)
Record FileSystem : Type := {
  isabs : string → bool;
  join : string → string → string;
  exists_ : string → bool
}.

Record Plugin : Type := {
  source_path : option string;
  plugin_files_directory : option string;
  dependencies : list (option string);
  description : string
}.

Fixpoint assoc (k : string) (items : list (string * json)) : option json :=
  match items with
  | [] => None
  | (k', v) :: items' => if decide (k' = k) then Some v else assoc k items'
  end.

Fixpoint is_substring (needle hay : string) : bool :=
  String.prefix needle hay ||
  match hay with
  | EmptyString => false
  | String _ hay' => is_substring needle hay'
  end.

(** [key in obj] for a text [key] *)
Definition contains (key : string) (obj : json) : result bool :=
  match obj with
  | JDict items => Return (bool_decide (is_Some (assoc key items)))
  | JList l => Return (existsb (fun v => match v with
                                          | JString s => bool_decide (s = key)
                                          | _ => false
                                          end) l)
  | JString s => Return (is_substring key s)
  | _ => Raise (TypeError "argument is not iterable")
  end.

(** [obj[key]] for a text [key] *)
Definition getitem (obj : json) (key : string) : result json :=
  match obj with
  | JDict items =>
      match assoc key items with
      | Some v => Return v
      | None => Raise (KeyError key)
      end
  | _ => Raise (TypeError "indices must be integers")
  end.

(** The values a [for] loop over [obj] sees: the keys of a dict, the
    elements of a list, the characters of a text. *)
Definition iterate (obj : json) : result (list json) :=
  match obj with
  | JDict items => Return (map (fun kv => JString (fst kv)) items)
  | JList l => Return l
  | JString s => Return (map (fun c => JString (String c EmptyString)) (list_ascii_of_string s))
  | _ => Raise (TypeError "object is not iterable")
  end.

(** [isinstance(v, int)]: [bool] is a subclass of [int].  (A literal too
    large for an [int] is a [long]; it differs from 1 all the same.) *)
Definition isinstance_int (v : json) : bool :=
  match v with
  | JInt _ | JBool _ => true
  | _ => false
  end.

(** [v != 1] *)
Definition differs_from_1 (v : json) : bool :=
  match v with
  | JInt n => negb (n =? 1)%Z
  | JBool b => negb b
  | _ => true
  end.

Definition is_text (v : json) : bool :=
  match v with
  | JString _ => true
  | _ => false
  end.

Definition isinstance_dict (v : json) : bool :=
  match v with
  | JDict _ => true
  | _ => false
  end.

Definition isinstance_list (v : json) : bool :=
  match v with
  | JList _ => true
  | _ => false
  end.

Definition is_path (fs : FileSystem) (text : json) (base_directory : string)
    : option string :=
  match text with
  | JString t =>
      let path := if negb (isabs fs t) then join fs base_directory t else t in
      if exists_ fs path then Some path else None
  | _ => None
  end.

Definition in_range (lo hi : nat) (c : ascii) : bool :=
  let n := nat_of_ascii c in (lo <=? n)%nat && (n <=? hi)%nat.

Definition is_alpha (c : ascii) : bool :=
  in_range 97 122 c || in_range 65 90 c.

(** the class [[a-zA-Z0-9_\-\+]] *)
Definition is_id_char (c : ascii) : bool :=
  is_alpha c || in_range 48 57 c ||
  bool_decide (c = "_"%char) || bool_decide (c = "-"%char) || bool_decide (c = "+"%char).

Fixpoint take_while (p : ascii → bool) (s : string) : string :=
  match s with
  | String c s' => if p c then String c (take_while p s') else EmptyString
  | EmptyString => EmptyString
  end.

(** [re.match("[a-zA-Z][a-zA-Z0-9_\-\+]*", plugin_id)]: the matched prefix,
    [None] when there is no match at the start of the text. *)
Definition re_match_plugin_id (plugin_id : string) : option string :=
  match plugin_id with
  | String c s' => if is_alpha c then Some (String c (take_while is_id_char s')) else None
  | EmptyString => None
  end.

(** The locals of one turn of the loop over plug-in identifiers. *)
Record Entry : Type := {
  valid : bool;
  plugin_paths : gmap string (option string);
  entry_dependencies : list (option string);
  entry_description : string
}.

Definition invalidate (e : Entry) : Entry :=
  {| valid := false; plugin_paths := plugin_paths e;
     entry_dependencies := entry_dependencies e;
     entry_description := entry_description e |}.

(** The body of [for plugin_attr in plugin_file["Plugins"][plugin_id]],
    where [entry] is [plugin_file["Plugins"][plugin_id]]. *)
Definition visit_attr (fs : FileSystem) (base_directory : string) (entry : json)
    (plugin_attr : json) (e : Entry) : result Entry :=
  match plugin_attr with
  | JString a =>
      if bool_decide (a = "Source") || bool_decide (a = "Files") then
        v ← getitem entry a;
        let p := is_path fs v base_directory in
        let e' := {| valid := valid e; plugin_paths := <[a := p]> (plugin_paths e);
                     entry_dependencies := entry_dependencies e;
                     entry_description := entry_description e |} in
        Return (if p is None then invalidate e' else e')
      else if bool_decide (a = "Dependencies") then
        raw_dependencies ← getitem entry a;
        let e1 := if isinstance_list raw_dependencies then e else invalidate e in
        elements ← iterate raw_dependencies;
        let deps := map (fun i => is_path fs i base_directory) elements in
        let e2 := {| valid := valid e1; plugin_paths := plugin_paths e1;
                     entry_dependencies := deps;
                     entry_description := entry_description e1 |} in
        Return (if existsb (fun i => if i is None then true else false) deps
                then invalidate e2 else e2)
      else if bool_decide (a = "Description") then
        v ← getitem entry a;
        match v with
        | JString d =>
            Return {| valid := valid e; plugin_paths := plugin_paths e;
                      entry_dependencies := entry_dependencies e;
                      entry_description := d |}
        | _ => Return (invalidate e)
        end
      else Return e
  | _ => Return e
  end.

Fixpoint visit_attrs (fs : FileSystem) (base_directory : string) (entry : json)
    (attrs : list json) (e : Entry) : result Entry :=
  match attrs with
  | [] => Return e
  | a :: attrs' =>
      e' ← visit_attr fs base_directory entry a e;
      visit_attrs fs base_directory entry attrs' e'
  end.

(** One turn of [for plugin_id in plugin_file["Plugins"]]. *)
Definition visit_plugin (fs : FileSystem) (base_directory : string) (plugins : json)
    (plugin_id : string) (language_plugins : gmap string Plugin)
    : result (gmap string Plugin) :=
  if re_match_plugin_id plugin_id is Some _ then
    entry ← getitem plugins plugin_id;
    attrs ← iterate entry;
    e ← visit_attrs fs base_directory entry attrs
          {| valid := true; plugin_paths := ∅;
             entry_dependencies := []; entry_description := "" |};
    let valid' :=
      if negb (bool_decide (is_Some (plugin_paths e !! "Source"))) ||
         negb (bool_decide (is_Some (plugin_paths e !! "Files")))
      then false else valid e in
    if valid' then
      Return (<[plugin_id :=
                 {| source_path := default None (plugin_paths e !! "Source");
                    plugin_files_directory := default None (plugin_paths e !! "Files");
                    dependencies := entry_dependencies e;
                    description := entry_description e |}]> language_plugins)
    else Return language_plugins
  else Return language_plugins.

Fixpoint visit_plugins (fs : FileSystem) (base_directory : string) (plugins : json)
    (plugin_ids : list string) (language_plugins : gmap string Plugin)
    : result (gmap string Plugin) :=
  match plugin_ids with
  | [] => Return language_plugins
  | plugin_id :: rest =>
      language_plugins' ← visit_plugin fs base_directory plugins plugin_id language_plugins;
      visit_plugins fs base_directory plugins rest language_plugins'
  end.

Definition keys (obj : json) : list string :=
  match obj with
  | JDict items => map fst items
  | _ => []
  end.

(** [load], from the parsed specification file on: [plugin_file] is the
    value of [json.load(f, encoding)]. *)
Definition load (fs : FileSystem) (base_directory : string) (plugin_file : json)
    : result (gmap string Plugin * string) :=
  has_version ← contains "Version" plugin_file;
  version ← (if has_version then getitem plugin_file "Version" else Return JNull);
  if negb has_version || negb (isinstance_int version) || differs_from_1 version then
    Raise (Exception "Language plug-in file version not recognized")
  else
  has_default ← contains "Default" plugin_file;
  default_value ← (if has_default then getitem plugin_file "Default" else Return JNull);
  if negb has_default || negb (is_text default_value) then
    Raise (Exception "Default language not specified")
  else
  let default_language := if default_value is JString d then d else "" in
  has_plugins ← contains "Plugins" plugin_file;
  plugins ← (if has_plugins then getitem plugin_file "Plugins" else Return JNull);
  if negb has_plugins || negb (isinstance_dict plugins) then
    Raise (Exception "Plugin dictionary not found")
  else
  language_plugins ← visit_plugins fs base_directory plugins (keys plugins) ∅;
  if bool_decide (size language_plugins = 0%nat) then
    Raise (Exception "No plugins found")
  else if negb (bool_decide (is_Some (language_plugins !! default_language))) then
    Raise (Exception "Default language is invalid")
  else Return (language_plugins, default_language).

Definition sample_fs : FileSystem :=
  {| isabs := String.prefix "/";
     join := fun a b => a +:+ "/" +:+ b;
     exists_ := fun p => negb (is_substring "missing" p) |}.

Definition sample_file : json :=
  JDict [ ("Version", JInt 1);
          ("Default", JString "c");
          ("Plugins", JDict [
             ("c", JDict [ ("Source", JString "Plugins/C/C.py");
                           ("Files", JString "Plugins/C/Template");
                           ("Description", JString "C") ]);
             ("9lives", JDict [ ("Source", JString "Plugins/X/X.py");
                                ("Files", JString "Plugins/X/Template") ]);
             ("ada", JDict [ ("Source", JString "Plugins/missing.py");
                             ("Files", JString "Plugins/Ada") ]) ]) ].

(** The specification file declares the version this loader recognizes. *)
Definition recognized_version (plugin_file : json) : Prop :=
  ∃ v, getitem plugin_file "Version" = Return v ∧
       isinstance_int v = true ∧ differs_from_1 v = false.

(** The specification file names a default language. *)
Definition declares_default (plugin_file : json) (d : string) : Prop :=
  getitem plugin_file "Default" = Return (JString d).

(** The plug-ins the loop over [plugin_file["Plugins"]] keeps. *)
Definition loaded_plugins (fs : FileSystem) (base_directory : string)
    (plugin_file : json) (language_plugins : gmap string Plugin) : Prop :=
  ∃ plugins, getitem plugin_file "Plugins" = Return plugins ∧
             isinstance_dict plugins = true ∧
             visit_plugins fs base_directory plugins (keys plugins) ∅
               = Return language_plugins.

End LanguagePlugins.

(* --------------------------------------------------------------------- *)
(** ** Generator/RulesFile/NonDeterministicIR.py                          *)
(* --------------------------------------------------------------------- *)

Module Ast.
Import Py.

(** The syntax tree the builder visits.  Its classes live in the AST module,
    which is not among the sources; the records below hold the attributes
    the builder reads and the one it assigns ([rule.pattern]). *)
Record Pattern : Type := {
  regex : string;
  is_case_insensitive : bool
}.

#[global] Instance Pattern_eq_dec : EqDecision Pattern.
Proof. solve_decision. Defined.

(** The target of a section action, [section.name] in the builder. *)
Record SectionReference : Type := {
  name : string
}.

Record Rule : Type := {
  id : option string;
  pattern : option Pattern;
  rule_action : list (option string);
  section_action : option (option string * option SectionReference);
  line_number : Z
}.

(** [rule.pattern = p] *)
Definition set_pattern (p : option Pattern) (rule : Rule) : Rule :=
  {| id := id rule; pattern := p; rule_action := rule_action rule;
     section_action := section_action rule; line_number := line_number rule |}.

(** Rule objects are shared between a section's children and its scope
    tables, and the builder assigns to them: they live in a heap and are
    named by reference. *)
Abbreviation Heap := (nat → Rule) (only parsing).

(** Modelled from the spec: [Rule.throw] is defined in the absent AST module.
    By the failure policy of the specification (4.5 and 7) the failure it
    raises carries the rule's declaration line and the given message. *)
Definition throw (rule : Rule) (message : string) : exn :=
  Thrown (line_number rule) message.

(** A section with what is declared inside it: its simple and qualified
    names, the [inherits] flag, the items [section.all('future_import')]
    yields (identifier and rule object), and its rules and sub-sections in
    declaration order. *)
Inductive SectionTree : Type :=
| MkSection (section_name qualified_name : string) (inherits : bool)
    (future_import : list (option string * nat))
    (children : list (nat + SectionTree)).

Definition section_name (t : SectionTree) : string :=
  let 'MkSection n _ _ _ _ := t in n.
Definition qualified_name (t : SectionTree) : string :=
  let 'MkSection _ q _ _ _ := t in q.
Definition inherits (t : SectionTree) : bool :=
  let 'MkSection _ _ i _ _ := t in i.
Definition future_import (t : SectionTree) : list (option string * nat) :=
  let 'MkSection _ _ _ f _ := t in f.
Definition children (t : SectionTree) : list (nat + SectionTree) :=
  let 'MkSection _ _ _ _ c := t in c.

(** A section object as the builder holds it: the section and the chain of
    its [parent] links, innermost first. *)
Record SectionNode : Type := {
  tree : SectionTree;
  parents : list SectionTree
}.

(** [section.parent] *)
Definition parent (section : SectionNode) : option SectionNode :=
  match parents section with
  | [] => None
  | p :: up => Some {| tree := p; parents := up |}
  end.

(** [section.get_qualified_name()] *)
Definition get_qualified_name (section : SectionNode) : string :=
  qualified_name (tree section).

End Ast.

Module SectionResolver.

Fixpoint find_child (target : string) (l : list (nat + Ast.SectionTree))
    : option Ast.SectionTree :=
  match l with
  | [] => None
  | inr t :: l' =>
      if decide (Ast.section_name t = target) then Some t else find_child target l'
  | inl _ :: l' => find_child target l'
  end.

Fixpoint resolve_from (target : string) (chain : list Ast.SectionTree)
    : option Ast.SectionNode :=
  match chain with
  | [] => None
  | t :: up =>
      match find_child target (Ast.children t) with
      | Some c => Some {| Ast.tree := c; Ast.parents := t :: up |}
      | None => resolve_from target up
      end
  end.

(** Modelled from the spec: [SectionResolver.resolve] is imported from a
    module that is not among the sources.  Section 4.4: the name is resolved
    relative to the current section first, then by walking upward through
    its ancestors; the answer is a section or not-found ([None]), never an
    exception. *)
Definition resolve (target : Ast.SectionReference) (from_section : option Ast.SectionNode)
    : option Ast.SectionNode :=
  match from_section with
  | None => None
  | Some s => resolve_from (Ast.name target) (Ast.tree s :: Ast.parents s)
  end.

End SectionResolver.

Module NonDeterministicIR.
Import Py.

(** The lookup table [visit_rule] hands to the NFA builder. *)
Record DefineLookup (Regex : Type) : Type := {
  contains : string → result bool;
  getitem : string → result Regex
}.
Arguments contains {Regex} _ _.
Arguments getitem {Regex} _ _.

(** What the builder calls outside this file: the regular-expression parser
    and the NFA builder (their results are kept abstract), and the scope
    look-ups of the syntax tree, [section.find('reservation', id)] and
    [section.find('define', name)], which answer with the rule object,
    respectively the pattern of the definition, or with nothing. *)
Class Collaborators : Type := {
  Regex : Type;
  NFA : Type;
  Regex_Parser_parse : string → bool → result Regex;
  NonDeterministicFiniteBuilder_build :
    option string → DefineLookup Regex → Regex → result NFA;
  find_reservation : Ast.SectionNode → option string → option nat;
  find_define : Ast.SectionNode → string → option Ast.Pattern
}.

Section Builder.
Context `{C : Collaborators}.

Record Rule : Type := {
  id : option string;
  nfa : NFA;
  action : list (option string);
  section_action : option (option string * option string);
  line_number : Z
}.

Record IRSection : Type := {
  rules : list Rule;
  inherits : bool;
  parent : option string
}.

(** [section.rules.append(rule)] *)
Definition append_rule (rule : Rule) (section : IRSection) : IRSection :=
  {| rules := rules section ++ [rule];
     inherits := inherits section; parent := parent section |}.

(** The builder's attributes.  [self.sections] and [self.current_ir_section]
    refer to the same Section objects, so these are kept in [objects] and
    named by reference; references below [next] are taken. *)
Record Builder : Type := {
  current_ast_section : option Ast.SectionNode;
  current_ir_section : option nat;
  sections : gmap string nat;
  rule_ids : gmap string string;
  objects : nat → IRSection;
  next : nat
}.

(** [Builder.__init__] *)
Definition new_builder : Builder :=
  {| current_ast_section := None; current_ir_section := None;
     sections := ∅; rule_ids := ∅;
     objects := fun _ => {| rules := []; inherits := false; parent := None |};
     next := 0 |}.

Definition unresolved_pattern_message : string :=
  "pattern must be defined for imported rule if not defined by reservation rule".

Definition reservation_not_found_message : string :=
  "reservation not found for imported rule".

(** The loop at the head of [visit_section], over the items of
    [section.all('future_import')].  The heap comes back in either case:
    an assignment made before a failure stays made. *)
Fixpoint resolve_imports (section : Ast.SectionNode)
    (imports : list (option string * nat)) (h : Ast.Heap)
    : Ast.Heap * result unit :=
  match imports with
  | [] => (h, Return tt)
  | (_, a) :: rest =>
      let rule := h a in
      match find_reservation section (Ast.id rule) with
      | None => (h, Raise (Ast.throw rule reservation_not_found_message))
      | Some ra =>
          match Ast.pattern rule with
          | None =>
              match Ast.pattern (h ra) with
              | None => (h, Raise (Ast.throw rule unresolved_pattern_message))
              | Some p =>
                  resolve_imports section rest (<[a := Ast.set_pattern (Some p) rule]> h)
              end
          | Some _ => resolve_imports section rest h
          end
      end
  end.

Definition visit_section (section : Ast.SectionNode) (b : Builder) (h : Ast.Heap)
    : Ast.Heap * result Builder :=
  match resolve_imports section (Ast.future_import (Ast.tree section)) h with
  | (h', Raise e) => (h', Raise e)
  | (h', Return _) =>
      let parent_id := Ast.get_qualified_name <$> Ast.parent section in
      let new_section :=
        {| rules := []; inherits := Ast.inherits (Ast.tree section);
           parent := parent_id |} in
      (h', Return
         {| current_ast_section := Some section;
            current_ir_section := Some (next b);
            sections := <[Ast.get_qualified_name section := next b]> (sections b);
            rule_ids := rule_ids b;
            objects := <[next b := new_section]> (objects b);
            next := S (next b) |})
  end.

Definition leave_section (section : Ast.SectionNode) (b : Builder) : result Builder :=
  match Ast.parent section with
  | Some p =>
      match sections b !! Ast.get_qualified_name p with
      | Some o =>
          Return {| current_ast_section := Some p; current_ir_section := Some o;
                    sections := sections b; rule_ids := rule_ids b;
                    objects := objects b; next := next b |}
      | None => Raise (KeyError (Ast.get_qualified_name p))
      end
  | None =>
      Return {| current_ast_section := None; current_ir_section := None;
                sections := sections b; rule_ids := rule_ids b;
                objects := objects b; next := next b |}
  end.

(** The class [DefineLookup] local to [visit_rule], closed over the
    section current at the time of the visit. *)
Definition define_lookup (current : option Ast.SectionNode) : DefineLookup Regex :=
  {| contains := fun item_name =>
       match current with
       | None => Raise (AttributeError "'NoneType' object has no attribute 'find'")
       | Some s => Return (bool_decide (is_Some (find_define s item_name)))
       end;
     getitem := fun item_name =>
       match current with
       | None => Raise (AttributeError "'NoneType' object has no attribute 'find'")
       | Some s =>
           match find_define s item_name with
           | None => Raise (Exception ("variable '" +:+ item_name +:+ "' not found"))
           | Some p => Regex_Parser_parse (Ast.regex p) (Ast.is_case_insensitive p)
           end
       end |}.

(** The resolution of [rule.section_action] (the source's lines 137 to 145). *)
Definition resolve_section_action (current : option Ast.SectionNode)
    (sa : option (option string * option Ast.SectionReference))
    : result (option (option string * option string)) :=
  match sa with
  | None => Return None
  | Some (action, None) => Return (Some (action, None))
  | Some (action, Some section) =>
      match SectionResolver.resolve section current with
      | None => Raise (Exception ("section '" +:+ Ast.name section +:+ "' not found"))
      | Some rule_section => Return (Some (action, Some (Ast.get_qualified_name rule_section)))
      end
  end.

(** [self.rule_ids] after the source's lines 149 and 150. *)
Definition record_rule_id (rule_id : option string) (ids : gmap string string)
    : gmap string string :=
  match rule_id with
  | Some i => if bool_decide (is_Some (ids !! lower i)) then ids else <[i := i]> ids
  | None => ids
  end.

(** The [try] block of [visit_rule]. *)
Definition compile_rule (rule : Ast.Rule) (b : Builder) : result Builder :=
  if bool_decide (Some "reserve" ∈ Ast.rule_action rule) then Return b
  else
    let rule_id_lower := lower <$> Ast.id rule in
    p ← match Ast.pattern rule with
        | Some p => Return p
        | None => Raise (AttributeError "'NoneType' object has no attribute 'regex'")
        end;
    regex ← Regex_Parser_parse (Ast.regex p) (Ast.is_case_insensitive p);
    nfa ← NonDeterministicFiniteBuilder_build rule_id_lower
            (define_lookup (current_ast_section b)) regex;
    section_action ← resolve_section_action (current_ast_section b)
                       (Ast.section_action rule);
    let rule_action := map (fmap lower) (Ast.rule_action rule) in
    let ir_rule := {| id := Ast.id rule; nfa := nfa; action := rule_action;
                      section_action := section_action;
                      line_number := Ast.line_number rule |} in
    match current_ir_section b with
    | None => Raise (AttributeError "'NoneType' object has no attribute 'rules'")
    | Some o =>
        Return {| current_ast_section := current_ast_section b;
                  current_ir_section := current_ir_section b;
                  sections := sections b;
                  rule_ids := record_rule_id (Ast.id rule) (rule_ids b);
                  objects := alter (append_rule ir_rule) o (objects b);
                  next := next b |}
    end.

(** The message of the [except] clause. *)
Definition rule_failure_message (rule_id : option string) (e : exn) : string :=
  match rule_id with
  | None => "anonymous rule: " +:+ str e
  | Some i => "rule '" +:+ i +:+ "': " +:+ str e
  end.

Definition visit_rule (a : nat) (b : Builder) (h : Ast.Heap) : result Builder :=
  let rule := h a in
  match compile_rule rule b with
  | Return b' => Return b'
  | Raise e => Raise (Ast.throw rule (rule_failure_message (Ast.id rule) e))
  end.

(** The calls a traversal makes on the builder. *)
Inductive Event : Type :=
| VisitSection (section : Ast.SectionNode)
| VisitRule (a : nat)
| LeaveSection (section : Ast.SectionNode).

Definition step (ev : Event) (b : Builder) (h : Ast.Heap) : Ast.Heap * result Builder :=
  match ev with
  | VisitSection section => visit_section section b h
  | VisitRule a => (h, visit_rule a b h)
  | LeaveSection section => (h, leave_section section b)
  end.

(** The calls in sequence; the first exception ends the run. *)
Fixpoint run (evs : list Event) (b : Builder) (h : Ast.Heap)
    : Ast.Heap * result Builder :=
  match evs with
  | [] => (h, Return b)
  | ev :: evs' =>
      match step ev b h with
      | (h', Return b') => run evs' b' h'
      | (h', Raise e) => (h', Raise e)
      end
  end.

(** Modelled from the spec: the [Traverser] of the absent Visitor module.
    The builder works section by section (4.5): a section is announced with
    [visit_section], then what is declared in it is visited in declaration
    order, rules with [visit_rule] and sub-sections in the same way, and the
    section is closed with [leave_section]. *)
Fixpoint accept (up : list Ast.SectionTree) (t : Ast.SectionTree) : list Event :=
  let section := {| Ast.tree := t; Ast.parents := up |} in
  VisitSection section ::
  (fix accept_children (l : list (nat + Ast.SectionTree)) : list Event :=
     match l with
     | [] => []
     | inl a :: l' => VisitRule a :: accept_children l'
     | inr c :: l' => accept (t :: up) c ++ accept_children l'
     end) (Ast.children t)
  ++ [LeaveSection section].

(** The attributes of a finished [NonDeterministicIR] object; [ir_sections]
    shows each name of [self.sections] with the object it refers to. *)
Record IR : Type := {
  ir_sections : gmap string IRSection;
  ir_rule_ids : gmap string string;
  ir_root : string
}.

(** [NonDeterministicIR.__init__] *)
Definition init (root : Ast.SectionNode) (h : Ast.Heap) : Ast.Heap * result IR :=
  match run (accept (Ast.parents root) (Ast.tree root)) new_builder h with
  | (h', Return b) =>
      (h', Return {| ir_sections := objects b <$> sections b;
                     ir_rule_ids := rule_ids b;
                     ir_root := Ast.get_qualified_name root |})
  | (h', Raise e) => (h', Raise e)
  end.

(** ** Notions used to state the properties *)

(** [h'] is [h] after some assignments [rule.pattern = p] to rules that had
    no pattern. *)
Definition heap_extends (h h' : Ast.Heap) : Prop :=
  ∀ a, Ast.id (h' a) = Ast.id (h a) ∧
       Ast.rule_action (h' a) = Ast.rule_action (h a) ∧
       Ast.section_action (h' a) = Ast.section_action (h a) ∧
       Ast.line_number (h' a) = Ast.line_number (h a) ∧
       ∀ p, Ast.pattern (h a) = Some p → Ast.pattern (h' a) = Some p.

(** The builder with other identifiers recorded. *)
Definition with_rule_ids (ids : gmap string string) (b : Builder) : Builder :=
  {| current_ast_section := current_ast_section b;
     current_ir_section := current_ir_section b;
     sections := sections b; rule_ids := ids;
     objects := objects b; next := next b |}.

(** Every identifier is recorded under itself. *)
Definition ids_ok (ids : gmap string string) : Prop :=
  ∀ k v, ids !! k = Some v → v = k.

End Builder.

End NonDeterministicIR.

(* --------------------------------------------------------------------- *)
(** ** Small grammars used to run the builder                             *)
(* --------------------------------------------------------------------- *)

Module Samples.
Import Py NonDeterministicIR.

(** A stand-in for the absent parser: one unbalanced pattern is refused. *)
Definition toy_parse (regex : string) (is_case_insensitive : bool) : result string :=
  if bool_decide (regex = "(") then Raise (Exception "unbalanced group")
  else Return regex.

Fixpoint table_find (table : list (string * nat)) (k : string) : option nat :=
  match table with
  | [] => None
  | (k', a) :: table' => if decide (k' = k) then Some a else table_find table' k
  end.

(** Stand-ins for the collaborators; [reservations] is the scope table of
    reservations, the same in every section. *)
Definition toy (reservations : list (string * nat)) : Collaborators :=
  {| Regex := string;
     NFA := option string * string;
     Regex_Parser_parse := toy_parse;
     NonDeterministicFiniteBuilder_build := fun rule_id _ regex => Return (rule_id, regex);
     find_reservation := fun _ rule_id =>
       match rule_id with
       | Some i => table_find reservations i
       | None => None
       end;
     find_define := fun _ _ => None |}.

Definition mk_rule (id : option string) (pattern : option string)
    (rule_action : list (option string))
    (section_action : option (option string * option Ast.SectionReference))
    (line_number : Z) : Ast.Rule :=
  {| Ast.id := id;
     Ast.pattern := (λ r, {| Ast.regex := r; Ast.is_case_insensitive := false |}) <$> pattern;
     Ast.rule_action := rule_action;
     Ast.section_action := section_action;
     Ast.line_number := line_number |}.

Definition heap_of (rules : list Ast.Rule) : Ast.Heap :=
  fun a => default (mk_rule None None [] None 0) (rules !! a).

Definition root_of (t : Ast.SectionTree) : Ast.SectionNode :=
  {| Ast.tree := t; Ast.parents := [] |}.

(** The builder after the given calls, and just after [visit_section] of
    the root. *)
Definition after `{C : Collaborators} (evs : list Event) (h : Ast.Heap) : Builder :=
  match (run evs new_builder h).2 with
  | Return b => b
  | Raise _ => new_builder
  end.

Definition enter `{C : Collaborators} (root : Ast.SectionNode) (h : Ast.Heap) : Builder :=
  after [VisitSection root] h.

(** [reserve TOK] without a pattern, and nothing else. *)
Definition lone_reservation_heap : Ast.Heap :=
  heap_of [ mk_rule (Some "TOK") None [Some "reserve"] None 1 ].
Definition lone_reservation : Ast.SectionTree :=
  Ast.MkSection "" "::" false [] [inl 0%nat].

(** A reservation with a pattern and a rule importing it without one. *)
Definition import_heap : Ast.Heap :=
  heap_of [ mk_rule (Some "TOK") (Some "[a-z]+") [Some "reserve"] None 1;
            mk_rule (Some "TOK") None [Some "import"] None 2 ].
Definition import_tables : list (string * nat) := [ ("TOK", 0%nat) ].
Definition import_grammar : Ast.SectionTree :=
  Ast.MkSection "" "::" false [ (Some "TOK", 1%nat) ] [inl 0%nat; inl 1%nat].

(** The same with no pattern on either side. *)
Definition unresolved_heap : Ast.Heap :=
  heap_of [ mk_rule (Some "TOK") None [Some "reserve"] None 1;
            mk_rule (Some "TOK") None [Some "import"] None 2 ].

(** A reservation with a pattern, a rule importing it, and a second
    reservation, without a pattern, that no rule imports. *)
Definition spare_heap : Ast.Heap :=
  heap_of [ mk_rule (Some "TOK") (Some "[a-z]+") [Some "reserve"] None 1;
            mk_rule (Some "TOK") None [Some "import"] None 2;
            mk_rule (Some "SPARE") None [Some "reserve"] None 3 ].
Definition spare_tables : list (string * nat) := [ ("TOK", 0%nat); ("SPARE", 2%nat) ].
Definition spare_grammar : Ast.SectionTree :=
  Ast.MkSection "" "::" false [ (Some "TOK", 1%nat) ] [inl 0%nat; inl 1%nat; inl 2%nat].

(** Two rules whose identifiers differ in case only. *)
Definition collision_heap : Ast.Heap :=
  heap_of [ mk_rule (Some "Id") (Some "[a-z]+") [None] None 1;
            mk_rule (Some "ID") (Some "[A-Z]+") [None] None 2 ].
Definition collision_grammar : Ast.SectionTree :=
  Ast.MkSection "" "::" false [] [inl 0%nat; inl 1%nat].

(** A section with a sub-section [string]; rule 0 enters it, rule 1 names a
    section that does not exist, rule 2 has a pattern that does not parse
    and rule 3, anonymous, has none. *)
Definition sections_heap : Ast.Heap :=
  heap_of [ mk_rule (Some "quote") (Some "'") [Some "Skip"]
              (Some (Some "enter", Some {| Ast.name := "string" |})) 1;
            mk_rule (Some "hash") (Some "#") [None]
              (Some (Some "enter", Some {| Ast.name := "comment" |})) 2;
            mk_rule (Some "open") (Some "(") [None] None 3;
            mk_rule None None [None] None 4;
            mk_rule (Some "char") (Some ".") [Some "Capture"]
              (Some (Some "exit", None)) 5 ].
Definition string_section : Ast.SectionTree :=
  Ast.MkSection "string" "::string" true [] [inl 4%nat].
Definition sections_grammar (rules : list nat) : Ast.SectionTree :=
  Ast.MkSection "" "::" false [] (map inl rules ++ [inr string_section]).

End Samples.

(* --------------------------------------------------------------------- *)
(** ** The shape of a traversal                                           *)
(* --------------------------------------------------------------------- *)

Module Traversal.
Import Py NonDeterministicIR.

(** The calls made for the children of a section whose chain is [up]
    (the section itself first): the inner loop of [accept]. *)
Fixpoint accept_children (up : list Ast.SectionTree) (l : list (nat + Ast.SectionTree))
    : list Event :=
  match l with
  | [] => []
  | inl a :: l' => VisitRule a :: accept_children up l'
  | inr c :: l' => accept up c ++ accept_children up l'
  end.

(** The rules declared directly in a list of children, in order. *)
Fixpoint rule_children (l : list (nat + Ast.SectionTree)) : list nat :=
  match l with
  | [] => []
  | inl a :: l' => a :: rule_children l'
  | inr _ :: l' => rule_children l'
  end.

(** The sections of a tree, each with its chain of parents, in the order in
    which they are visited. *)
Fixpoint subsections (up : list Ast.SectionTree) (t : Ast.SectionTree)
    : list Ast.SectionNode :=
  {| Ast.tree := t; Ast.parents := up |} ::
  (fix subsections_children (l : list (nat + Ast.SectionTree)) : list Ast.SectionNode :=
     match l with
     | [] => []
     | inl _ :: l' => subsections_children l'
     | inr c :: l' => subsections (t :: up) c ++ subsections_children l'
     end) (Ast.children t).

Fixpoint subsections_children (up : list Ast.SectionTree)
    (l : list (nat + Ast.SectionTree)) : list Ast.SectionNode :=
  match l with
  | [] => []
  | inl _ :: l' => subsections_children up l'
  | inr c :: l' => subsections up c ++ subsections_children up l'
  end.

(** A rule of the grammar: visited as a child of a section, or listed among
    the imports of a visited section. *)
Definition rule_of_trace (evs : list Event) (a : nat) : Prop :=
  VisitRule a ∈ evs ∨
  ∃ section i, VisitSection section ∈ evs ∧
               (i, a) ∈ Ast.future_import (Ast.tree section).

(** Every [leave_section] of a section with a parent comes after a
    [visit_section] of a section with the parent's qualified name, or the
    name is among [opened]. *)
Fixpoint scoped (opened : list string) (evs : list Event) : Prop :=
  match evs with
  | [] => True
  | VisitSection section :: evs' =>
      scoped (Ast.get_qualified_name section :: opened) evs'
  | VisitRule _ :: evs' => scoped opened evs'
  | LeaveSection section :: evs' =>
      match Ast.parent section with
      | Some p => Ast.get_qualified_name p ∈ opened
      | None => True
      end ∧ scoped opened evs'
  end.

(** The qualified names announced by the [visit_section] calls of a trace. *)
Fixpoint visited_names (evs : list Event) : list string :=
  match evs with
  | [] => []
  | VisitSection section :: evs' => Ast.get_qualified_name section :: visited_names evs'
  | _ :: evs' => visited_names evs'
  end.

(** The parent of a section with chain [up] is among the open names. *)
Definition parent_open (up : list Ast.SectionTree) (O : list string) : Prop :=
  match up with
  | [] => True
  | p :: _ => Ast.qualified_name p ∈ O
  end.

End Traversal.

(* --------------------------------------------------------------------- *)
(** ** What the IR of a section should hold                               *)
(* --------------------------------------------------------------------- *)

Module BuildSpec.
Import Py NonDeterministicIR Traversal.

Section Spec.
Context `{C : Collaborators}.

(** The IR rule [r] is the rule [a] compiled in the section [s]: same
    identifier and line, lower-cased action, section action resolved from
    [s], NFA built from the rule's pattern under the lower-cased identifier
    with the definitions visible from [s]. *)
Definition compiled_from (h : Ast.Heap) (s : Ast.SectionNode) (a : nat) (r : Rule) : Prop :=
  id r = Ast.id (h a) ∧
  line_number r = Ast.line_number (h a) ∧
  action r = map (fmap lower) (Ast.rule_action (h a)) ∧
  resolve_section_action (Some s) (Ast.section_action (h a)) = Return (section_action r) ∧
  ∃ p regex,
    Ast.pattern (h a) = Some p ∧
    Regex_Parser_parse (Ast.regex p) (Ast.is_case_insensitive p) = Return regex ∧
    NonDeterministicFiniteBuilder_build (lower <$> Ast.id (h a))
      (define_lookup (Some s)) regex = Return (nfa r).

(** The rules among the children that are no reservations, in order. *)
Definition concrete_rules (h : Ast.Heap) (l : list (nat + Ast.SectionTree)) : list nat :=
  filter (λ a, Some "reserve" ∉ Ast.rule_action (h a)) (rule_children l).

(** The IR section [sec] is the section [s] compiled. *)
Definition section_matches (h : Ast.Heap) (s : Ast.SectionNode) (sec : IRSection) : Prop :=
  inherits sec = Ast.inherits (Ast.tree s) ∧
  parent sec = Ast.get_qualified_name <$> Ast.parent s ∧
  Forall2 (compiled_from h s) (concrete_rules h (Ast.children (Ast.tree s))) (rules sec).

(** The section table refers to objects that exist. *)
Definition refs_allocated (b : Builder) : Prop :=
  ∀ q o, sections b !! q = Some o → (o < next b)%nat.

(** What a complete traversal of a section leaves behind. *)
Definition section_built (t : Ast.SectionTree) : Prop :=
  ∀ up b h h' b',
    refs_allocated b →
    NoDup (Ast.get_qualified_name <$> subsections up t) →
    run (accept up t) b h = (h', Return b') →
    refs_allocated b' ∧ (next b ≤ next b')%nat ∧
    current_ast_section b' = Ast.parent {| Ast.tree := t; Ast.parents := up |} ∧
    current_ir_section b' =
      (p ← Ast.parent {| Ast.tree := t; Ast.parents := up |};
       sections b' !! Ast.get_qualified_name p) ∧
    (∀ o, (o < next b)%nat → objects b' o = objects b o) ∧
    (∀ s, s ∈ subsections up t →
       ∃ o, sections b' !! Ast.get_qualified_name s = Some o ∧ (next b ≤ o)%nat ∧
            section_matches h' s (objects b' o)).

End Spec.
End BuildSpec.

(* --------------------------------------------------------------------- *)
(** ** Generator/LanguagePlugins.py: what a kept plug-in looks like       *)
(* --------------------------------------------------------------------- *)

Module PluginSpec.
Import Py LanguagePlugins.

(** A path answered by [is_path]: present, and existing in the file system. *)
Definition resolved (fs : FileSystem) (p : option string) : Prop :=
  ∃ path, p = Some path ∧ exists_ fs path = true.

(** All the paths of a plug-in are resolved. *)
Definition plugin_resolved (fs : FileSystem) (pl : Plugin) : Prop :=
  resolved fs (source_path pl) ∧
  resolved fs (plugin_files_directory pl) ∧
  Forall (resolved fs) (dependencies pl).

(** The locals of a turn that is still [valid] hold resolved paths only,
    and paths for attributes met so far only. *)
Definition entry_ok (fs : FileSystem) (seen : list json) (e : Entry) : Prop :=
  (∀ k, is_Some (plugin_paths e !! k) → JString k ∈ seen) ∧
  (valid e = true →
   (∀ k v, plugin_paths e !! k = Some v → resolved fs v) ∧
   Forall (resolved fs) (entry_dependencies e)).

(** What being kept by the loop tells about a plug-in identifier. *)
Definition kept_for (fs : FileSystem) (plugins : json) (plugin_id : string)
    (pl : Plugin) : Prop :=
  is_Some (re_match_plugin_id plugin_id) ∧
  plugin_resolved fs pl ∧
  ∃ entry attrs, getitem plugins plugin_id = Return entry ∧
                 iterate entry = Return attrs ∧
                 JString "Source" ∈ attrs ∧ JString "Files" ∈ attrs.

End PluginSpec.

(* --------------------------------------------------------------------- *)
(** ** Plugins/C-Ascii/C-Ascii.py: the constructor and the name tables    *)
(* --------------------------------------------------------------------- *)

Module CAsciiEmitter.
Import Py CAscii.

Definition reserved_keywords : list string :=
  [ "auto"; "break"; "case"; "char"; "const"; "continue"; "default"; "do";
    "double"; "else"; "enum"; "extern"; "float"; "for"; "goto"; "if";
    "int"; "long"; "register"; "return"; "short"; "signed"; "sizeof"; "static";
    "struct"; "switch"; "typedef"; "union"; "unsigned"; "void"; "volatile"; "while" ].

Definition default_file_name : string := "lexical_analyzer".

(** [LanguagePlugins.PluginOptions] *)
Record PluginOptions : Type := {
  is_backtracking : bool;
  class_name : option string;
  namespace : option string;
  file_name : option string
}.

(** The attributes of an emitter the methods below use.  [ids] is keyed by
    a state of the automaton, or by [None] for the invalid-character state. *)
Record Emitter : Type := {
  base_file_name : string;
  emitter_namespace : string;
  ids : gmap (option nat) string;
  rule_ids : gmap string string
}.

(** the class [[A-Za-z0-9_]] *)
Definition is_name_char (c : ascii) : bool :=
  LanguagePlugins.is_alpha c || LanguagePlugins.in_range 48 57 c || bool_decide (c = "_"%char).

(** [re.match("[A-Za-z_][A-Za-z0-9_]*", name)]: the matched prefix. *)
Definition re_match_name (name : string) : option string :=
  match name with
  | String c s' =>
      if LanguagePlugins.is_alpha c || bool_decide (c = "_"%char)
      then Some (String c (LanguagePlugins.take_while is_name_char s'))
      else None
  | EmptyString => None
  end.

(** One turn of the loop of [__init__] over the two optional names. *)
Definition check_name (name : option string) (description : string) : result unit :=
  match name with
  | None => Return tt
  | Some n =>
      if re_match_name n is None then
        Raise (Exception ("Invalid " +:+ lower description +:+ " '" +:+ n +:+ "'"))
      else if bool_decide (n ∈ reserved_keywords) then
        Raise (Exception (description +:+ " '" +:+ n +:+ "' is reserved"))
      else Return tt
  end.

(** [CAsciiEmitter.__init__], as far as the plug-in options go.  The class
    has an attribute [default_namespace]; the last line asks for
    [default_namespaces]. *)
Definition init (plugin_options : PluginOptions) : result Emitter :=
  _ ← check_name (file_name plugin_options) "Base file name";
  _ ← check_name (namespace plugin_options) "Namespace";
  match class_name plugin_options with
  | Some c =>
      Raise (Exception ("Arbitrary class name '" +:+ c +:+
                        "' not supported as C-Ascii emitter is not class-based"))
  | None =>
      let base := default default_file_name (file_name plugin_options) in
      match namespace plugin_options with
      | Some ns =>
          Return {| base_file_name := base; emitter_namespace := ns;
                    ids := ∅; rule_ids := ∅ |}
      | None =>
          Raise (AttributeError
                   "type object 'CAsciiEmitter' has no attribute 'default_namespaces'")
      end
  end.

(** ["%d" % n] *)
Definition repr (n : nat) : string :=
  DecimalString.NilEmpty.string_of_uint (Nat.to_uint n).

(** The values of a dictionary. *)
Definition values {K} `{Countable K} (m : gmap K string) : list string :=
  (map_to_list m).*2.

(** The condition of the two [while] loops that look for a free name:
    [id in d.values() or id.lower() in CAsciiEmitter.reserved_keywords]. *)
Definition taken (vals : list string) (id : string) : bool :=
  bool_decide (id ∈ vals) || bool_decide (lower id ∈ reserved_keywords).

(** [n = 1; while taken(id): id = numbered(n); n += 1], with a bound on
    the number of tests of the condition; [None] when it is exhausted. *)
Fixpoint free_name (fuel : nat) (vals : list string) (numbered : nat → string)
    (id : string) (n : nat) : option string :=
  match fuel with
  | O => None
  | S fuel' =>
      if taken vals id then free_name fuel' vals numbered (numbered n) (S n)
      else Some id
  end.

(** What the emitter reads of the lexical analyzer. *)
Record LexicalAnalyzer : Type := {
  rules : list Rule;
  reserved_ids : list string
}.

(** [all_ids] of [map_rule_names] *)
Definition all_ids (la : LexicalAnalyzer) : list string :=
  map (fun rule => upper (id rule)) (rules la) ++ map upper (reserved_ids la).

(** The loop of [map_rule_names] over [all_ids]. *)
Fixpoint map_rule_names_loop (fuel : nat) (ns : string) (all : list string)
    (rule_ids : gmap string string) : option (gmap string string) :=
  match all with
  | [] => Some rule_ids
  | id :: rest =>
      let first := "TOKEN_" +:+ upper ns +:+ "_" +:+ id in
      code_id ← free_name fuel (values rule_ids) (fun n => first +:+ repr n) first 1;
      map_rule_names_loop fuel ns rest (<[id := code_id]> rule_ids)
  end.

Definition map_rule_names (fuel : nat) (la : LexicalAnalyzer) (e : Emitter)
    : option Emitter :=
  rule_ids' ← map_rule_names_loop fuel (emitter_namespace e) (all_ids la) (rule_ids e);
  Some {| base_file_name := base_file_name e;
          emitter_namespace := emitter_namespace e;
          ids := ids e; rule_ids := rule_ids' |}.

(** A state of the automaton: the object (named by a number) and the set
    [state.ids], in some order. *)
Record State : Type := {
  state : nat;
  state_ids : list string
}.

Record DFA : Type := {
  start_state : nat;
  states : list State
}.

(** [sorted(...)] on texts, by insertion; the order is that of the
    character codes. *)
Fixpoint insert_sorted (x : string) (l : list string) : list string :=
  match l with
  | [] => [x]
  | y :: l' => if String.leb x y then x :: y :: l' else y :: insert_sorted x l'
  end.

Definition sorted (l : list string) : list string :=
  foldr insert_sorted [] l.

(** The loop of [map_state_ids] over the states of the automaton. *)
Fixpoint map_state_ids_loop (fuel : nat) (ns : string) (start : nat)
    (sts : list State) (ids : gmap (option nat) string)
    : option (gmap (option nat) string) :=
  match sts with
  | [] => Some ids
  | st :: rest =>
      if decide (state st ≠ start) then
        let initial_id :=
          "STATE_" +:+ upper ns +:+ "_" +:+ String.concat "_" (map upper (sorted (state_ids st))) in
        id ← free_name fuel (values ids) (fun n => initial_id +:+ repr n)
               (String.substring 0 256 initial_id) 1;
        map_state_ids_loop fuel ns start rest (<[Some (state st) := id]> ids)
      else map_state_ids_loop fuel ns start rest ids
  end.

Definition map_state_ids (fuel : nat) (dfa : DFA) (e : Emitter) : option Emitter :=
  let ns := emitter_namespace e in
  let ids0 :=
    <[None := "STATE_" +:+ upper ns +:+ "_INVALIDCHAR"]>
      (<[Some (start_state dfa) := "STATE_" +:+ upper ns +:+ "_INITIALSTATE"]> (ids e)) in
  ids' ← map_state_ids_loop fuel ns (start_state dfa) (states dfa) ids0;
  Some {| base_file_name := base_file_name e;
          emitter_namespace := emitter_namespace e;
          ids := ids'; rule_ids := rule_ids e |}.

(** The list written for [ENUM_TOKEN_IDS] in [emit]. *)
Fixpoint lookup_all (rule_ids : gmap string string) (l : list string)
    : result (list string) :=
  match l with
  | [] => Return []
  | k :: l' =>
      match rule_ids !! k with
      | Some v => (fun l => v :: l) <$> lookup_all rule_ids l'
      | None => Raise (KeyError k)
      end
  end.

Definition token_ids (la : LexicalAnalyzer) (e : Emitter) : result (list string) :=
  lookup_all (rule_ids e) (all_ids la).

(** No two keys share a value. *)
Definition injective {K} `{Countable K} (m : gmap K string) : Prop :=
  ∀ k1 k2 v, m !! k1 = Some v → m !! k2 = Some v → k1 = k2.

(** No value is a C keyword, whatever the case of its letters. *)
Definition no_keyword {K} `{Countable K} (m : gmap K string) : Prop :=
  ∀ k v, m !! k = Some v → lower v ∉ reserved_keywords.

End CAsciiEmitter.

(* --------------------------------------------------------------------- *)
(** ** More sample inputs                                                 *)
(* --------------------------------------------------------------------- *)

Module MoreSamples.
Import Py Samples.

(** The sub-section [string] of the sample grammar, taken as the root. *)
Definition inner_root : Ast.SectionNode :=
  {| Ast.tree := string_section; Ast.parents := [sections_grammar [0%nat]] |}.

(** A specification file whose only entry is a number. *)
Definition number_entry_file : LanguagePlugins.json :=
  LanguagePlugins.JDict
    [ ("Version", LanguagePlugins.JInt 1);
      ("Default", LanguagePlugins.JString "x");
      ("Plugins", LanguagePlugins.JDict [ ("x", LanguagePlugins.JInt 5) ]) ].

Definition no_options : CAsciiEmitter.PluginOptions :=
  {| CAsciiEmitter.is_backtracking := false; CAsciiEmitter.class_name := None;
     CAsciiEmitter.namespace := None; CAsciiEmitter.file_name := None |}.

Definition poodle_options : CAsciiEmitter.PluginOptions :=
  {| CAsciiEmitter.is_backtracking := false; CAsciiEmitter.class_name := None;
     CAsciiEmitter.namespace := Some "poodle"; CAsciiEmitter.file_name := None |}.

Definition poodle_emitter : CAsciiEmitter.Emitter :=
  {| CAsciiEmitter.base_file_name := "lexical_analyzer";
     CAsciiEmitter.emitter_namespace := "poodle";
     CAsciiEmitter.ids := ∅; CAsciiEmitter.rule_ids := ∅ |}.

Definition sample_analyzer : CAsciiEmitter.LexicalAnalyzer :=
  {| CAsciiEmitter.rules := CAscii.sample_rules;
     CAsciiEmitter.reserved_ids := ["eof"] |}.

Definition sample_dfa : CAsciiEmitter.DFA :=
  {| CAsciiEmitter.start_state := 0;
     CAsciiEmitter.states :=
       [ {| CAsciiEmitter.state := 0; CAsciiEmitter.state_ids := [] |};
         {| CAsciiEmitter.state := 1;
            CAsciiEmitter.state_ids := ["keyword_if"; "identifier"] |};
         {| CAsciiEmitter.state := 2; CAsciiEmitter.state_ids := ["identifier"] |};
         {| CAsciiEmitter.state := 3; CAsciiEmitter.state_ids := ["identifier"] |} ] |}.

End MoreSamples.

(* ===================================================================== *)
(** * Part II: properties                                                 *)
(* ===================================================================== *)

Module PyFacts.
Import Py.

Lemma lower_ascii_idemp c : lower_ascii (lower_ascii c) = lower_ascii c.
Proof. destruct c as [[] [] [] [] [] [] [] []]; reflexivity. Qed.

Lemma lower_idemp s : lower (lower s) = lower s.
Proof.
  induction s as [|c s IH]; simpl; [reflexivity|].
  by rewrite lower_ascii_idemp, IH.
Qed.

Lemma index_Return_lookup x l i :
  index x l = Return i → l !! i = Some x ∧ ∀ j y, (j < i)%nat → l !! j = Some y → y ≠ x.
Proof.
  revert i. induction l as [|y l IH]; intros i H; simpl in H; [discriminate|].
  destruct (decide (y = x)) as [->|Hne].
  - injection H as <-. split; [reflexivity|]. intros j z Hj. lia.
  - destruct (index x l) as [k|e] eqn:E; simpl in H; [|discriminate].
    injection H as <-. destruct (IH k eq_refl) as [Hk Hm]. split; [exact Hk|].
    intros [|j] z Hj Hz; simpl in Hz.
    + congruence.
    + apply (Hm j z); [lia|exact Hz].
Qed.

Lemma index_elem_of x l : x ∈ l → ∃ i, index x l = Return i.
Proof.
  induction l as [|y l IH]; intros H.
  - inversion H.
  - simpl. destruct (decide (y = x)) as [->|Hne]; [eauto|].
    apply elem_of_cons in H as [->|H]; [congruence|].
    destruct (IH H) as [i ->]. eexists. reflexivity.
Qed.

Lemma index_inj x y l i : index x l = Return i → index y l = Return i → x = y.
Proof.
  intros Hx Hy. apply index_Return_lookup in Hx as [Hx _].
  apply index_Return_lookup in Hy as [Hy _]. congruence.
Qed.

(** [min_loop] returns a least element when every key is defined. *)
Lemma min_loop_least {A} (key : A → result nat) l : ∀ best kbest,
  key best = Return kbest →
  (∀ x, x ∈ l → is_Return (key x)) →
  ∃ m km, min_loop key best kbest l = Return m ∧ key m = Return km ∧
          m ∈ best :: l ∧ (km ≤ kbest)%nat ∧
          ∀ x kx, x ∈ l → key x = Return kx → (km ≤ kx)%nat.
Proof.
  induction l as [|x l IH]; intros best kbest Hb Hall; simpl.
  - exists best, kbest. split; [reflexivity|]. split; [exact Hb|].
    split; [left|]. split; [lia|]. intros x kx Hx. inversion Hx.
  - destruct (Hall x) as [k Hk]; [left|]. rewrite Hk. simpl.
    destruct (k <? kbest)%nat eqn:Hlt.
    + apply Nat.ltb_lt in Hlt.
      destruct (IH x k Hk) as (m & km & Hm & Hkm & Hmem & Hle & Hmin).
      { intros y Hy. apply Hall. right. exact Hy. }
      exists m, km. split; [exact Hm|]. split; [exact Hkm|].
      split; [right; exact Hmem|]. split; [lia|].
      intros y ky Hy Hky. apply elem_of_cons in Hy as [->|Hy]; [|eauto].
      rewrite Hk in Hky. injection Hky as <-. exact Hle.
    + apply Nat.ltb_ge in Hlt.
      destruct (IH best kbest Hb) as (m & km & Hm & Hkm & Hmem & Hle & Hmin).
      { intros y Hy. apply Hall. right. exact Hy. }
      exists m, km. split; [exact Hm|]. split; [exact Hkm|].
      split; [apply elem_of_cons in Hmem as [->|Hmem]; [left|right; right; exact Hmem]|].
      split; [exact Hle|].
      intros y ky Hy Hky. apply elem_of_cons in Hy as [->|Hy]; [|eauto].
      rewrite Hk in Hky. injection Hky as <-. lia.
Qed.

Lemma min_least {A} (key : A → result nat) l :
  l ≠ [] →
  (∀ x, x ∈ l → is_Return (key x)) →
  ∃ m km, Py.min key l = Return m ∧ key m = Return km ∧ m ∈ l ∧
          ∀ x kx, x ∈ l → key x = Return kx → (km ≤ kx)%nat.
Proof.
  destruct l as [|x l]; [congruence|]. intros _ Hall. simpl.
  destruct (Hall x) as [k Hk]; [left|]. rewrite Hk. simpl.
  destruct (min_loop_least key l x k Hk) as (m & km & Hm & Hkm & Hmem & Hle & Hmin).
  { intros y Hy. apply Hall. right. exact Hy. }
  exists m, km. split; [exact Hm|]. split; [exact Hkm|]. split; [exact Hmem|].
  intros y ky Hy Hky. apply elem_of_cons in Hy as [->|Hy]; [|eauto].
  rewrite Hk in Hky. injection Hky as <-. exact Hle.
Qed.

End PyFacts.

Module CAsciiFacts.
Import Py CAscii PyFacts.

Lemma index_le_position y l j :
  l !! j = Some y → ∃ k, index y l = Return k ∧ (k ≤ j)%nat.
Proof.
  revert j. induction l as [|z l IH]; intros j Hj; [discriminate|].
  simpl. destruct (decide (z = y)) as [->|Hne].
  - exists 0%nat. split; [reflexivity|lia].
  - destruct j as [|j]; simpl in Hj; [congruence|].
    destruct (IH j Hj) as (k & -> & Hk). exists (S k). split; [reflexivity|lia].
Qed.

(** C1: for a state whose [final_ids] are non-empty (and are identifiers of
    rules, as final tags are), the identifier picked by
    [min(state.final_ids, key=tokens_by_priority.index)] belongs to the rule
    that comes first in [lexical_analyzer.rules] among the rules tagged on
    the state: it is the identifier of the rule at some index [i], and no
    rule at a lower index has its identifier in [final_ids].  The emitted
    token is that identifier in upper case. *)
Theorem token_is_earliest_declared_rule (rules : list Rule) (final_ids : list string) :
  (0 < length final_ids)%nat →
  final_ids ⊆ tokens_by_priority rules →
  ∃ m i r,
    min_final_id rules final_ids = Return m ∧
    token rules final_ids = Return (upper m) ∧
    m ∈ final_ids ∧
    rules !! i = Some r ∧ id r = m ∧
    index m (tokens_by_priority rules) = Return i ∧
    ∀ j r', (j < i)%nat → rules !! j = Some r' → id r' ∉ final_ids.
Proof.
  intros Hlen Hsub.
  assert (Hne : final_ids ≠ []) by (destruct final_ids; simpl in Hlen; [lia|discriminate]).
  destruct (min_least (fun x => index x (tokens_by_priority rules)) final_ids Hne)
    as (m & i & Hmin & Hidx & Hin & Hleast).
  { intros x Hx. destruct (index_elem_of x (tokens_by_priority rules) (Hsub x Hx)) as [k Hk].
    exists k. exact Hk. }
  destruct (index_Return_lookup _ _ _ Hidx) as [Hlook _].
  unfold tokens_by_priority in Hlook. rewrite list_lookup_fmap in Hlook.
  destruct (rules !! i) as [r|] eqn:Hr; simpl in Hlook; [|discriminate].
  injection Hlook as Hid.
  exists m, i, r. unfold token, min_final_id. rewrite Hmin. simpl.
  repeat split; auto.
  intros j r' Hj Hr' Hmem.
  assert (Hj' : tokens_by_priority rules !! j = Some (id r')).
  { unfold tokens_by_priority. rewrite list_lookup_fmap, Hr'. reflexivity. }
  destruct (index_le_position _ _ _ Hj') as (k & Hk & Hkj).
  specialize (Hleast (id r') k Hmem Hk). lia.
Qed.

Lemma token_is_earliest_declared_rule_witness :
  ∃ m i r,
    min_final_id sample_rules ["IDENTIFIER"; "KEYWORD_IF"] = Return m ∧
    token sample_rules ["IDENTIFIER"; "KEYWORD_IF"] = Return (upper m) ∧
    m ∈ ["IDENTIFIER"; "KEYWORD_IF"] ∧
    sample_rules !! i = Some r ∧ id r = m ∧
    index m (tokens_by_priority sample_rules) = Return i ∧
    ∀ j r', (j < i)%nat → sample_rules !! j = Some r' →
            id r' ∉ ["IDENTIFIER"; "KEYWORD_IF"].
Proof.
  apply (token_is_earliest_declared_rule sample_rules ["IDENTIFIER"; "KEYWORD_IF"]).
  - simpl. lia.
  - intros x Hx. simpl.
    apply elem_of_cons in Hx as [->|Hx]; [do 2 right; left|].
    apply elem_of_cons in Hx as [->|Hx]; [left|]. inversion Hx.
Defined.

(** The order in which the set [final_ids] is iterated does not matter. *)
Lemma min_final_id_order_irrelevant (rules : list Rule) (l1 l2 : list string) :
  l1 ≠ [] → l1 ⊆ tokens_by_priority rules →
  l1 ⊆ l2 → l2 ⊆ l1 →
  min_final_id rules l1 = min_final_id rules l2.
Proof.
  intros Hne Hsub H12 H21.
  assert (Hne2 : l2 ≠ []).
  { destruct l1 as [|x l1]; [congruence|]. intros ->.
    assert (Hx : x ∈ x :: l1) by left. specialize (H12 x Hx). inversion H12. }
  assert (Hkeys : ∀ l, l ⊆ tokens_by_priority rules →
            ∀ x, x ∈ l → is_Return (index x (tokens_by_priority rules))).
  { intros l Hl x Hx. destruct (index_elem_of x _ (Hl x Hx)) as [k Hk]. by exists k. }
  destruct (min_least (fun x => index x (tokens_by_priority rules)) l1 Hne (Hkeys l1 Hsub))
    as (m1 & k1 & Hm1 & Hk1 & Hin1 & Hleast1).
  destruct (min_least (fun x => index x (tokens_by_priority rules)) l2 Hne2)
    as (m2 & k2 & Hm2 & Hk2 & Hin2 & Hleast2).
  { apply Hkeys. intros x Hx. apply Hsub, H21, Hx. }
  unfold min_final_id. rewrite Hm1, Hm2. f_equal.
  pose proof (Hleast1 m2 k2 (H21 _ Hin2) Hk2).
  pose proof (Hleast2 m1 k1 (H12 _ Hin1) Hk1).
  assert (k1 = k2) as -> by lia. by eapply index_inj.
Qed.

Example token_sample :
  token sample_rules ["IDENTIFIER"; "KEYWORD_IF"] = Return "KEYWORD_IF".
Proof. vm_compute. reflexivity. Qed.

Example final_case_sample :
  final_case sample_rules {[ "KEYWORD_IF" := "TOKEN_POODLE_KEYWORD_IF" ]}
    "poodle" "STATE_POODLE_INITIALSTATE" ["IDENTIFIER"; "KEYWORD_IF"]
  = Return [ "token.id = TOKEN_POODLE_KEYWORD_IF;"; "done = 1;" ].
Proof. vm_compute. reflexivity. Qed.

End CAsciiFacts.

Module LanguagePluginsFacts.
Import Py LanguagePlugins.

Lemma contains_dict key items :
  contains key (JDict items) = Return (bool_decide (is_Some (assoc key items))).
Proof. reflexivity. Qed.

(** Anything but an object at the top of the file makes [load] raise. *)
Lemma load_not_dict fs base pf :
  isinstance_dict pf = false → is_Raise (load fs base pf).
Proof.
  intros Hd. unfold load, is_Raise.
  destruct pf; try discriminate; simpl; try (eexists; reflexivity).
  - destruct (is_substring "Version" s); simpl; eexists; reflexivity.
  - destruct (existsb _ l); simpl; eexists; reflexivity.
Qed.

(** [load] on an object, as a chain of the checks it makes. *)
Lemma load_dict_inv fs base items lp d :
  load fs base (JDict items) = Return (lp, d) →
  recognized_version (JDict items) ∧
  declares_default (JDict items) d ∧
  loaded_plugins fs base (JDict items) lp ∧
  size lp ≠ 0%nat ∧ is_Some (lp !! d).
Proof.
  unfold load, recognized_version, declares_default, loaded_plugins.
  rewrite !contains_dict. simpl.
  destruct (assoc "Version" items) as [v|] eqn:Hv; simpl; [|discriminate].
  destruct (isinstance_int v) eqn:Hi; simpl; [|discriminate].
  destruct (differs_from_1 v) eqn:H1; simpl; [discriminate|].
  destruct (assoc "Default" items) as [dv|] eqn:Hdv; simpl; [|discriminate].
  destruct dv as [| | | |d'| |]; simpl; try discriminate.
  destruct (assoc "Plugins" items) as [pl|] eqn:Hpl; simpl; [|discriminate].
  destruct (isinstance_dict pl) eqn:Hpd; simpl; [|discriminate].
  destruct (visit_plugins fs base pl (keys pl) ∅) as [lp'|e] eqn:Hloop; simpl;
    [|discriminate].
  case_bool_decide as Hsz; [discriminate|].
  case_bool_decide as Hdef; simpl; [|discriminate].
  intros [= <- <-].
  repeat split; eauto.
Qed.

Lemma load_Return_inv fs base pf lp d :
  load fs base pf = Return (lp, d) →
  recognized_version pf ∧ declares_default pf d ∧
  loaded_plugins fs base pf lp ∧ size lp ≠ 0%nat ∧ is_Some (lp !! d).
Proof.
  intros H. destruct (isinstance_dict pf) eqn:Hd.
  - destruct pf; try discriminate. by apply load_dict_inv.
  - destruct (load_not_dict fs base pf Hd) as [e He]. congruence.
Qed.

Lemma not_Return_is_Raise {A} (r : result A) : (∀ a, r ≠ Return a) → is_Raise r.
Proof. destruct r as [a|e]; intros H; [destruct (H a eq_refl)|by exists e]. Qed.

(** No identifier of the form the loader asks for: no plug-in is kept. *)
Lemma visit_plugins_no_match fs base plugins ids lp :
  Forall (λ plugin_id, re_match_plugin_id plugin_id = None) ids →
  visit_plugins fs base plugins ids lp = Return lp.
Proof.
  induction 1 as [|plugin_id ids Hid _ IH]; simpl; [reflexivity|].
  unfold visit_plugin. rewrite Hid. simpl. exact IH.
Qed.

(** C10: when [load] returns, the dictionary of plug-ins is not empty and
    the default language is one of its keys; and [load] raises when the
    file does not declare the recognized version, when it names no default
    language, when the loop over the entries keeps no plug-in, and when the
    default language is not among the plug-ins kept. *)
Theorem load_contract (fs : FileSystem) (base_directory : string) (plugin_file : json) :
  (∀ language_plugins default_language,
     load fs base_directory plugin_file = Return (language_plugins, default_language) →
     language_plugins ≠ ∅ ∧ is_Some (language_plugins !! default_language)) ∧
  (¬ recognized_version plugin_file → is_Raise (load fs base_directory plugin_file)) ∧
  ((∀ d, ¬ declares_default plugin_file d) →
     is_Raise (load fs base_directory plugin_file)) ∧
  (loaded_plugins fs base_directory plugin_file ∅ →
     is_Raise (load fs base_directory plugin_file)) ∧
  (∀ language_plugins d,
     loaded_plugins fs base_directory plugin_file language_plugins →
     declares_default plugin_file d → language_plugins !! d = None →
     is_Raise (load fs base_directory plugin_file)).
Proof.
  split; [|split; [|split; [|split]]].
  - intros lp d H. apply load_Return_inv in H as (_ & _ & _ & Hsz & Hd).
    split; [|exact Hd]. intros ->. apply Hsz. apply map_size_empty.
  - intros Hv. apply not_Return_is_Raise. intros [lp d] H.
    apply load_Return_inv in H as (Hv' & _). contradiction.
  - intros Hn. apply not_Return_is_Raise. intros [lp d] H.
    apply load_Return_inv in H as (_ & Hd & _). exact (Hn d Hd).
  - intros (pl & Hpl & _ & Hloop). apply not_Return_is_Raise. intros [lp d] H.
    apply load_Return_inv in H as (_ & _ & (pl' & Hpl' & _ & Hloop') & Hsz & _).
    rewrite Hpl in Hpl'. injection Hpl' as <-. rewrite Hloop in Hloop'.
    injection Hloop' as <-. apply Hsz. apply map_size_empty.
  - intros lp0 d0 (pl & Hpl & _ & Hloop) Hd0 Hnone.
    apply not_Return_is_Raise. intros [lp d] H.
    apply load_Return_inv in H as (_ & Hd & (pl' & Hpl' & _ & Hloop') & _ & Hsome).
    rewrite Hpl in Hpl'. injection Hpl' as <-. rewrite Hloop in Hloop'.
    injection Hloop' as <-. unfold declares_default in *. rewrite Hd0 in Hd.
    injection Hd as <-. rewrite Hnone in Hsome. by destruct Hsome.
Qed.

Lemma load_contract_witness :
  ∃ lp d, load sample_fs "." sample_file = Return (lp, d) ∧
          lp ≠ ∅ ∧ is_Some (lp !! d).
Proof.
  eexists _, _. split.
  - vm_compute. reflexivity.
  - apply (proj1 (load_contract sample_fs "." sample_file)).
    vm_compute. reflexivity.
Defined.

Example load_sample_keys :
  (λ r, dom r.1) <$> load sample_fs "." sample_file = Return ({[ "c" ]} : gset string).
Proof. vm_compute. reflexivity. Qed.

(** [isinstance(True, int)] holds in Python: a version written [true] passes. *)
Example load_version_true :
  is_Return (load sample_fs "."
    (JDict [ ("Version", JBool true); ("Default", JString "c");
             ("Plugins", JDict [ ("c", JDict [ ("Source", JString "a");
                                               ("Files", JString "b") ]) ]) ])).
Proof. eexists. vm_compute. reflexivity. Qed.

Example load_version_2 :
  load sample_fs "." (JDict [ ("Version", JInt 2) ])
  = Raise (Exception "Language plug-in file version not recognized").
Proof. reflexivity. Qed.

End LanguagePluginsFacts.

Module NonDeterministicIRFacts.
Import Py PyFacts NonDeterministicIR Samples.

Section Facts.
Context `{C : Collaborators}.

(** ** The heap of rule objects only gains patterns *)

Lemma heap_extends_refl h : heap_extends h h.
Proof. intros a. auto. Qed.

Lemma heap_extends_trans h1 h2 h3 :
  heap_extends h1 h2 → heap_extends h2 h3 → heap_extends h1 h3.
Proof.
  intros H12 H23 a.
  destruct (H12 a) as (Hi & Hr & Hs & Hl & Hp).
  destruct (H23 a) as (Hi' & Hr' & Hs' & Hl' & Hp').
  repeat split; [congruence..|]. intros p Hpa. apply Hp', Hp, Hpa.
Qed.

Lemma heap_extends_assign h a p :
  Ast.pattern (h a) = None →
  heap_extends h (<[a := Ast.set_pattern (Some p) (h a)]> h).
Proof.
  intros Hnone b. destruct (decide (a = b)) as [<-|Hne].
  - rewrite fn_lookup_insert. simpl. repeat split. intros q Hq. congruence.
  - rewrite fn_lookup_insert_ne by exact Hne. auto.
Qed.

Lemma resolve_imports_app section l1 l2 h :
  resolve_imports section (l1 ++ l2) h =
  match resolve_imports section l1 h with
  | (h1, Return _) => resolve_imports section l2 h1
  | (h1, Raise e) => (h1, Raise e)
  end.
Proof.
  revert h. induction l1 as [|[i a] l1 IH]; intros h; simpl; [reflexivity|].
  destruct (find_reservation section (Ast.id (h a))) as [ra|]; [|reflexivity].
  destruct (Ast.pattern (h a)); [apply IH|].
  destruct (Ast.pattern (h ra)); [apply IH|reflexivity].
Qed.

Lemma resolve_imports_extends section l h h' r :
  resolve_imports section l h = (h', r) → heap_extends h h'.
Proof.
  revert h. induction l as [|[i a] l IH]; intros h H; simpl in H.
  - injection H as <- _. apply heap_extends_refl.
  - destruct (find_reservation section (Ast.id (h a))) as [ra|];
      [|injection H as <- _; apply heap_extends_refl].
    destruct (Ast.pattern (h a)) eqn:Hpa; [by apply IH|].
    destruct (Ast.pattern (h ra)) as [p|] eqn:Hpr;
      [|injection H as <- _; apply heap_extends_refl].
    eapply heap_extends_trans; [apply (heap_extends_assign h a p Hpa)|by apply IH].
Qed.

Lemma visit_section_heap section b h :
  (visit_section section b h).1 =
  (resolve_imports section (Ast.future_import (Ast.tree section)) h).1.
Proof.
  unfold visit_section.
  destruct (resolve_imports section _ h) as [h' [u|e]]; reflexivity.
Qed.

Lemma visit_section_Raise section b h h' e :
  resolve_imports section (Ast.future_import (Ast.tree section)) h = (h', Raise e) →
  visit_section section b h = (h', Raise e).
Proof. intros H. unfold visit_section. rewrite H. reflexivity. Qed.

(** C2: when the loop of [visit_section] reaches an imported rule (the
    imports before it were resolved, leaving the heap [h1]): without a
    reservation of its identifier the visit fails; with a reservation, and
    neither the rule nor the reservation having a pattern, it fails with the
    unresolved-pattern message; with a reservation that has a pattern and no
    pattern of its own, the rule's pattern is the reservation's from then
    on; a rule with a pattern of its own keeps it. *)
Theorem visit_section_resolves_imports
    (section : Ast.SectionNode) (b : Builder) (h h1 : Ast.Heap)
    (pre post : list (option string * nat)) (i : option string) (a : nat) :
  Ast.future_import (Ast.tree section) = pre ++ (i, a) :: post →
  resolve_imports section pre h = (h1, Return tt) →
  (find_reservation section (Ast.id (h1 a)) = None →
     visit_section section b h =
       (h1, Raise (Thrown (Ast.line_number (h1 a)) reservation_not_found_message))) ∧
  (∀ ra, find_reservation section (Ast.id (h1 a)) = Some ra →
     Ast.pattern (h1 a) = None → Ast.pattern (h1 ra) = None →
     visit_section section b h =
       (h1, Raise (Thrown (Ast.line_number (h1 a)) unresolved_pattern_message))) ∧
  (∀ ra p, find_reservation section (Ast.id (h1 a)) = Some ra →
     Ast.pattern (h1 a) = None → Ast.pattern (h1 ra) = Some p →
     Ast.pattern ((visit_section section b h).1 a) = Some p) ∧
  (∀ ra p, find_reservation section (Ast.id (h1 a)) = Some ra →
     Ast.pattern (h1 a) = Some p →
     Ast.pattern ((visit_section section b h).1 a) = Some p).
Proof.
  intros Himp Hpre.
  assert (Hloop : resolve_imports section (Ast.future_import (Ast.tree section)) h
                  = resolve_imports section ((i, a) :: post) h1).
  { rewrite Himp, resolve_imports_app, Hpre. reflexivity. }
  repeat split.
  - intros Hfind. apply visit_section_Raise. rewrite Hloop. simpl.
    rewrite Hfind. reflexivity.
  - intros ra Hfind Hpa Hpr. apply visit_section_Raise. rewrite Hloop. simpl.
    rewrite Hfind, Hpa, Hpr. reflexivity.
  - intros ra p Hfind Hpa Hpr. rewrite visit_section_heap, Hloop. simpl.
    rewrite Hfind, Hpa, Hpr.
    destruct (resolve_imports section post _) as [h' r] eqn:Hrest.
    apply resolve_imports_extends in Hrest. simpl.
    apply (Hrest a). rewrite fn_lookup_insert. reflexivity.
  - intros ra p Hfind Hpa. rewrite visit_section_heap, Hloop. simpl.
    rewrite Hfind, Hpa.
    destruct (resolve_imports section post h1) as [h' r] eqn:Hrest.
    apply resolve_imports_extends in Hrest. simpl. apply (Hrest a), Hpa.
Qed.

(** ** One call of [visit_rule] *)

Lemma compile_rule_reserve rule b :
  Some "reserve" ∈ Ast.rule_action rule → compile_rule rule b = Return b.
Proof. intros H. unfold compile_rule. rewrite bool_decide_eq_true_2 by exact H. reflexivity. Qed.

(** What a successful [try] block has done for a rule that is no reservation. *)
Lemma compile_rule_Return_inv rule b b' :
  Some "reserve" ∉ Ast.rule_action rule →
  compile_rule rule b = Return b' →
  ∃ o p regex nfa sa,
    current_ir_section b = Some o ∧
    Ast.pattern rule = Some p ∧
    Regex_Parser_parse (Ast.regex p) (Ast.is_case_insensitive p) = Return regex ∧
    NonDeterministicFiniteBuilder_build (lower <$> Ast.id rule)
      (define_lookup (current_ast_section b)) regex = Return nfa ∧
    resolve_section_action (current_ast_section b) (Ast.section_action rule) = Return sa ∧
    b' = {| current_ast_section := current_ast_section b;
            current_ir_section := current_ir_section b;
            sections := sections b;
            rule_ids := record_rule_id (Ast.id rule) (rule_ids b);
            objects := alter (append_rule
                         {| id := Ast.id rule; nfa := nfa;
                            action := map (fmap lower) (Ast.rule_action rule);
                            section_action := sa;
                            line_number := Ast.line_number rule |}) o (objects b);
            next := next b |}.
Proof.
  intros Hres H. unfold compile_rule in H.
  rewrite bool_decide_eq_false_2 in H by exact Hres.
  destruct (Ast.pattern rule) as [p|]; simpl in H; [|discriminate].
  destruct (Regex_Parser_parse _ _) as [regex|] eqn:Hparse; simpl in H; [|discriminate].
  destruct (NonDeterministicFiniteBuilder_build _ _ _) as [nfa|] eqn:Hbuild;
    simpl in H; [|discriminate].
  destruct (resolve_section_action _ _) as [sa|] eqn:Hsa; simpl in H; [|discriminate].
  destruct (current_ir_section b) as [o|] eqn:Ho; [|discriminate].
  injection H as <-. exists o, p, regex, nfa, sa. auto 10.
Qed.

Lemma visit_rule_Return a b h b' :
  visit_rule a b h = Return b' ↔ compile_rule (h a) b = Return b'.
Proof.
  unfold visit_rule. destruct (compile_rule (h a) b); split; congruence.
Qed.

Lemma visit_rule_Raise a b h e :
  compile_rule (h a) b = Raise e →
  visit_rule a b h =
    Raise (Thrown (Ast.line_number (h a)) (rule_failure_message (Ast.id (h a)) e)).
Proof. intros H. unfold visit_rule. rewrite H. reflexivity. Qed.

(** C4: visiting a rule marked [reserve] returns with the builder as it was
    (whatever its pattern: neither the parser nor the NFA builder is asked);
    a successful visit of any other rule has parsed its pattern, built its
    NFA, resolved its section action, and appended exactly one IR Rule, made
    of the identifier, that NFA, the lower-cased action, the resolved section
    action and the line number, at the end of the current section's list,
    leaving every other section object and the section table alone. *)
Theorem visit_rule_appends_one_rule (a : nat) (b : Builder) (h : Ast.Heap) :
  (Some "reserve" ∈ Ast.rule_action (h a) → visit_rule a b h = Return b) ∧
  (Some "reserve" ∉ Ast.rule_action (h a) →
   ∀ b', visit_rule a b h = Return b' →
   ∃ o p regex nfa sa,
     current_ir_section b = Some o ∧
     Ast.pattern (h a) = Some p ∧
     Regex_Parser_parse (Ast.regex p) (Ast.is_case_insensitive p) = Return regex ∧
     NonDeterministicFiniteBuilder_build (lower <$> Ast.id (h a))
       (define_lookup (current_ast_section b)) regex = Return nfa ∧
     resolve_section_action (current_ast_section b) (Ast.section_action (h a)) = Return sa ∧
     rules (objects b' o) =
       rules (objects b o) ++
       [ {| id := Ast.id (h a); nfa := nfa;
            action := map (fmap lower) (Ast.rule_action (h a));
            section_action := sa;
            line_number := Ast.line_number (h a) |} ] ∧
     inherits (objects b' o) = inherits (objects b o) ∧
     parent (objects b' o) = parent (objects b o) ∧
     (∀ o', o' ≠ o → objects b' o' = objects b o') ∧
     sections b' = sections b ∧
     current_ir_section b' = Some o ∧
     current_ast_section b' = current_ast_section b).
Proof.
  split.
  - intros Hres. apply visit_rule_Return. by apply compile_rule_reserve.
  - intros Hres b' Hv. apply visit_rule_Return in Hv.
    destruct (compile_rule_Return_inv _ _ _ Hres Hv)
      as (o & p & regex & nfa & sa & Ho & Hp & Hparse & Hbuild & Hsa & ->).
    exists o, p, regex, nfa, sa. simpl.
    rewrite fn_lookup_alter. simpl. repeat split; auto.
    intros o' Hne. apply fn_lookup_alter_ne. congruence.
Qed.

(** C5, as the builder has it: the identifiers recorded so far never make a
    visit fail.  Whatever [rule_ids] holds, [visit_rule] raises the same
    failure or succeeds alike, and on success appends the same rule; the
    test on [rule_ids] only decides whether the identifier is recorded. *)
Theorem visit_rule_never_rejects_identifier
    (a : nat) (b : Builder) (h : Ast.Heap) (ids : gmap string string) :
  match visit_rule a b h, visit_rule a (with_rule_ids ids b) h with
  | Return b1, Return b2 =>
      objects b1 = objects b2 ∧ sections b1 = sections b2 ∧
      current_ir_section b1 = current_ir_section b2 ∧
      current_ast_section b1 = current_ast_section b2 ∧
      next b1 = next b2
  | Raise e1, Raise e2 => e1 = e2
  | _, _ => False
  end.
Proof.
  unfold visit_rule, compile_rule. simpl.
  case_bool_decide; [simpl; auto|].
  destruct (Ast.pattern (h a)) as [p|]; simpl; [|reflexivity].
  destruct (Regex_Parser_parse _ _) as [regex|]; simpl; [|reflexivity].
  destruct (NonDeterministicFiniteBuilder_build _ _ _) as [nfa|]; simpl; [|reflexivity].
  destruct (resolve_section_action _ _) as [sa|]; simpl; [|reflexivity].
  destruct (current_ir_section b); simpl; auto.
Qed.

(** ** Sequences of calls *)

Lemma run_app pre post b h :
  run (pre ++ post) b h =
  match run pre b h with
  | (h1, Return b1) => run post b1 h1
  | (h1, Raise e) => (h1, Raise e)
  end.
Proof.
  revert b h. induction pre as [|ev pre IH]; intros b h; simpl; [reflexivity|].
  destruct (step ev b h) as [h1 [b1|e]]; [apply IH|reflexivity].
Qed.

Lemma step_extends ev b h h' r : step ev b h = (h', r) → heap_extends h h'.
Proof.
  destruct ev as [section|a|section]; simpl; intros H.
  - pose proof (visit_section_heap section b h) as Hh. rewrite H in Hh. simpl in Hh.
    destruct (resolve_imports section _ h) as [h1 r1] eqn:Hr. simpl in Hh. subst h1.
    by eapply resolve_imports_extends.
  - injection H as <- _. apply heap_extends_refl.
  - injection H as <- _. apply heap_extends_refl.
Qed.

Lemma run_extends evs b h h' r : run evs b h = (h', r) → heap_extends h h'.
Proof.
  revert b h. induction evs as [|ev evs IH]; intros b h H; simpl in H.
  - injection H as <- _. apply heap_extends_refl.
  - destruct (step ev b h) as [h1 [b1|e]] eqn:Hs.
    + eapply heap_extends_trans; [by eapply step_extends|by eapply IH].
    + injection H as <- _. by eapply step_extends.
Qed.

(** A call that raises ends the run: the calls after it are not made. *)
Lemma run_aborts pre ev post b h h1 b1 h2 e :
  run pre b h = (h1, Return b1) →
  step ev b1 h1 = (h2, Raise e) →
  run (pre ++ ev :: post) b h = (h2, Raise e).
Proof. intros Hpre Hs. rewrite run_app, Hpre. simpl. rewrite Hs. reflexivity. Qed.

Lemma init_Raise root h h' e :
  run (accept (Ast.parents root) (Ast.tree root)) new_builder h = (h', Raise e) →
  init root h = (h', Raise e).
Proof. intros H. unfold init. rewrite H. reflexivity. Qed.

(** C6: when the traversal reaches a rule whose compilation raises [e]
    (the calls before it succeeded), the constructor ends with one failure,
    raised by that rule's [throw]: it carries the rule's line, its message
    is the rule's identifier, or the word anonymous for a rule without one,
    followed by the text of [e]; no IR comes back, the calls after the rule
    are not made. *)
Theorem failing_rule_aborts_build
    (root : Ast.SectionNode) (h h1 : Ast.Heap) (pre post : list Event)
    (a : nat) (b1 : Builder) (e : exn) :
  accept (Ast.parents root) (Ast.tree root) = pre ++ VisitRule a :: post →
  run pre new_builder h = (h1, Return b1) →
  compile_rule (h1 a) b1 = Raise e →
  ∃ message,
    init root h = (h1, Raise (Thrown (Ast.line_number (h1 a)) message)) ∧
    (Ast.id (h1 a) = None → message = "anonymous rule: " +:+ str e) ∧
    (∀ i, Ast.id (h1 a) = Some i → message = "rule '" +:+ i +:+ "': " +:+ str e) ∧
    Ast.id (h1 a) = Ast.id (h a) ∧ Ast.line_number (h1 a) = Ast.line_number (h a).
Proof.
  intros Hacc Hpre He.
  exists (rule_failure_message (Ast.id (h1 a)) e). split; [|split; [|split]].
  - apply init_Raise. rewrite Hacc, run_app, Hpre. simpl.
    rewrite (visit_rule_Raise _ _ _ _ He). reflexivity.
  - intros ->. reflexivity.
  - intros i ->. reflexivity.
  - apply run_extends in Hpre. destruct (Hpre a) as (Hi & _ & _ & Hl & _). auto.
Qed.

(** The three failures named by the specification do make the [try] block
    raise. *)
Lemma compile_rule_unparsable rule b p e :
  Some "reserve" ∉ Ast.rule_action rule →
  Ast.pattern rule = Some p →
  Regex_Parser_parse (Ast.regex p) (Ast.is_case_insensitive p) = Raise e →
  compile_rule rule b = Raise e.
Proof.
  intros Hres Hp He. unfold compile_rule.
  rewrite bool_decide_eq_false_2 by exact Hres. rewrite Hp. simpl. rewrite He. reflexivity.
Qed.

Lemma define_lookup_unresolved section item_name :
  find_define section item_name = None →
  getitem (define_lookup (Some section)) item_name
  = Raise (Exception ("variable '" +:+ item_name +:+ "' not found")).
Proof. intros H. simpl. rewrite H. reflexivity. Qed.


(** ** Section actions *)



(** ** Where the unresolved-pattern failure comes from *)

Lemma resolve_imports_unresolved section l h h' ln :
  resolve_imports section l h = (h', Raise (Thrown ln unresolved_pattern_message)) →
  ∃ i a ra, (i, a) ∈ l ∧ ln = Ast.line_number (h a) ∧
            find_reservation section (Ast.id (h a)) = Some ra ∧
            Ast.pattern (h' a) = None ∧ Ast.pattern (h' ra) = None.
Proof.
  revert h. induction l as [|[i a] l IH]; intros h H; simpl in H; [discriminate|].
  assert (Hstep : ∀ h1, heap_extends h h1 →
            resolve_imports section l h1 = (h', Raise (Thrown ln unresolved_pattern_message)) →
            ∃ i' a' ra, (i', a') ∈ (i, a) :: l ∧ ln = Ast.line_number (h a') ∧
              find_reservation section (Ast.id (h a')) = Some ra ∧
              Ast.pattern (h' a') = None ∧ Ast.pattern (h' ra) = None).
  { intros h1 Hext Hrest. destruct (IH h1 Hrest) as (i' & a' & ra & Hin & Hl & Hf & Hp).
    destruct (Hext a') as (Hid & _ & _ & Hln & _).
    exists i', a', ra. rewrite <- Hid, <- Hln. split; [by right|auto]. }
  destruct (find_reservation section (Ast.id (h a))) as [ra|] eqn:Hfind.
  - destruct (Ast.pattern (h a)) eqn:Hpa.
    + apply (Hstep h); [apply heap_extends_refl|exact H].
    + destruct (Ast.pattern (h ra)) as [p|] eqn:Hpr.
      * eapply Hstep; [|exact H]. by apply heap_extends_assign.
      * injection H as <- <-. exists i, a, ra. split; [by left|auto].
  - injection H as _ _ Hm. discriminate Hm.
Qed.

Lemma rule_failure_message_not_unresolved i e :
  rule_failure_message i e ≠ unresolved_pattern_message.
Proof. destruct i; discriminate. Qed.

Lemma run_unresolved evs b h h' ln :
  run evs b h = (h', Raise (Thrown ln unresolved_pattern_message)) →
  ∃ section i a ra,
    VisitSection section ∈ evs ∧ (i, a) ∈ Ast.future_import (Ast.tree section) ∧
    ln = Ast.line_number (h a) ∧
    find_reservation section (Ast.id (h a)) = Some ra ∧
    Ast.pattern (h' a) = None ∧ Ast.pattern (h' ra) = None.
Proof.
  revert b h. induction evs as [|ev evs IH]; intros b h H; simpl in H; [discriminate|].
  destruct (step ev b h) as [h1 [b1|e]] eqn:Hs.
  - pose proof (step_extends _ _ _ _ _ Hs) as Hext.
    destruct (IH _ _ H) as (section & i & a & ra & Hin & Himp & Hl & Hf & Hp).
    destruct (Hext a) as (Hid & _ & _ & Hln & _).
    exists section, i, a, ra. rewrite <- Hid, <- Hln. split; [by right|auto].
  - injection H as Hh He. subst h1 e. destruct ev as [section|a|section]; simpl in Hs.
    + unfold visit_section in Hs.
      destruct (resolve_imports section _ h) as [h2 [u|e]] eqn:Hr; [discriminate|].
      injection Hs as Hh He. subst h2 e.
      destruct (resolve_imports_unresolved _ _ _ _ _ Hr) as (i & a & ra & Hin & Hrest).
      exists section, i, a, ra. split; [by left|auto].
    + injection Hs as _ Hv. unfold visit_rule in Hv.
      destruct (compile_rule (h a) b); [discriminate|].
      injection Hv as _ Hm. by apply rule_failure_message_not_unresolved in Hm.
    + injection Hs as _ Hv. unfold leave_section in Hv.
      destruct (Ast.parent section); [|discriminate].
      destruct (sections b !! _); discriminate.
Qed.

(** ** An import that nothing can resolve *)

(** While neither [a] nor [ra] has a pattern, [ra] is not imported and [a]
    has no reservation but [ra], the loop leaves both without a pattern,
    and it raises if [a] is among the imports. *)
Lemma resolve_imports_stuck section a ra l : ∀ h h' r,
  Ast.pattern (h a) = None → Ast.pattern (h ra) = None →
  (∀ i' x, (i', x) ∈ l → x ≠ ra) →
  (∀ i' r', (i', a) ∈ l →
     find_reservation section (Ast.id (h a)) = Some r' → r' = ra) →
  resolve_imports section l h = (h', r) →
  Ast.pattern (h' a) = None ∧ Ast.pattern (h' ra) = None ∧
  (∀ i', (i', a) ∈ l → is_Raise r).
Proof.
  induction l as [|[j x] l IH]; intros h h' r Hpa Hpr Hne Hres H; simpl in H.
  - injection H as <- <-. repeat split; auto.
    intros i' Hin. by apply elem_of_nil in Hin.
  - assert (Hx : x ≠ ra) by (apply (Hne j); left).
    assert (Hne' : ∀ i' y, (i', y) ∈ l → y ≠ ra).
    { intros i' y Hin. apply (Hne i'). by right. }
    destruct (find_reservation section (Ast.id (h x))) as [rx|] eqn:Hfind;
      [|injection H as <- <-; repeat split; auto; intros; by eexists].
    destruct (Ast.pattern (h x)) as [px|] eqn:Hpx.
    + assert (Hxa : x ≠ a) by (intros ->; congruence).
      destruct (IH h h' r Hpa Hpr Hne') as (H1 & H2 & H3); [|exact H|].
      { intros i' r' Hin. apply (Hres i'). by right. }
      repeat split; auto. intros i' Hin.
      apply elem_of_cons in Hin as [Heq|Hin]; [congruence|eauto].
    + destruct (Ast.pattern (h rx)) as [p|] eqn:Hprx;
        [|injection H as <- <-; repeat split; auto; intros; by eexists].
      assert (Hxa : x ≠ a).
      { intros ->. assert (rx = ra) by (apply (Hres j); [left|exact Hfind]).
        congruence. }
      destruct (IH (<[x := Ast.set_pattern (Some p) (h x)]> h) h' r)
        with (5 := H) as (H1 & H2 & H3).
      * rewrite fn_lookup_insert_ne by exact Hxa. exact Hpa.
      * rewrite fn_lookup_insert_ne by exact Hx. exact Hpr.
      * exact Hne'.
      * intros i' r' Hin. rewrite fn_lookup_insert_ne by exact Hxa.
        apply (Hres i'). by right.
      * repeat split; auto. intros i' Hin.
        apply elem_of_cons in Hin as [Heq|Hin]; [congruence|eauto].
Qed.

Lemma run_stuck a ra evs : ∀ b h h' r,
  Ast.pattern (h a) = None → Ast.pattern (h ra) = None →
  (∀ s i' x, VisitSection s ∈ evs →
     (i', x) ∈ Ast.future_import (Ast.tree s) → x ≠ ra) →
  (∀ s i' r', VisitSection s ∈ evs →
     (i', a) ∈ Ast.future_import (Ast.tree s) →
     find_reservation s (Ast.id (h a)) = Some r' → r' = ra) →
  run evs b h = (h', r) →
  Ast.pattern (h' a) = None ∧ Ast.pattern (h' ra) = None ∧
  (∀ s i', VisitSection s ∈ evs →
     (i', a) ∈ Ast.future_import (Ast.tree s) → is_Raise r).
Proof.
  induction evs as [|ev evs IH]; intros b h h' r Hpa Hpr Hne Hres H; simpl in H.
  - injection H as <- <-. repeat split; auto.
    intros s i' Hin. by apply elem_of_nil in Hin.
  - destruct (step ev b h) as [h1 rs] eqn:Hs.
    assert (Hstep : Ast.pattern (h1 a) = None ∧ Ast.pattern (h1 ra) = None ∧
              ∀ s i', ev = VisitSection s →
                (i', a) ∈ Ast.future_import (Ast.tree s) → is_Raise rs).
    { destruct ev as [s|x|s]; simpl in Hs.
      - unfold visit_section in Hs.
        destruct (resolve_imports s _ h) as [g u] eqn:Hr.
        destruct (resolve_imports_stuck s a ra (Ast.future_import (Ast.tree s))
                    h g u Hpa Hpr) as (H1 & H2 & H3);
          [| |exact Hr|].
        + intros i' x. apply Hne. left.
        + intros i' r'. apply Hres. left.
        + assert (g = h1) as <- by (destruct u; by injection Hs as <- _).
          repeat split; auto. intros s' i' Heq Hin. injection Heq as <-.
          destruct (H3 i' Hin) as [e ->]. injection Hs as <-. by eexists.
      - injection Hs as <- _. repeat split; auto. discriminate.
      - injection Hs as <- _. repeat split; auto. discriminate. }
    destruct Hstep as (Hpa1 & Hpr1 & Hraise).
    destruct rs as [b1|e].
    + pose proof (step_extends _ _ _ _ _ Hs a) as (Hid & _).
      destruct (IH b1 h1 h' r Hpa1 Hpr1) as (H1 & H2 & H3); [| |exact H|].
      * intros s i' x Hin. apply Hne. by right.
      * intros s i' r' Hin. rewrite Hid. apply Hres. by right.
      * repeat split; auto. intros s i' Hin Himp.
        apply elem_of_cons in Hin as [Heq|Hin]; [|eauto].
        destruct (Hraise s i' (eq_sym Heq) Himp) as [e He]. discriminate He.
    + injection H as <- <-. repeat split; auto. intros. by eexists.
Qed.

(** ** A reservation that no rule imports *)

(** Two heaps that differ in the rule [r0] at most, which no import is and
    no import finds as its reservation: the loop does the same on both. *)
Lemma resolve_imports_ignores section r0 l : ∀ h1 h2 h1' r,
  (∀ x, x ≠ r0 → h2 x = h1 x) →
  (∀ i a, (i, a) ∈ l →
     a ≠ r0 ∧ find_reservation section (Ast.id (h1 a)) ≠ Some r0) →
  resolve_imports section l h1 = (h1', r) →
  ∃ h2', resolve_imports section l h2 = (h2', r) ∧ ∀ x, x ≠ r0 → h2' x = h1' x.
Proof.
  induction l as [|[j a] l IH]; intros h1 h2 h1' r Hag Himp H; simpl in H |- *.
  - injection H as <- <-. eauto.
  - destruct (Himp j a) as [Ha Hfr]; [by left|].
    rewrite (Hag a Ha).
    destruct (find_reservation section (Ast.id (h1 a))) as [ra|] eqn:Hfind;
      [|injection H as <- <-; eauto].
    assert (Hra : ra ≠ r0) by congruence.
    rewrite (Hag ra Hra).
    destruct (Ast.pattern (h1 a)) eqn:Hpa.
    + apply (IH h1 h2); auto. intros i' a' Hin. apply (Himp i'). by right.
    + destruct (Ast.pattern (h1 ra)) as [p|] eqn:Hpr;
        [|injection H as <- <-; eauto].
      eapply IH; [| |exact H].
      * intros x Hx. destruct (decide (a = x)) as [<-|Hax].
        -- by rewrite !fn_lookup_insert.
        -- rewrite !fn_lookup_insert_ne by exact Hax. by apply Hag.
      * intros i' a' Hin. destruct (Himp i' a') as [Ha' Hf']; [by right|].
        split; [exact Ha'|].
        destruct (decide (a = a')) as [<-|Hne].
        -- rewrite fn_lookup_insert. exact Hf'.
        -- rewrite fn_lookup_insert_ne by exact Hne. exact Hf'.
Qed.

Lemma step_ignores r0 ev b h1 h2 h1' r :
  (∀ x, x ≠ r0 → h2 x = h1 x) →
  Some "reserve" ∈ Ast.rule_action (h1 r0) →
  Some "reserve" ∈ Ast.rule_action (h2 r0) →
  (∀ section i a, ev = VisitSection section →
     (i, a) ∈ Ast.future_import (Ast.tree section) →
     a ≠ r0 ∧ find_reservation section (Ast.id (h1 a)) ≠ Some r0) →
  step ev b h1 = (h1', r) →
  ∃ h2', step ev b h2 = (h2', r) ∧ ∀ x, x ≠ r0 → h2' x = h1' x.
Proof.
  intros Hag Hr1 Hr2 Himp H. destruct ev as [section|a|section]; simpl in H |- *.
  - unfold visit_section in *.
    destruct (resolve_imports section _ h1) as [g1 u1] eqn:Hres.
    destruct (resolve_imports_ignores section r0 (Ast.future_import (Ast.tree section))
                h1 h2 g1 u1 Hag)
      as (g2 & Hres2 & Hag2); [|exact Hres|].
    { intros i a. by apply Himp. }
    rewrite Hres2. exists g2.
    destruct u1; injection H as <- <-; (split; [reflexivity|exact Hag2]).
  - injection H as <- <-. exists h2. split; [|exact Hag]. f_equal.
    unfold visit_rule. destruct (decide (a = r0)) as [->|Hne].
    + rewrite !compile_rule_reserve by assumption. reflexivity.
    + rewrite (Hag a Hne). reflexivity.
  - injection H as <- <-. eauto.
Qed.

Lemma run_ignores r0 evs : ∀ b h1 h2 h1' r,
  (∀ x, x ≠ r0 → h2 x = h1 x) →
  Some "reserve" ∈ Ast.rule_action (h1 r0) →
  Some "reserve" ∈ Ast.rule_action (h2 r0) →
  (∀ section i a, VisitSection section ∈ evs →
     (i, a) ∈ Ast.future_import (Ast.tree section) →
     a ≠ r0 ∧ find_reservation section (Ast.id (h1 a)) ≠ Some r0) →
  run evs b h1 = (h1', r) →
  ∃ h2', run evs b h2 = (h2', r).
Proof.
  induction evs as [|ev evs IH]; intros b h1 h2 h1' r Hag Hr1 Hr2 Himp H;
    simpl in H |- *.
  - injection H as <- <-. eauto.
  - destruct (step ev b h1) as [g1 rs] eqn:Hs.
    destruct (step_ignores r0 ev b h1 h2 g1 rs Hag Hr1 Hr2) as (g2 & Hs2 & Hag2);
      [|exact Hs|].
    { intros section i a ->. apply Himp. left. }
    rewrite Hs2. destruct rs as [b1|e]; [|injection H as <- <-; eauto].
    pose proof (step_extends _ _ _ _ _ Hs) as Hext1.
    pose proof (step_extends _ _ _ _ _ Hs2) as Hext2.
    apply (IH b1 g1 g2 h1' r Hag2); [| | |exact H].
    + destruct (Hext1 r0) as (_ & -> & _). exact Hr1.
    + destruct (Hext2 r0) as (_ & -> & _). exact Hr2.
    + intros section i a Hin. destruct (Hext1 a) as (-> & _). apply Himp. by right.
Qed.

(** C3, as the builder has it: the unresolved-pattern failure is raised on
    behalf of an importing rule, and only so.
    (1) When the build reaches an imported rule that has no pattern and whose
    reservation has none either (the calls and the imports before it
    succeeded), the constructor fails with the unresolved-pattern message
    and the line of the importing rule; no IR comes back.
    (2) If a visited section imports a rule [a] without a pattern whose
    reservation [ra] has none, [ra] is not itself an imported rule and [a]
    finds no other reservation where it is imported, then nothing supplies
    a pattern and the constructor fails.
    (3) If the constructor fails with the unresolved-pattern message, some
    visited section has an imported rule without a pattern whose reservation
    has none either, and the failure carries the line of the importing rule.
    (4) A reservation that no rule imports is not looked at: whether it has
    a pattern or not, the constructor ends in the same way, with the same IR
    or the same failure. *)
Theorem unresolved_import_fails_build (root : Ast.SectionNode) (h : Ast.Heap) :
  (∀ pre section post b1 h1 ipre i a ipost h2 ra,
     accept (Ast.parents root) (Ast.tree root) = pre ++ VisitSection section :: post →
     run pre new_builder h = (h1, Return b1) →
     Ast.future_import (Ast.tree section) = ipre ++ (i, a) :: ipost →
     resolve_imports section ipre h1 = (h2, Return tt) →
     find_reservation section (Ast.id (h2 a)) = Some ra →
     Ast.pattern (h2 a) = None → Ast.pattern (h2 ra) = None →
     init root h =
       (h2, Raise (Thrown (Ast.line_number (h2 a)) unresolved_pattern_message)) ∧
     Ast.id (h2 a) = Ast.id (h a) ∧ Ast.line_number (h2 a) = Ast.line_number (h a)) ∧
  (∀ section i a ra,
     VisitSection section ∈ accept (Ast.parents root) (Ast.tree root) →
     (i, a) ∈ Ast.future_import (Ast.tree section) →
     find_reservation section (Ast.id (h a)) = Some ra →
     Ast.pattern (h a) = None → Ast.pattern (h ra) = None →
     (∀ s i' x, VisitSection s ∈ accept (Ast.parents root) (Ast.tree root) →
        (i', x) ∈ Ast.future_import (Ast.tree s) → x ≠ ra) →
     (∀ s i' r', VisitSection s ∈ accept (Ast.parents root) (Ast.tree root) →
        (i', a) ∈ Ast.future_import (Ast.tree s) →
        find_reservation s (Ast.id (h a)) = Some r' → r' = ra) →
     ∃ h' e, init root h = (h', Raise e) ∧
             Ast.pattern (h' a) = None ∧ Ast.pattern (h' ra) = None) ∧
  (∀ h' ln,
     init root h = (h', Raise (Thrown ln unresolved_pattern_message)) →
     ∃ section i a ra,
       VisitSection section ∈ accept (Ast.parents root) (Ast.tree root) ∧
       (i, a) ∈ Ast.future_import (Ast.tree section) ∧
       ln = Ast.line_number (h a) ∧
       find_reservation section (Ast.id (h a)) = Some ra ∧
       Ast.pattern (h a) = None ∧ Ast.pattern (h ra) = None ∧
       Ast.pattern (h' a) = None ∧ Ast.pattern (h' ra) = None) ∧
  (∀ r0 p,
     Some "reserve" ∈ Ast.rule_action (h r0) →
     (∀ s i a, VisitSection s ∈ accept (Ast.parents root) (Ast.tree root) →
        (i, a) ∈ Ast.future_import (Ast.tree s) →
        a ≠ r0 ∧ find_reservation s (Ast.id (h a)) ≠ Some r0) →
     (init root (<[r0 := Ast.set_pattern p (h r0)]> h)).2 = (init root h).2).
Proof.
  split; [|split; [|split]].
  - intros pre section post b1 h1 ipre i a ipost h2 ra Hacc Hpre Himp Hipre Hfind Hpa Hpr.
    split.
    + apply init_Raise. rewrite Hacc, run_app, Hpre. simpl.
      erewrite visit_section_Raise; [reflexivity|].
      rewrite Himp, resolve_imports_app, Hipre. simpl.
      rewrite Hfind, Hpa, Hpr. reflexivity.
    + apply run_extends in Hpre. apply resolve_imports_extends in Hipre.
      destruct (Hpre a) as (Hi & _ & _ & Hl & _).
      destruct (Hipre a) as (Hi' & _ & _ & Hl' & _). split; congruence.
  - intros section i a ra Hin Himp Hfind Hpa Hpr Hne Hres.
    unfold init.
    destruct (run _ new_builder h) as [h1 r] eqn:Hrun.
    destruct (run_stuck a ra _ _ _ _ _ Hpa Hpr Hne Hres Hrun) as (H1 & H2 & H3).
    destruct (H3 section i Hin Himp) as [e ->]. eauto.
  - intros h' ln H. unfold init in H.
    destruct (run _ new_builder h) as [h1 [b|e]] eqn:Hrun; [discriminate|].
    injection H as Hh He. subst h1 e.
    destruct (run_unresolved _ _ _ _ _ Hrun)
      as (section & i & a & ra & Hin & Himp & Hl & Hf & Hpa & Hpr).
    apply run_extends in Hrun.
    exists section, i, a, ra. repeat split; auto.
    + destruct (Ast.pattern (h a)) as [q|] eqn:Hq; [|reflexivity].
      destruct (Hrun a) as (_ & _ & _ & _ & Hp). rewrite (Hp q Hq) in Hpa. discriminate.
    + destruct (Ast.pattern (h ra)) as [q|] eqn:Hq; [|reflexivity].
      destruct (Hrun ra) as (_ & _ & _ & _ & Hp). rewrite (Hp q Hq) in Hpr. discriminate.
  - intros r0 p Hr0 Himp. unfold init.
    destruct (run _ new_builder h) as [h1 r] eqn:Hrun.
    destruct (run_ignores r0 (accept (Ast.parents root) (Ast.tree root)) new_builder h
                (<[r0 := Ast.set_pattern p (h r0)]> h) h1 r)
      as [h2 Hrun2]; [| | |exact Himp|exact Hrun|].
    + intros x Hx. by rewrite fn_lookup_insert_ne.
    + exact Hr0.
    + rewrite fn_lookup_insert. exact Hr0.
    + rewrite Hrun2. destruct r; reflexivity.
Qed.

(** ** What the build assigns in the syntax tree *)

Lemma resolve_imports_changes section l h h' r :
  resolve_imports section l h = (h', r) →
  ∀ a, Ast.pattern (h' a) ≠ Ast.pattern (h a) →
    Ast.pattern (h a) = None ∧
    ∃ i ra p, (i, a) ∈ l ∧
      find_reservation section (Ast.id (h a)) = Some ra ∧
      Ast.pattern (h' a) = Some p ∧ Ast.pattern (h' ra) = Some p.
Proof.
  revert h. induction l as [|[i0 a0] l IH]; intros h H a Hne; simpl in H.
  { injection H as <- _. congruence. }
  assert (Hsame : resolve_imports section l h = (h', r) →
            Ast.pattern (h a) = None ∧
            ∃ i ra p, (i, a) ∈ (i0, a0) :: l ∧
              find_reservation section (Ast.id (h a)) = Some ra ∧
              Ast.pattern (h' a) = Some p ∧ Ast.pattern (h' ra) = Some p).
  { intros Hrest. destruct (IH h Hrest a Hne) as (Hn & i & ra & p & Hin & Hrest').
    split; [exact Hn|]. exists i, ra, p. split; [by right|exact Hrest']. }
  destruct (find_reservation section (Ast.id (h a0))) as [ra0|] eqn:Hfind;
    [|injection H as <- _; congruence].
  destruct (Ast.pattern (h a0)) eqn:Hpa; [by apply Hsame|].
  destruct (Ast.pattern (h ra0)) as [p0|] eqn:Hpr; [|injection H as <- _; congruence].
  pose proof (resolve_imports_extends _ _ _ _ _ H) as Hext.
  destruct (decide (a = a0)) as [->|Hna].
  - split; [exact Hpa|]. exists i0, ra0, p0. split; [by left|]. split; [exact Hfind|].
    split.
    + apply (Hext a0). rewrite fn_lookup_insert. reflexivity.
    + apply (Hext ra0). destruct (decide (a0 = ra0)) as [<-|Hnr]; [congruence|].
      rewrite fn_lookup_insert_ne by exact Hnr. exact Hpr.
  - rewrite <- (fn_lookup_insert_ne h a0 a (Ast.set_pattern (Some p0) (h a0)) (not_eq_sym Hna)) in Hne.
    destruct (IH _ H a Hne) as (Hn & i & ra & p & Hin & Hf & Hrest').
    rewrite fn_lookup_insert_ne in Hn, Hf by congruence.
    split; [exact Hn|]. exists i, ra, p. split; [by right|auto].
Qed.

Lemma run_changes evs b h h' r :
  run evs b h = (h', r) →
  ∀ a, Ast.pattern (h' a) ≠ Ast.pattern (h a) →
    Ast.pattern (h a) = None ∧
    ∃ section i ra p,
      VisitSection section ∈ evs ∧ (i, a) ∈ Ast.future_import (Ast.tree section) ∧
      find_reservation section (Ast.id (h a)) = Some ra ∧
      Ast.pattern (h' a) = Some p ∧ Ast.pattern (h' ra) = Some p.
Proof.
  revert b h. induction evs as [|ev evs IH]; intros b h H a Hne; simpl in H.
  { injection H as <- _. congruence. }
  destruct (step ev b h) as [h1 r1] eqn:Hs.
  assert (Hrest : ∃ b1, run evs b1 h1 = (h', r) ∨ (h1 = h')).
  { destruct r1 as [b1|e]; [exists b1; by left|exists b; right; congruence]. }
  destruct Hrest as [b1 Hrest].
  assert (Hext1 : heap_extends h1 h').
  { destruct Hrest as [Hrest| ->]; [by eapply run_extends|apply heap_extends_refl]. }
  pose proof (step_extends _ _ _ _ _ Hs) as Hext.
  destruct (decide (Ast.pattern (h1 a) = Ast.pattern (h a))) as [Heq|Hch].
  - (* changed by a later call *)
    destruct Hrest as [Hrest| ->]; [|congruence].
    rewrite <- Heq in Hne.
    destruct (IH _ _ Hrest a Hne) as (Hn & section & i & ra & p & Hin & Himp & Hf & Hp).
    destruct (Hext a) as (Hid & _).
    split; [congruence|]. exists section, i, ra, p.
    rewrite <- Hid. split; [by right|auto].
  - (* changed by this call, which is then a [visit_section] *)
    destruct ev as [section|a'|section]; simpl in Hs;
      [|injection Hs as <- _; congruence..].
    pose proof (visit_section_heap section b h) as Hh. rewrite Hs in Hh. simpl in Hh.
    destruct (resolve_imports section _ h) as [h2 r2] eqn:Hr. simpl in Hh. subst h2.
    destruct (resolve_imports_changes _ _ _ _ _ Hr a Hch)
      as (Hn & i & ra & p & Hin & Hf & Hpa & Hpr).
    split; [exact Hn|]. exists section, i, ra, p.
    split; [by left|]. split; [exact Hin|]. split; [exact Hf|].
    split; [apply (Hext1 a), Hpa|apply (Hext1 ra), Hpr].
Qed.

Lemma init_heap root h :
  (init root h).1 = (run (accept (Ast.parents root) (Ast.tree root)) new_builder h).1.
Proof. unfold init. destruct (run _ _ h) as [h' [b|e]]; reflexivity. Qed.

(** C9, as the builder has it: constructing the IR assigns to nothing in
    the syntax tree but the [pattern] of imported rules.  Whatever the
    outcome, every rule keeps its identifier, actions and line number, and a
    pattern it had; a rule whose pattern differs afterwards had none, is a
    [future_import] item of a visited section, and now has the pattern of
    the reservation found for it. *)
Theorem build_assigns_only_import_patterns
    (root : Ast.SectionNode) (h h' : Ast.Heap) (r : result IR) :
  init root h = (h', r) →
  ∀ a,
    Ast.id (h' a) = Ast.id (h a) ∧
    Ast.rule_action (h' a) = Ast.rule_action (h a) ∧
    Ast.section_action (h' a) = Ast.section_action (h a) ∧
    Ast.line_number (h' a) = Ast.line_number (h a) ∧
    (∀ p, Ast.pattern (h a) = Some p → Ast.pattern (h' a) = Some p) ∧
    (Ast.pattern (h' a) ≠ Ast.pattern (h a) →
       Ast.pattern (h a) = None ∧
       ∃ section i ra p,
         VisitSection section ∈ accept (Ast.parents root) (Ast.tree root) ∧
         (i, a) ∈ Ast.future_import (Ast.tree section) ∧
         find_reservation section (Ast.id (h a)) = Some ra ∧
         Ast.pattern (h' a) = Some p ∧ Ast.pattern (h' ra) = Some p).
Proof.
  intros H a. pose proof (init_heap root h) as Hh. rewrite H in Hh. simpl in Hh.
  destruct (run (accept (Ast.parents root) (Ast.tree root)) new_builder h)
    as [h1 r1] eqn:Hrun.
  simpl in Hh. subst h1.
  destruct (run_extends _ _ _ _ _ Hrun a) as (Hid & Hra & Hsa & Hln & Hp).
  repeat split; auto; by eapply run_changes.
Qed.

(** ** The recorded identifiers *)

Lemma record_rule_id_ok i ids : ids_ok ids → ids_ok (record_rule_id i ids).
Proof.
  intros Hok. destruct i as [i|]; simpl; [|exact Hok].
  case_bool_decide; [exact Hok|]. intros k v.
  rewrite lookup_insert. case_decide; [congruence|apply Hok].
Qed.

Lemma record_rule_id_mono i ids k v :
  ids_ok ids → ids !! k = Some v → record_rule_id i ids !! k = Some v.
Proof.
  intros Hok Hk. destruct i as [i|]; simpl; [|exact Hk].
  case_bool_decide; [exact Hk|].
  rewrite lookup_insert. case_decide as Hik; [|exact Hk].
  subst k. f_equal. symmetry. by eapply Hok.
Qed.

Lemma record_rule_id_covers i ids :
  ids_ok ids →
  ∃ k, record_rule_id (Some i) ids !! k = Some k ∧ lower k = lower i.
Proof.
  intros Hok. simpl. case_bool_decide as Hin.
  - destruct Hin as [v Hv]. pose proof (Hok _ _ Hv) as ->.
    exists (lower i). split; [exact Hv|apply lower_idemp].
  - exists i. split; [apply lookup_insert_eq|reflexivity].
Qed.

Lemma record_rule_id_origin i ids k v :
  record_rule_id i ids !! k = Some v → ids !! k = Some v ∨ (i = Some k ∧ v = k).
Proof.
  destruct i as [i|]; simpl; [|by left].
  case_bool_decide; [by left|].
  rewrite lookup_insert. case_decide; [|by left].
  intros [= <-]. right. split; congruence.
Qed.

Lemma step_rule_ids ev b h h' b' :
  step ev b h = (h', Return b') →
  match ev with
  | VisitRule a =>
      rule_ids b' =
        if bool_decide (Some "reserve" ∈ Ast.rule_action (h a)) then rule_ids b
        else record_rule_id (Ast.id (h a)) (rule_ids b)
  | _ => rule_ids b' = rule_ids b
  end.
Proof.
  destruct ev as [section|a|section]; simpl; intros H.
  - unfold visit_section in H.
    destruct (resolve_imports section _ h) as [h1 [u|e]]; [|discriminate].
    by injection H as _ <-.
  - injection H as _ H. apply visit_rule_Return in H.
    case_bool_decide as Hres.
    + rewrite compile_rule_reserve in H by exact Hres. congruence.
    + destruct (compile_rule_Return_inv _ _ _ Hres H)
        as (o & p & regex & nfa & sa & _ & _ & _ & _ & _ & ->). reflexivity.
  - injection H as _ H. unfold leave_section in H.
    destruct (Ast.parent section); [destruct (sections b !! _)|];
      try discriminate; by injection H as <-.
Qed.

Lemma run_rule_ids evs : ∀ b h h' b',
  ids_ok (rule_ids b) →
  run evs b h = (h', Return b') →
  ids_ok (rule_ids b') ∧
  (∀ k v, rule_ids b !! k = Some v → rule_ids b' !! k = Some v) ∧
  (∀ a i, VisitRule a ∈ evs → Ast.id (h a) = Some i →
          Some "reserve" ∉ Ast.rule_action (h a) →
          ∃ k, rule_ids b' !! k = Some k ∧ lower k = lower i) ∧
  (∀ k v, rule_ids b' !! k = Some v →
          rule_ids b !! k = Some v ∨
          ∃ a, VisitRule a ∈ evs ∧ Ast.id (h a) = Some k ∧
               Some "reserve" ∉ Ast.rule_action (h a)).
Proof.
  induction evs as [|ev evs IH]; intros b h h' b' Hok H; simpl in H.
  { injection H as <- <-. repeat split; auto.
    intros a i Hin. inversion Hin. }
  destruct (step ev b h) as [h1 [b1|e]] eqn:Hs; [|discriminate].
  pose proof (step_extends _ _ _ _ _ Hs) as Hext.
  pose proof (step_rule_ids _ _ _ _ _ Hs) as Hids.
  assert (Hok1 : ids_ok (rule_ids b1)).
  { destruct ev; rewrite Hids; [exact Hok| |exact Hok].
    case_bool_decide; [exact Hok|by apply record_rule_id_ok]. }
  assert (Hmono1 : ∀ k v, rule_ids b !! k = Some v → rule_ids b1 !! k = Some v).
  { intros k v Hk. destruct ev; rewrite Hids; [exact Hk| |exact Hk].
    case_bool_decide; [exact Hk|by apply record_rule_id_mono]. }
  destruct (IH _ _ _ _ Hok1 H) as (Hok' & Hmono & Hcov & Horig).
  split; [exact Hok'|]. split; [auto|]. split.
  - intros a i Hin Hid Hres. apply elem_of_cons in Hin as [<-|Hin].
    + rewrite bool_decide_eq_false_2 in Hids by exact Hres. rewrite Hid in Hids.
      destruct (record_rule_id_covers i (rule_ids b) Hok) as (k & Hk & Hlow).
      exists k. split; [|exact Hlow]. apply Hmono. rewrite Hids. exact Hk.
    + destruct (Hext a) as (Hid1 & Hra1 & _).
      apply (Hcov a i Hin); congruence.
  - intros k v Hk. destruct (Horig k v Hk) as [Hk1|(a & Hin & Hid & Hres)].
    + destruct ev as [section|a|section]; rewrite Hids in Hk1; [by left| |by left].
      case_bool_decide as Hres; [by left|].
      apply record_rule_id_origin in Hk1 as [Hk1|[Hid ->]]; [by left|].
      right. exists a. split; [by left|]. split; [exact Hid|exact Hres].
    + right. exists a. destruct (Hext a) as (Hid1 & Hra1 & _).
      split; [by right|]. split; congruence.
Qed.

(** C8, as the builder has it: after a successful build [rule_ids] holds, up
    to the case of letters, the identifier of every named rule that is no
    reservation, and nothing else: each entry stands for such a rule, its key
    being the rule's identifier up to case and its value the identifier.
    A reservation adds no entry. *)
Theorem rule_ids_after_build
    (root : Ast.SectionNode) (h h' : Ast.Heap) (ir : IR) :
  init root h = (h', Return ir) →
  (∀ a i, VisitRule a ∈ accept (Ast.parents root) (Ast.tree root) →
          Ast.id (h a) = Some i → Some "reserve" ∉ Ast.rule_action (h a) →
          ∃ k, is_Some (ir_rule_ids ir !! k) ∧ lower k = lower i) ∧
  (∀ k v, ir_rule_ids ir !! k = Some v →
          lower k = lower v ∧
          ∃ a, VisitRule a ∈ accept (Ast.parents root) (Ast.tree root) ∧
               Ast.id (h a) = Some v ∧ Some "reserve" ∉ Ast.rule_action (h a)).
Proof.
  unfold init. intros H.
  destruct (run _ new_builder h) as [h1 [b|e]] eqn:Hrun; [|discriminate].
  injection H as _ <-. simpl.
  assert (Hok0 : ids_ok (rule_ids new_builder)) by (intros k v Hk; inversion Hk).
  destruct (run_rule_ids _ _ _ _ _ Hok0 Hrun) as (Hok & _ & Hcov & Horig).
  split.
  - intros a i Hin Hid Hres. destruct (Hcov a i Hin Hid Hres) as (k & Hk & Hlow).
    exists k. split; [by eexists|exact Hlow].
  - intros k v Hk. pose proof (Hok _ _ Hk) as ->. split; [reflexivity|].
    destruct (Horig k k Hk) as [Hk0|Hex]; [inversion Hk0|exact Hex].
Qed.

End Facts.

(** ** The builder on the sample grammars *)

Lemma visit_section_resolves_imports_witness :
  Ast.pattern
    ((visit_section (C := toy import_tables) (root_of import_grammar)
        new_builder import_heap).1 1%nat)
  = Some {| Ast.regex := "[a-z]+"; Ast.is_case_insensitive := false |}.
Proof.
  apply (proj1 (proj2 (proj2
           (visit_section_resolves_imports (C := toy import_tables)
              (root_of import_grammar) new_builder import_heap import_heap
              [] [] (Some "TOK") 1%nat eq_refl eq_refl))) 0%nat);
    reflexivity.
Defined.

(** C3 fails on the builder: [reserve TOK] without a pattern, imported by no
    rule, and the constructor returns an IR. *)
Lemma lone_reservation_is_accepted :
  Ast.id (lone_reservation_heap 0%nat) = Some "TOK" ∧
  Ast.pattern (lone_reservation_heap 0%nat) = None ∧
  Ast.rule_action (lone_reservation_heap 0%nat) = [Some "reserve"] ∧
  Ast.future_import lone_reservation = [] ∧
  ¬ is_Raise (init (C := toy []) (root_of lone_reservation) lone_reservation_heap).2.
Proof.
  repeat split. intros [e He]. vm_compute in He. discriminate He.
Qed.

Lemma unresolved_import_fails_build_witness :
  init (C := toy import_tables) (root_of import_grammar) unresolved_heap
    = (unresolved_heap, Raise (Thrown 2 unresolved_pattern_message)) ∧
  (∃ h' e, init (C := toy import_tables) (root_of import_grammar) unresolved_heap
             = (h', Raise e) ∧
           Ast.pattern (h' 1%nat) = None ∧ Ast.pattern (h' 0%nat) = None) ∧
  (∃ section i a ra,
     VisitSection section ∈ accept [] import_grammar ∧
     (i, a) ∈ Ast.future_import (Ast.tree section) ∧
     2%Z = Ast.line_number (unresolved_heap a) ∧
     find_reservation (Collaborators := toy import_tables) section
       (Ast.id (unresolved_heap a)) = Some ra ∧
     Ast.pattern (unresolved_heap a) = None ∧
     Ast.pattern (unresolved_heap ra) = None) ∧
  (init (C := toy spare_tables) (root_of spare_grammar)
     (<[2%nat := Ast.set_pattern
                   (Some {| Ast.regex := "[0-9]+"; Ast.is_case_insensitive := false |})
                   (spare_heap 2%nat)]> spare_heap)).2
  = (init (C := toy spare_tables) (root_of spare_grammar) spare_heap).2.
Proof.
  pose proof (unresolved_import_fails_build (C := toy import_tables)
                (root_of import_grammar) unresolved_heap) as (Hreach & Hstuck & Honly & _).
  pose proof (unresolved_import_fails_build (C := toy spare_tables)
                (root_of spare_grammar) spare_heap) as (_ & _ & _ & Hspare).
  assert (Hinit : init (C := toy import_tables) (root_of import_grammar) unresolved_heap
                  = (unresolved_heap, Raise (Thrown 2 unresolved_pattern_message))).
  { apply (Hreach [] (root_of import_grammar)
             [VisitRule 0; VisitRule 1; LeaveSection (root_of import_grammar)]
             new_builder unresolved_heap [] (Some "TOK") 1%nat [] unresolved_heap 0%nat);
      reflexivity. }
  split; [exact Hinit|split; [|split]].
  - apply (Hstuck (root_of import_grammar) (Some "TOK") 1%nat 0%nat).
    + left.
    + left.
    + reflexivity.
    + reflexivity.
    + reflexivity.
    + intros s i' x Hs Hx.
      apply elem_of_cons in Hs as [Hs|Hs]; [injection Hs as ->|];
        [|repeat (apply elem_of_cons in Hs as [Hs|Hs]; [discriminate Hs|]);
          by apply elem_of_nil in Hs].
      apply list_elem_of_singleton in Hx. injection Hx as _ ->. discriminate.
    + intros s i' r' Hs Hx.
      apply elem_of_cons in Hs as [Hs|Hs]; [injection Hs as ->|];
        [|repeat (apply elem_of_cons in Hs as [Hs|Hs]; [discriminate Hs|]);
          by apply elem_of_nil in Hs].
      intros Hf. vm_compute in Hf. by injection Hf as <-.
  - destruct (Honly _ _ Hinit)
      as (section & i & a & ra & Hs & Hi & Hl & Hf & Hpa & Hpr & _).
    by exists section, i, a, ra.
  - apply Hspare.
    + apply (bool_decide_unpack _). vm_compute. exact I.
    + intros s i a Hs Hx.
      apply elem_of_cons in Hs as [Hs|Hs]; [injection Hs as ->|];
        [|repeat (apply elem_of_cons in Hs as [Hs|Hs]; [discriminate Hs|]);
          by apply elem_of_nil in Hs].
      apply list_elem_of_singleton in Hx. injection Hx as _ ->.
      split; [discriminate|]. vm_compute. discriminate.
Defined.

Lemma visit_rule_appends_one_rule_witness :
  ∃ b', visit_rule (C := toy []) 0 (enter (root_of collision_grammar) collision_heap)
          collision_heap = Return b' ∧
        rules (objects b' 0%nat) =
          [ @Build_Rule (toy []) (Some "Id") (Some "id", "[a-z]+") [None] None 1 ].
Proof.
  eexists. split; [vm_compute; reflexivity|].
  edestruct (proj2 (visit_rule_appends_one_rule (C := toy []) 0
                      (enter (root_of collision_grammar) collision_heap)
                      collision_heap))
    as (o & p & regex & nfa & sa & Ho & Hp & Hparse & Hbuild & Hsa & Hrules & _).
  - apply (bool_decide_unpack _). vm_compute. exact I.
  - vm_compute. reflexivity.
  - injection Ho as <-. injection Hp as <-. injection Hparse as <-.
    injection Hbuild as <-. injection Hsa as <-. exact Hrules.
Defined.

(** C5 fails on the builder: [Id] and [ID] collide case-insensitively, and
    the constructor returns an IR. *)
Lemma collision_is_accepted :
  Ast.id (collision_heap 0%nat) = Some "Id" ∧
  Ast.id (collision_heap 1%nat) = Some "ID" ∧
  lower "Id" = lower "ID" ∧
  ¬ is_Raise (init (C := toy []) (root_of collision_grammar) collision_heap).2.
Proof.
  repeat split. intros [e He]. vm_compute in He. discriminate He.
Qed.

Example collision_both_appended :
  (λ ir, (λ s, id <$> rules s) <$> ir_sections ir !! "::") <$>
    (init (C := toy []) (root_of collision_grammar) collision_heap).2
  = Return (Some [Some "Id"; Some "ID"]).
Proof. vm_compute. reflexivity. Qed.

Lemma failing_rule_aborts_build_witness :
  ∃ message,
    init (C := toy []) (root_of (sections_grammar [0; 2]%nat)) sections_heap
    = (sections_heap, Raise (Thrown 3 message)) ∧
    message = "rule 'open': unbalanced group".
Proof.
  edestruct (failing_rule_aborts_build (C := toy [])
               (root_of (sections_grammar [0; 2]%nat)) sections_heap sections_heap
               [ VisitSection (root_of (sections_grammar [0; 2]%nat)); VisitRule 0 ]
               (accept [sections_grammar [0; 2]%nat] string_section
                ++ [LeaveSection (root_of (sections_grammar [0; 2]%nat))])
               2%nat
               (after [ VisitSection (root_of (sections_grammar [0; 2]%nat)); VisitRule 0 ]
                  sections_heap)
               (Exception "unbalanced group"))
    as (message & Hinit & _ & Hnamed & _).
  - reflexivity.
  - vm_compute. reflexivity.
  - vm_compute. reflexivity.
  - exists message. split; [exact Hinit|]. apply (Hnamed "open"). reflexivity.
Defined.

Example anonymous_rule_failure :
  (init (C := toy []) (root_of (sections_grammar [0; 3]%nat)) sections_heap).2
  = Raise (Thrown 4 "anonymous rule: 'NoneType' object has no attribute 'regex'").
Proof. vm_compute. reflexivity. Qed.


Example unresolved_section_failure :
  (init (C := toy []) (root_of (sections_grammar [0; 1]%nat)) sections_heap).2
  = Raise (Thrown 2 "rule 'hash': section 'comment' not found").
Proof. vm_compute. reflexivity. Qed.

(** C8 fails on the builder: the identifier of a reservation is not in
    [rule_ids] after the build. *)
Lemma reservation_id_not_recorded :
  Ast.id (lone_reservation_heap 0%nat) = Some "TOK" ∧
  VisitRule 0 ∈ accept [] lone_reservation ∧
  ∃ ir, (init (C := toy []) (root_of lone_reservation) lone_reservation_heap).2
        = Return ir ∧
        ir_rule_ids ir = ∅.
Proof.
  split; [reflexivity|]. split; [right; left|].
  eexists. split; vm_compute; reflexivity.
Qed.

Lemma rule_ids_after_build_witness :
  ∃ h' ir,
    init (C := toy []) (root_of collision_grammar) collision_heap = (h', Return ir) ∧
    (∀ a i, VisitRule a ∈ accept [] collision_grammar →
            Ast.id (collision_heap a) = Some i →
            Some "reserve" ∉ Ast.rule_action (collision_heap a) →
            ∃ k, is_Some (ir_rule_ids ir !! k) ∧ lower k = lower i) ∧
    (∀ k v, ir_rule_ids ir !! k = Some v →
            lower k = lower v ∧
            ∃ a, VisitRule a ∈ accept [] collision_grammar ∧
                 Ast.id (collision_heap a) = Some v ∧
                 Some "reserve" ∉ Ast.rule_action (collision_heap a)).
Proof.
  eexists _, _. split.
  - vm_compute. reflexivity.
  - eapply (rule_ids_after_build (C := toy []) (root_of collision_grammar) collision_heap).
    vm_compute. reflexivity.
Defined.

(** C9 fails on the builder: after the build the importing rule has a
    pattern it did not have before. *)
Lemma import_assigns_pattern :
  Ast.pattern (import_heap 1%nat) = None ∧
  Ast.pattern
    ((init (C := toy import_tables) (root_of import_grammar) import_heap).1 1%nat)
  = Some {| Ast.regex := "[a-z]+"; Ast.is_case_insensitive := false |}.
Proof. split; vm_compute; reflexivity. Qed.

Lemma build_assigns_only_import_patterns_witness :
  ∃ h' r,
    init (C := toy import_tables) (root_of import_grammar) import_heap = (h', r) ∧
    ∀ a,
      Ast.id (h' a) = Ast.id (import_heap a) ∧
      Ast.rule_action (h' a) = Ast.rule_action (import_heap a) ∧
      Ast.section_action (h' a) = Ast.section_action (import_heap a) ∧
      Ast.line_number (h' a) = Ast.line_number (import_heap a) ∧
      (∀ p, Ast.pattern (import_heap a) = Some p → Ast.pattern (h' a) = Some p) ∧
      (Ast.pattern (h' a) ≠ Ast.pattern (import_heap a) →
         Ast.pattern (import_heap a) = None ∧
         ∃ section i ra p,
           VisitSection section ∈ accept [] import_grammar ∧
           (i, a) ∈ Ast.future_import (Ast.tree section) ∧
           find_reservation (Collaborators := toy import_tables) section
             (Ast.id (import_heap a)) = Some ra ∧
           Ast.pattern (h' a) = Some p ∧ Ast.pattern (h' ra) = Some p).
Proof.
  eexists _, _. split.
  - vm_compute. reflexivity.
  - eapply (build_assigns_only_import_patterns (C := toy import_tables)
              (root_of import_grammar) import_heap).
    vm_compute. reflexivity.
Defined.

End NonDeterministicIRFacts.

Module TraversalFacts.
Import Py PyFacts NonDeterministicIR Traversal.

(** Induction on a section tree with the property available for every
    sub-section among the children. *)
Lemma SectionTree_nested_ind (P : Ast.SectionTree → Prop) :
  (∀ n q i f c,
     Forall (λ x, match x with inr t => P t | inl _ => True end) c →
     P (Ast.MkSection n q i f c)) →
  ∀ t, P t.
Proof.
  intros Hstep. fix IH 1. intros [n q i f c]. apply Hstep.
  induction c as [|[a|t] c IHc]; constructor; auto.
Qed.

Lemma accept_unfold up t :
  accept up t =
  VisitSection {| Ast.tree := t; Ast.parents := up |} ::
  accept_children (t :: up) (Ast.children t)
  ++ [LeaveSection {| Ast.tree := t; Ast.parents := up |}].
Proof.
  destruct t as [n q i f c]. simpl. do 2 f_equal.
  generalize (Ast.MkSection n q i f c :: up). intros up'.
  induction c as [|[a|t] c IHc]; simpl; congruence.
Qed.

Lemma subsections_unfold up t :
  subsections up t =
  {| Ast.tree := t; Ast.parents := up |} :: subsections_children (t :: up) (Ast.children t).
Proof.
  destruct t as [n q i f c]. simpl. f_equal.
  generalize (Ast.MkSection n q i f c :: up). intros up'.
  induction c as [|[a|t] c IHc]; simpl; congruence.
Qed.

Lemma scoped_mono evs : ∀ O O', O ⊆ O' → scoped O evs → scoped O' evs.
Proof.
  induction evs as [|[s|a|s] evs IH]; intros O O' Hsub; simpl.
  - auto.
  - apply IH. intros x Hx. apply elem_of_cons in Hx as [->|Hx]; [left|right; auto].
  - by apply IH.
  - intros [Hp Hs]. split; [|by eapply IH]. destruct (Ast.parent s); auto.
Qed.

Lemma scoped_app evs1 evs2 O :
  scoped O evs1 → scoped (visited_names evs1 ++ O) evs2 → scoped O (evs1 ++ evs2).
Proof.
  revert O. induction evs1 as [|[s|a|s] evs1 IH]; intros O H1 H2; simpl in *.
  - exact H2.
  - apply IH; [exact H1|]. eapply scoped_mono; [|exact H2].
    intros x Hx. rewrite elem_of_app.
    apply elem_of_cons in Hx as [->|Hx]; [right; left|].
    rewrite elem_of_app in Hx. destruct Hx as [Hx|Hx]; [by left|right; by right].
  - by apply IH.
  - destruct H1 as [Hp H1]. split; [exact Hp|by apply IH].
Qed.

Lemma accept_children_scoped c :
  Forall (λ x, match x with
               | inr t => ∀ up O, parent_open up O → scoped O (accept up t)
               | inl _ => True
               end) c →
  ∀ up O, parent_open up O → scoped O (accept_children up c).
Proof.
  induction 1 as [|[a|t] c Hx _ IH]; intros up O Hup; simpl; [exact I|by apply IH|].
  apply scoped_app; [by apply Hx|].
  eapply scoped_mono; [|by apply IH]. intros x Hin. rewrite elem_of_app. by right.
Qed.

(** The trace of a section is well scoped once its parent is open. *)
Lemma accept_scoped t : ∀ up O, parent_open up O → scoped O (accept up t).
Proof.
  induction t as [n q i f c IHc] using SectionTree_nested_ind.
  intros up O Hup. rewrite accept_unfold. simpl.
  apply scoped_app; [|simpl; split; [|exact I]].
  - apply accept_children_scoped; [exact IHc|]. left.
  - unfold Ast.parent. simpl. destruct up as [|p up]; [exact I|].
    unfold Ast.get_qualified_name. simpl. rewrite elem_of_app. right. by right.
Qed.

Lemma VisitSection_accept_children c :
  Forall (λ x, match x with
               | inr t => ∀ up s, s ∈ subsections up t → VisitSection s ∈ accept up t
               | inl _ => True
               end) c →
  ∀ up s, s ∈ subsections_children up c → VisitSection s ∈ accept_children up c.
Proof.
  induction 1 as [|[a|t] c Hx _ IH]; intros up s Hs; simpl in *.
  - inversion Hs.
  - right. by apply IH.
  - apply elem_of_app in Hs. apply elem_of_app.
    destruct Hs as [Hs|Hs]; [left; by apply Hx|right; by apply IH].
Qed.

(** Every section of the tree is announced by the traversal. *)
Lemma VisitSection_accept t : ∀ up s,
  s ∈ subsections up t → VisitSection s ∈ accept up t.
Proof.
  induction t as [n q i f c IHc] using SectionTree_nested_ind. intros up s.
  rewrite accept_unfold, subsections_unfold. intros Hs.
  apply elem_of_cons in Hs as [->|Hs]; [left|]. right.
  rewrite elem_of_app. left. by apply VisitSection_accept_children.
Qed.

End TraversalFacts.

Module BuildFacts.
Import Py PyFacts NonDeterministicIR Samples MoreSamples Traversal BuildSpec TraversalFacts
  NonDeterministicIRFacts.

Section Facts.
Context `{C : Collaborators}.

(** ** Inversion of runs *)

Lemma run_cons_Return ev evs b h h' b' :
  run (ev :: evs) b h = (h', Return b') →
  ∃ h1 b1, step ev b h = (h1, Return b1) ∧ run evs b1 h1 = (h', Return b').
Proof.
  simpl. destruct (step ev b h) as [h1 [b1|e]]; [eauto|discriminate].
Qed.

Lemma run_app_Return evs1 evs2 b h h' b' :
  run (evs1 ++ evs2) b h = (h', Return b') →
  ∃ h1 b1, run evs1 b h = (h1, Return b1) ∧ run evs2 b1 h1 = (h', Return b').
Proof.
  rewrite run_app. destruct (run evs1 b h) as [h1 [b1|e]]; [eauto|discriminate].
Qed.

Lemma visit_section_Return_inv section b h h' b' :
  visit_section section b h = (h', Return b') →
  resolve_imports section (Ast.future_import (Ast.tree section)) h = (h', Return tt) ∧
  b' = {| current_ast_section := Some section;
          current_ir_section := Some (next b);
          sections := <[Ast.get_qualified_name section := next b]> (sections b);
          rule_ids := rule_ids b;
          objects := <[next b := {| rules := [];
                                    inherits := Ast.inherits (Ast.tree section);
                                    parent := Ast.get_qualified_name <$> Ast.parent section |}]>
                       (objects b);
          next := S (next b) |}.
Proof.
  unfold visit_section.
  destruct (resolve_imports section _ h) as [h1 [[]|e]]; [|discriminate].
  intros [= <- <-]. split; reflexivity.
Qed.

Lemma leave_section_Return_inv section b b' :
  leave_section section b = Return b' →
  sections b' = sections b ∧ objects b' = objects b ∧ next b' = next b ∧
  rule_ids b' = rule_ids b ∧
  current_ast_section b' = Ast.parent section ∧
  current_ir_section b' =
    (p ← Ast.parent section; sections b !! Ast.get_qualified_name p).
Proof.
  unfold leave_section. destruct (Ast.parent section) as [p|]; simpl.
  - destruct (sections b !! Ast.get_qualified_name p) as [o|] eqn:Ho; [|discriminate].
    intros [= <-]. simpl. auto 10.
  - intros [= <-]. simpl. auto 10.
Qed.

Lemma visit_rule_sections a b h b' :
  visit_rule a b h = Return b' →
  sections b' = sections b ∧ next b' = next b ∧
  current_ast_section b' = current_ast_section b ∧
  current_ir_section b' = current_ir_section b.
Proof.
  intros H. apply visit_rule_Return in H.
  destruct (decide (Some "reserve" ∈ Ast.rule_action (h a))) as [Hres|Hres].
  - rewrite compile_rule_reserve in H by exact Hres. injection H as <-. auto.
  - destruct (compile_rule_Return_inv _ _ _ Hres H)
      as (o & p & regex & nfa & sa & Ho & _ & _ & _ & _ & ->). simpl. auto.
Qed.

(** ** The keys of the section table *)

Lemma elem_of_visited_names q evs :
  q ∈ visited_names evs ↔
  ∃ section, VisitSection section ∈ evs ∧ Ast.get_qualified_name section = q.
Proof.
  induction evs as [|[s|a|s] evs IH]; simpl.
  - split; [intros H; inversion H|intros (s & H & _); inversion H].
  - rewrite elem_of_cons, IH. split.
    + intros [->|(s' & Hin & Hq)]; [exists s; split; [left|reflexivity]|].
      exists s'. split; [by right|exact Hq].
    + intros (s' & Hin & Hq). apply elem_of_cons in Hin as [[= ->]|Hin]; [by left|].
      right. by exists s'.
  - rewrite IH. split; intros (s' & Hin & Hq); exists s'; (split; [|exact Hq]).
    + by right.
    + apply elem_of_cons in Hin as [Heq|Hin]; [discriminate|exact Hin].
  - rewrite IH. split; intros (s' & Hin & Hq); exists s'; (split; [|exact Hq]).
    + by right.
    + apply elem_of_cons in Hin as [Heq|Hin]; [discriminate|exact Hin].
Qed.

Lemma step_sections ev b h h' b' :
  step ev b h = (h', Return b') →
  sections b' =
    match ev with
    | VisitSection section => <[Ast.get_qualified_name section := next b]> (sections b)
    | _ => sections b
    end.
Proof.
  destruct ev as [s|a|s]; simpl; intros H.
  - apply visit_section_Return_inv in H as [_ ->]. reflexivity.
  - injection H as _ H. by apply visit_rule_sections in H as [-> _].
  - injection H as _ H. by apply leave_section_Return_inv in H as [-> _].
Qed.

Lemma run_sections_keys evs : ∀ b h h' b',
  run evs b h = (h', Return b') →
  ∀ q, is_Some (sections b' !! q) ↔ is_Some (sections b !! q) ∨ q ∈ visited_names evs.
Proof.
  induction evs as [|ev evs IH]; intros b h h' b' H q.
  - injection H as _ <-. split; [by left|]. intros [H|H]; [exact H|inversion H].
  - apply run_cons_Return in H as (h1 & b1 & Hs & Hr).
    rewrite (IH _ _ _ _ Hr q), (step_sections _ _ _ _ _ Hs).
    destruct ev as [s|a|s]; simpl; [|tauto..].
    rewrite elem_of_cons, lookup_insert. case_decide as Hq.
    + subst q. split; [intros _; right; by left|intros _; left; by eexists].
    + split; [intros [?|?]; auto|intros [?|[?|?]]; auto; congruence].
Qed.

Lemma run_sections_frame evs : ∀ b h h' b',
  run evs b h = (h', Return b') →
  ∀ q, q ∉ visited_names evs → sections b' !! q = sections b !! q.
Proof.
  induction evs as [|ev evs IH]; intros b h h' b' H q Hq.
  - by injection H as _ <-.
  - apply run_cons_Return in H as (h1 & b1 & Hs & Hr).
    rewrite (IH _ _ _ _ Hr q), (step_sections _ _ _ _ _ Hs).
    + destruct ev as [s|a|s]; simpl in *; try reflexivity.
      apply lookup_insert_ne. intros Heq. apply Hq.
      apply elem_of_cons. left. symmetry. exact Heq.
    + intros Hin. apply Hq. destruct ev; simpl; [by right|done..].
Qed.

Lemma visited_names_app evs1 evs2 :
  visited_names (evs1 ++ evs2) = visited_names evs1 ++ visited_names evs2.
Proof.
  induction evs1 as [|[s|a|s] evs1 IH]; simpl; congruence.
Qed.

Lemma visited_names_accept_children c :
  Forall (λ x, match x with
               | inr t => ∀ up, visited_names (accept up t)
                                = Ast.get_qualified_name <$> subsections up t
               | inl _ => True
               end) c →
  ∀ up, visited_names (accept_children up c)
        = Ast.get_qualified_name <$> subsections_children up c.
Proof.
  induction 1 as [|[a|t] c Hx _ IH]; intros up; simpl; [reflexivity|apply IH|].
  rewrite visited_names_app, fmap_app, Hx, IH. reflexivity.
Qed.

(** The names announced by a traversal are the qualified names of the
    sections of the tree. *)
Lemma visited_names_accept t : ∀ up,
  visited_names (accept up t) = Ast.get_qualified_name <$> subsections up t.
Proof.
  induction t as [n q i f c IHc] using SectionTree_nested_ind. intros up.
  rewrite accept_unfold, subsections_unfold. simpl.
  rewrite visited_names_app, (visited_names_accept_children _ IHc). simpl.
  by rewrite app_nil_r.
Qed.

(** X1. After a successful build the section table has an entry for exactly
    the qualified names of the sections of the tree. *)
Theorem section_table_keys (root : Ast.SectionNode) (h h' : Ast.Heap) (ir : IR) :
  init root h = (h', Return ir) →
  ∀ q, is_Some (ir_sections ir !! q) ↔
       q ∈ Ast.get_qualified_name <$> subsections (Ast.parents root) (Ast.tree root).
Proof.
  unfold init. intros H q.
  destruct (run _ new_builder h) as [h1 [b|e]] eqn:Hrun; [|discriminate].
  injection H as _ <-. simpl.
  rewrite lookup_fmap, <- visited_names_accept.
  pose proof (run_sections_keys _ _ _ _ _ Hrun q) as Hk. simpl in Hk.
  rewrite lookup_empty in Hk. rewrite fmap_is_Some, Hk.
  split; [intros [[x Hx]|Hin]; [discriminate|exact Hin]|by right].
Qed.

(** ** Where failures come from *)

Lemma resolve_imports_Raise section l h h' e :
  resolve_imports section l h = (h', Raise e) →
  ∃ i a message, (i, a) ∈ l ∧ e = Thrown (Ast.line_number (h a)) message.
Proof.
  revert h. induction l as [|[i a] l IH]; intros h H; simpl in H; [discriminate|].
  assert (Hrest : ∀ h1, heap_extends h h1 →
            resolve_imports section l h1 = (h', Raise e) →
            ∃ i' a' message, (i', a') ∈ (i, a) :: l ∧
                             e = Thrown (Ast.line_number (h a')) message).
  { intros h1 Hext Hr. destruct (IH h1 Hr) as (i' & a' & m & Hin & ->).
    destruct (Hext a') as (_ & _ & _ & Hln & _).
    exists i', a', m. rewrite Hln. split; [by right|reflexivity]. }
  destruct (find_reservation section (Ast.id (h a))) as [ra|].
  - destruct (Ast.pattern (h a)) eqn:Hpa.
    + apply (Hrest h); [apply heap_extends_refl|exact H].
    + destruct (Ast.pattern (h ra)) as [p|].
      * eapply Hrest; [|exact H]. by apply heap_extends_assign.
      * injection H as _ <-. exists i, a, unresolved_pattern_message.
        split; [by left|reflexivity].
  - injection H as _ <-. exists i, a, reservation_not_found_message.
    split; [by left|reflexivity].
Qed.

Lemma rule_of_trace_cons ev evs a : rule_of_trace evs a → rule_of_trace (ev :: evs) a.
Proof.
  intros [H|(s & i & Hs & Hi)]; [left; by right|].
  right. exists s, i. split; [by right|exact Hi].
Qed.

(** In a well-scoped run every failure is a rule's [throw]. *)
Lemma run_failure_origin evs : ∀ O b h h' e,
  scoped O evs →
  (∀ q, q ∈ O → is_Some (sections b !! q)) →
  run evs b h = (h', Raise e) →
  ∃ a message, e = Thrown (Ast.line_number (h a)) message ∧ rule_of_trace evs a.
Proof.
  induction evs as [|ev evs IH]; intros O b h h' e Hsc HO H; simpl in H; [discriminate|].
  destruct (step ev b h) as [h1 [b1|e1]] eqn:Hs.
  - pose proof (step_extends _ _ _ _ _ Hs) as Hext.
    pose proof (step_sections _ _ _ _ _ Hs) as Hsec.
    assert (Hnext : ∃ O', scoped O' evs ∧ ∀ q, q ∈ O' → is_Some (sections b1 !! q)).
    { destruct ev as [s|a|s]; simpl in Hsc; rewrite Hsec.
      - eexists. split; [exact Hsc|]. intros q Hq. rewrite lookup_insert.
        case_decide; [by eexists|]. apply HO.
        apply elem_of_cons in Hq as [->|Hq]; [congruence|exact Hq].
      - by exists O.
      - exists O. by destruct Hsc. }
    destruct Hnext as (O' & Hsc' & HO').
    destruct (IH O' _ _ _ _ Hsc' HO' H) as (a & m & -> & Hin).
    destruct (Hext a) as (_ & _ & _ & Hln & _).
    exists a, m. rewrite Hln. split; [reflexivity|by apply rule_of_trace_cons].
  - injection H as _ <-. destruct ev as [s|a|s]; simpl in Hs.
    + unfold visit_section in Hs.
      destruct (resolve_imports s _ h) as [h2 [u|e2]] eqn:Hr; [discriminate|].
      injection Hs as _ <-.
      destruct (resolve_imports_Raise _ _ _ _ _ Hr) as (i & a & m & Hin & ->).
      exists a, m. split; [reflexivity|]. right. exists s, i. split; [left|exact Hin].
    + injection Hs as _ Hv. unfold visit_rule in Hv.
      destruct (compile_rule (h a) b) as [b2|e2]; [discriminate|].
      injection Hv as <-. eexists a, _. split; [reflexivity|]. left. left.
    + injection Hs as _ Hv. unfold leave_section in Hv. simpl in Hsc.
      destruct (Ast.parent s) as [p|]; [|discriminate].
      destruct Hsc as [Hp _]. destruct (HO _ Hp) as [o Ho]. rewrite Ho in Hv.
      discriminate.
Qed.

(** X2. Every failure of a build from a root section (one without parent) is
    raised by [throw] on a rule of the grammar and carries that rule's
    declaration line: no [KeyError] or other exception escapes. *)
Theorem build_failure_is_rule_failure
    (root : Ast.SectionNode) (h h' : Ast.Heap) (e : exn) :
  Ast.parents root = [] →
  init root h = (h', Raise e) →
  ∃ a message,
    e = Thrown (Ast.line_number (h a)) message ∧
    rule_of_trace (accept [] (Ast.tree root)) a.
Proof.
  intros Hroot H. unfold init in H. rewrite Hroot in H.
  destruct (run _ new_builder h) as [h1 [b|e1]] eqn:Hrun; [discriminate|].
  injection H as _ <-.
  eapply (run_failure_origin _ []); [|..|exact Hrun].
  - by apply accept_scoped.
  - intros q Hq. inversion Hq.
Qed.

(** ** Building from a section that has a parent *)

(** X3. The constructor given a section with a parent never returns an IR when
    no section of the tree carries the parent's qualified name: the closing
    [leave_section] looks the parent up in a table that only holds the
    sections visited. *)
Theorem build_from_inner_section_fails
    (root p : Ast.SectionNode) (h : Ast.Heap) :
  Ast.parent root = Some p →
  Ast.get_qualified_name p ∉
    Ast.get_qualified_name <$> subsections (Ast.parents root) (Ast.tree root) →
  ∃ e, (init root h).2 = Raise e ∧
       (e = KeyError (Ast.get_qualified_name p) ∨ ∃ ln message, e = Thrown ln message).
Proof.
  intros Hp Hfresh. rewrite <- visited_names_accept in Hfresh.
  assert (Hroot : {| Ast.tree := Ast.tree root; Ast.parents := Ast.parents root |} = root)
    by (by destruct root).
  unfold init. rewrite accept_unfold in *. rewrite Hroot in *.
  rewrite app_comm_cons, run_app.
  rewrite app_comm_cons, visited_names_app in Hfresh. simpl in Hfresh.
  rewrite app_nil_r in Hfresh.
  destruct (run (_ :: _) new_builder h) as [h1 [b1|e1]] eqn:Hrun.
  - pose proof (run_sections_frame _ _ _ _ _ Hrun _ Hfresh) as Hsec.
    simpl in Hsec. rewrite lookup_empty in Hsec.
    simpl. unfold leave_section. rewrite Hp, Hsec. simpl.
    eexists. split; [reflexivity|by left].
  - simpl. exists e1. split; [reflexivity|]. right.
    simpl in Hrun.
    destruct (visit_section root new_builder h) as [h2 [b2|e2]] eqn:Hvs.
    + assert (Hfail : run (VisitSection root :: accept_children
                         (Ast.tree root :: Ast.parents root) (Ast.children (Ast.tree root)))
                        new_builder h = (h1, Raise e1)).
      { simpl. rewrite Hvs. exact Hrun. }
      edestruct (λ Hsc HO, run_failure_origin _ [] _ _ _ _ Hsc HO Hfail)
        as (a & m & -> & _); [| |eauto].
      * simpl. apply accept_children_scoped.
        -- apply Forall_forall. intros [a|t] _; [exact I|]. intros up O. apply accept_scoped.
        -- left.
      * intros q Hq. inversion Hq.
    + injection Hrun as _ <-. unfold visit_section in Hvs.
      destruct (resolve_imports root _ h) as [h3 [u|e3]] eqn:Hr; [discriminate|].
      injection Hvs as _ <-.
      destruct (resolve_imports_Raise _ _ _ _ _ Hr) as (i & a & m & _ & ->). eauto.
Qed.

(** ** Patterns after a successful build *)

Lemma resolve_imports_Return section l h h' u :
  resolve_imports section l h = (h', Return u) →
  ∀ i a, (i, a) ∈ l →
    is_Some (Ast.pattern (h' a)) ∧ is_Some (find_reservation section (Ast.id (h a))).
Proof.
  revert h. induction l as [|[i0 a0] l IH]; intros h H i a Hin; [inversion Hin|].
  simpl in H.
  destruct (find_reservation section (Ast.id (h a0))) as [ra|] eqn:Hfind; [|discriminate].
  assert (Hrest : ∀ h1, heap_extends h h1 → is_Some (Ast.pattern (h1 a0)) →
            resolve_imports section l h1 = (h', Return u) →
            is_Some (Ast.pattern (h' a)) ∧
            is_Some (find_reservation section (Ast.id (h a)))).
  { intros h1 Hext Hp0 Hr. apply elem_of_cons in Hin as [[= -> ->]|Hin].
    - split; [|by eexists]. destruct Hp0 as [p Hp0].
      exists p. by apply (resolve_imports_extends _ _ _ _ _ Hr a0).
    - destruct (IH h1 Hr i a Hin) as [Hp Hf]. split; [exact Hp|].
      destruct (Hext a) as (Hid & _). by rewrite <- Hid. }
  destruct (Ast.pattern (h a0)) as [p0|] eqn:Hpa.
  - apply (Hrest h); [apply heap_extends_refl|by eexists|exact H].
  - destruct (Ast.pattern (h ra)) as [p|] eqn:Hpr; [|discriminate].
    eapply Hrest; [by apply heap_extends_assign| |exact H].
    rewrite fn_lookup_insert. by eexists.
Qed.

Lemma run_patterns evs : ∀ b h h' b',
  run evs b h = (h', Return b') →
  (∀ section i a, VisitSection section ∈ evs →
     (i, a) ∈ Ast.future_import (Ast.tree section) →
     is_Some (Ast.pattern (h' a)) ∧
     is_Some (find_reservation section (Ast.id (h a)))) ∧
  (∀ a, VisitRule a ∈ evs → Some "reserve" ∉ Ast.rule_action (h a) →
     is_Some (Ast.pattern (h' a))).
Proof.
  induction evs as [|ev evs IH]; intros b h h' b' H.
  { split; intros; exfalso; eapply not_elem_of_nil; eauto. }
  apply run_cons_Return in H as (h1 & b1 & Hs & Hr).
  pose proof (step_extends _ _ _ _ _ Hs) as Hext.
  pose proof (run_extends _ _ _ _ _ Hr) as Hext'.
  destruct (IH _ _ _ _ Hr) as [IHs IHr]. split.
  - intros s i a Hin Himp. apply elem_of_cons in Hin as [<-|Hin].
    + simpl in Hs. apply visit_section_Return_inv in Hs as [Hs _].
      destruct (resolve_imports_Return _ _ _ _ _ Hs i a Himp) as [[p Hp] Hf].
      split; [|exact Hf]. exists p. by apply (Hext' a).
    + destruct (IHs s i a Hin Himp) as [Hp Hf]. split; [exact Hp|].
      destruct (Hext a) as (Hid & _). by rewrite <- Hid.
  - intros a Hin Hres. apply elem_of_cons in Hin as [<-|Hin].
    + simpl in Hs. injection Hs as <- Hv. apply visit_rule_Return in Hv.
      destruct (compile_rule_Return_inv _ _ _ Hres Hv)
        as (o & p & regex & nfa & sa & _ & Hp & _). exists p. by apply (Hext' a).
    + apply IHr; [exact Hin|]. destruct (Hext a) as (_ & Hra & _). by rewrite Hra.
Qed.

(** X4. After a successful build every imported rule has a reservation and a
    pattern, and so has every visited rule that is no reservation. *)
Theorem patterns_resolved_after_build
    (root : Ast.SectionNode) (h h' : Ast.Heap) (ir : IR) :
  init root h = (h', Return ir) →
  (∀ section i a,
     section ∈ subsections (Ast.parents root) (Ast.tree root) →
     (i, a) ∈ Ast.future_import (Ast.tree section) →
     is_Some (Ast.pattern (h' a)) ∧
     is_Some (find_reservation section (Ast.id (h a)))) ∧
  (∀ a, VisitRule a ∈ accept (Ast.parents root) (Ast.tree root) →
     Some "reserve" ∉ Ast.rule_action (h a) →
     is_Some (Ast.pattern (h' a))).
Proof.
  unfold init. intros H.
  destruct (run _ new_builder h) as [h1 [b|e]] eqn:Hrun; [|discriminate].
  injection H as <- _.
  destruct (run_patterns _ _ _ _ _ Hrun) as [Hs Hr]. split; [|exact Hr].
  intros s i a Hin. apply Hs. by apply VisitSection_accept.
Qed.

(** ** The IR of each section *)

Lemma compiled_from_extends h1 h2 s a r :
  heap_extends h1 h2 → compiled_from h1 s a r → compiled_from h2 s a r.
Proof.
  intros Hext (Hid & Hln & Hact & Hsa & p & regex & Hp & Hparse & Hbuild).
  destruct (Hext a) as (Hi & Hr & Hs & Hl & Hpat).
  unfold compiled_from. rewrite Hi, Hr, Hs, Hl. repeat split; auto.
  exists p, regex. auto.
Qed.

Lemma concrete_rules_extends h1 h2 l :
  heap_extends h1 h2 → concrete_rules h2 l = concrete_rules h1 l.
Proof.
  intros Hext. unfold concrete_rules. apply list_filter_iff. intros a.
  destruct (Hext a) as (_ & -> & _). reflexivity.
Qed.

Lemma section_matches_extends h1 h2 s sec :
  heap_extends h1 h2 → section_matches h1 s sec → section_matches h2 s sec.
Proof.
  intros Hext (Hi & Hp & Hr). split; [exact Hi|]. split; [exact Hp|].
  rewrite (concrete_rules_extends _ _ _ Hext).
  eapply Forall2_impl; [exact Hr|]. intros a r. by apply compiled_from_extends.
Qed.

Lemma concrete_rules_cons_rule h a l :
  concrete_rules h (inl a :: l) =
  if decide (Some "reserve" ∈ Ast.rule_action (h a)) then concrete_rules h l
  else a :: concrete_rules h l.
Proof.
  unfold concrete_rules. simpl. rewrite filter_cons.
  destruct (decide (Some "reserve" ∈ _)) as [Hin|Hout].
  - rewrite decide_False; [reflexivity|]. by intros Hn.
  - by rewrite decide_True.
Qed.

Lemma children_built t up ot c :
  Forall (λ x, match x with inr t' => section_built t' | inl _ => True end) c →
  ∀ b h h' b',
    refs_allocated b → (ot < next b)%nat →
    current_ir_section b = Some ot →
    current_ast_section b = Some {| Ast.tree := t; Ast.parents := up |} →
    sections b !! Ast.qualified_name t = Some ot →
    Ast.qualified_name t ∉ Ast.get_qualified_name <$> subsections_children (t :: up) c →
    NoDup (Ast.get_qualified_name <$> subsections_children (t :: up) c) →
    run (accept_children (t :: up) c) b h = (h', Return b') →
    refs_allocated b' ∧ (next b ≤ next b')%nat ∧
    current_ir_section b' = Some ot ∧
    current_ast_section b' = Some {| Ast.tree := t; Ast.parents := up |} ∧
    sections b' !! Ast.qualified_name t = Some ot ∧
    (∀ o, (o < next b)%nat → o ≠ ot → objects b' o = objects b o) ∧
    inherits (objects b' ot) = inherits (objects b ot) ∧
    parent (objects b' ot) = parent (objects b ot) ∧
    (∃ new, rules (objects b' ot) = rules (objects b ot) ++ new ∧
            Forall2 (compiled_from h' {| Ast.tree := t; Ast.parents := up |})
                    (concrete_rules h' c) new) ∧
    (∀ s, s ∈ subsections_children (t :: up) c →
       ∃ o, sections b' !! Ast.get_qualified_name s = Some o ∧ (next b ≤ o)%nat ∧
            section_matches h' s (objects b' o)).
Proof.
  induction 1 as [|[a|t'] c Hx _ IH];
    intros b h h' b' Hwf Hot Hcur Hast Hsec Hfresh Hnd Hrun.
  - (* no child left *)
    injection Hrun as <- <-. repeat split; auto.
    + exists []. rewrite app_nil_r. split; [reflexivity|constructor].
    + intros s Hs. inversion Hs.
  - (* a rule *)
    apply run_cons_Return in Hrun as (h1 & b1 & Hs & Hrun).
    simpl in Hs. injection Hs as <- Hv.
    pose proof (run_extends _ _ _ _ _ Hrun) as Hext.
    rewrite concrete_rules_cons_rule.
    destruct (decide (Some "reserve" ∈ Ast.rule_action (h' a))) as [Hres|Hres].
    + (* a reservation: nothing happens *)
      assert (Hres0 : Some "reserve" ∈ Ast.rule_action (h a)).
      { destruct (Hext a) as (_ & Hra & _). by rewrite <- Hra. }
      apply visit_rule_Return in Hv. rewrite compile_rule_reserve in Hv by exact Hres0.
      injection Hv as <-. by eapply IH.
    + assert (Hres0 : Some "reserve" ∉ Ast.rule_action (h a)).
      { destruct (Hext a) as (_ & Hra & _). by rewrite <- Hra. }
      apply visit_rule_Return in Hv.
      destruct (compile_rule_Return_inv _ _ _ Hres0 Hv)
        as (o & p & regex & nfa & sa & Ho & Hp & Hparse & Hbuild & Hsa & ->).
      rewrite Hcur in Ho. injection Ho as <-. rewrite Hast in Hbuild, Hsa.
      edestruct (λ H1 H2 H3 H4 H5, IH _ _ _ _ H1 H2 H3 H4 H5 Hfresh Hnd Hrun)
        as (Hwf' & Hn & Hc' & Ha' & Hs' & Hobj & Hinh & Hpar & (new & Hrules & Hnew) & Hsub);
        [exact Hwf|exact Hot|exact Hcur|exact Hast|exact Hsec|].
      simpl in *. rewrite fn_lookup_alter in Hinh, Hpar, Hrules. simpl in *.
      repeat split; auto.
      * intros o Ho Hne. rewrite Hobj by done. by apply fn_lookup_alter_ne.
      * eexists (_ :: new). split; [by rewrite Hrules, <- app_assoc|].
        constructor; [|exact Hnew].
        apply (compiled_from_extends h); [exact Hext|].
        repeat split; simpl; auto. exists p, regex. auto.
  - (* a sub-section *)
    simpl in Hfresh, Hnd, Hrun. rewrite fmap_app in Hfresh, Hnd.
    apply NoDup_app in Hnd as (Hnd1 & Hdisj & Hnd2).
    apply not_elem_of_app in Hfresh as [Hfresh1 Hfresh2].
    apply run_app_Return in Hrun as (h1 & b1 & Hrun1 & Hrun2).
    destruct (Hx _ _ _ _ _ Hwf Hnd1 Hrun1) as (Hwf1 & Hn1 & Ha1 & Hc1 & Hobj1 & Hsub1).
    pose proof (run_extends _ _ _ _ _ Hrun2) as Hext2.
    assert (Hsec1 : sections b1 !! Ast.qualified_name t = Some ot).
    { rewrite (run_sections_frame _ _ _ _ _ Hrun1); [exact Hsec|].
      by rewrite visited_names_accept. }
    assert (Hcur1 : current_ir_section b1 = Some ot) by (rewrite Hc1; exact Hsec1).
    destruct (IH b1 h1 h' b' Hwf1 ltac:(lia) Hcur1 Ha1 Hsec1 Hfresh2 Hnd2 Hrun2)
      as (Hwf' & Hn & Hc' & Ha' & Hs' & Hobj & Hinh & Hpar & (new & Hrules & Hnew) & Hsub).
    rewrite (Hobj1 ot Hot) in Hinh, Hpar, Hrules.
    split; [exact Hwf'|]. split; [lia|]. split; [exact Hc'|]. split; [exact Ha'|].
    split; [exact Hs'|]. split; [|split; [exact Hinh|split; [exact Hpar|split]]].
    + intros o Ho Hne. rewrite Hobj by (lia || done). by apply Hobj1.
    + exists new. split; [exact Hrules|exact Hnew].
    + intros s Hs. apply elem_of_app in Hs as [Hs|Hs].
      * destruct (Hsub1 s Hs) as (o & Hso & Hge & Hm).
        exists o. split; [|split; [exact Hge|]].
        -- rewrite (run_sections_frame _ _ _ _ _ Hrun2); [exact Hso|].
           rewrite visited_names_accept_children.
           ++ apply Hdisj. by apply list_elem_of_fmap_2.
           ++ apply Forall_forall. intros [?|?] _; [exact I|]. apply visited_names_accept.
        -- rewrite Hobj; [by eapply section_matches_extends| |lia].
           by eapply Hwf1.
      * destruct (Hsub s Hs) as (o & Hso & Hge & Hm).
        exists o. split; [exact Hso|]. split; [lia|exact Hm].
Qed.

Lemma all_sections_built t : section_built t.
Proof.
  induction t as [n q i f c IHc] using SectionTree_nested_ind.
  intros up b h h' b' Hwf Hnd Hrun.
  set (t := Ast.MkSection n q i f c) in *.
  rewrite accept_unfold in Hrun. rewrite subsections_unfold in Hnd |- *.
  rewrite fmap_cons in Hnd. apply NoDup_cons in Hnd as [Hfresh Hnd].
  apply run_cons_Return in Hrun as (h1 & b1 & Hs & Hrun).
  apply run_app_Return in Hrun as (h2 & b2 & Hrun & Hleave).
  apply run_cons_Return in Hleave as (h3 & b3 & Hl & Hend).
  injection Hend as <- <-. simpl in Hs, Hl. injection Hl as <- Hl.
  apply visit_section_Return_inv in Hs as [Hs ->].
  apply leave_section_Return_inv in Hl as (Hsec3 & Hobj3 & Hn3 & _ & Hast3 & Hcur3).
  edestruct (children_built t up (next b) c IHc) as
    (Hwf2 & Hn2 & Hc2 & Ha2 & Hs2 & Hobj2 & Hinh2 & Hpar2 & (new & Hrules2 & Hnew2) & Hsub2);
    [| | | | |exact Hfresh|exact Hnd|exact Hrun|].
  - intros q' o. simpl. rewrite lookup_insert. case_decide.
    + intros [= <-]. lia.
    + intros Hq. apply Hwf in Hq. lia.
  - simpl. lia.
  - reflexivity.
  - reflexivity.
  - simpl. apply lookup_insert_eq.
  - simpl in *. rewrite fn_lookup_insert in Hinh2, Hpar2, Hrules2. simpl in *.
    split; [intros q' o; rewrite Hsec3, Hn3; apply Hwf2|].
    split; [lia|]. split; [exact Hast3|]. split; [by rewrite Hcur3, Hsec3|].
    split.
    + intros o Ho. rewrite Hobj3, Hobj2 by lia. apply fn_lookup_insert_ne. lia.
    + intros s Hin. rewrite Hsec3, Hobj3. apply elem_of_cons in Hin as [->|Hin].
      * exists (next b). split; [exact Hs2|]. split; [lia|].
        split; [exact Hinh2|]. split; [exact Hpar2|]. rewrite Hrules2. exact Hnew2.
      * destruct (Hsub2 s Hin) as (o & Hso & Hge & Hm).
        exists o. split; [exact Hso|]. split; [lia|exact Hm].
Qed.

(** X5. In a grammar whose sections have distinct qualified names, the IR built
    has, under the name of each section, that section compiled: its
    [inherits] flag, its parent's qualified name, and one rule for each
    declared rule that is no reservation, in declaration order, each with
    the rule's identifier and line, its lower-cased action, its section
    action resolved from the section, and the NFA of its pattern. *)
Theorem sections_after_build (root : Ast.SectionNode) (h h' : Ast.Heap) (ir : IR) :
  NoDup (Ast.get_qualified_name <$> subsections (Ast.parents root) (Ast.tree root)) →
  init root h = (h', Return ir) →
  ∀ s, s ∈ subsections (Ast.parents root) (Ast.tree root) →
    ∃ sec, ir_sections ir !! Ast.get_qualified_name s = Some sec ∧
           section_matches h' s sec.
Proof.
  unfold init. intros Hnd H s Hs.
  destruct (run _ new_builder h) as [h1 [b|e]] eqn:Hrun; [|discriminate].
  injection H as <- <-. simpl.
  edestruct (all_sections_built (Ast.tree root) (Ast.parents root) new_builder)
    as (_ & _ & _ & _ & _ & Hsub); [|exact Hnd|exact Hrun|].
  - intros q o Hq. inversion Hq.
  - destruct (Hsub s Hs) as (o & Hso & _ & Hm).
    exists (objects b o). split; [|exact Hm]. by rewrite lookup_fmap, Hso.
Qed.

End Facts.

(** ** The builder on the sample grammars *)

Lemma section_table_keys_witness :
  ∃ h' ir,
    init (C := toy []) (root_of (sections_grammar [0%nat])) sections_heap
    = (h', Return ir) ∧
    ∀ q, is_Some (ir_sections ir !! q) ↔
         q ∈ Ast.get_qualified_name <$> subsections [] (sections_grammar [0%nat]).
Proof.
  eexists _, _. split.
  - vm_compute. reflexivity.
  - eapply (section_table_keys (C := toy []) (root_of (sections_grammar [0%nat]))
              sections_heap).
    vm_compute. reflexivity.
Defined.

Lemma build_failure_is_rule_failure_witness :
  ∃ a message,
    Thrown 3 "rule 'open': unbalanced group"
    = Thrown (Ast.line_number (sections_heap a)) message ∧
    rule_of_trace (accept [] (sections_grammar [0; 2]%nat)) a.
Proof.
  apply (build_failure_is_rule_failure (C := toy [])
           (root_of (sections_grammar [0; 2]%nat)) sections_heap sections_heap
           (Thrown 3 "rule 'open': unbalanced group") eq_refl).
  vm_compute. reflexivity.
Defined.

Lemma build_from_inner_section_fails_witness :
  ∃ e, (init (C := toy []) inner_root sections_heap).2 = Raise e ∧
       (e = KeyError "::" ∨ ∃ ln message, e = Thrown ln message).
Proof.
  apply (build_from_inner_section_fails (C := toy []) inner_root
           (root_of (sections_grammar [0%nat])) sections_heap eq_refl).
  apply (bool_decide_unpack _). vm_compute. exact I.
Defined.

Lemma patterns_resolved_after_build_witness :
  ∃ h' ir,
    init (C := toy import_tables) (root_of import_grammar) import_heap = (h', Return ir) ∧
    (∀ section i a,
       section ∈ subsections [] import_grammar →
       (i, a) ∈ Ast.future_import (Ast.tree section) →
       is_Some (Ast.pattern (h' a)) ∧
       is_Some (find_reservation (Collaborators := toy import_tables) section
                  (Ast.id (import_heap a)))) ∧
    (∀ a, VisitRule a ∈ accept [] import_grammar →
       Some "reserve" ∉ Ast.rule_action (import_heap a) →
       is_Some (Ast.pattern (h' a))).
Proof.
  eexists _, _. split.
  - vm_compute. reflexivity.
  - eapply (patterns_resolved_after_build (C := toy import_tables)
              (root_of import_grammar) import_heap).
    vm_compute. reflexivity.
Defined.

Lemma sections_after_build_witness :
  ∃ h' ir,
    init (C := toy []) (root_of (sections_grammar [0%nat])) sections_heap
    = (h', Return ir) ∧
    ∀ s, s ∈ subsections [] (sections_grammar [0%nat]) →
      ∃ sec, ir_sections ir !! Ast.get_qualified_name s = Some sec ∧
             section_matches h' s sec.
Proof.
  eexists _, _. split.
  - vm_compute. reflexivity.
  - eapply (sections_after_build (C := toy []) (root_of (sections_grammar [0%nat]))
              sections_heap).
    + apply (bool_decide_unpack _). vm_compute. exact I.
    + vm_compute. reflexivity.
Defined.

End BuildFacts.

Module PluginFacts.
Import Py LanguagePlugins PluginSpec MoreSamples LanguagePluginsFacts.

Lemma is_path_resolved fs v base p :
  is_path fs v base = Some p → exists_ fs p = true.
Proof.
  unfold is_path. destruct v; try discriminate.
  destruct (exists_ fs _) eqn:He; [|discriminate]. by intros [= <-].
Qed.

Lemma map_is_path_resolved fs base elements :
  existsb (λ i : option string, if i is None then true else false)
          (map (λ i, is_path fs i base) elements) = false →
  Forall (resolved fs) (map (λ i, is_path fs i base) elements).
Proof.
  induction elements as [|v l IH]; simpl; [constructor|].
  destruct (is_path fs v base) as [p|] eqn:Hp; simpl; [|discriminate].
  intros H. constructor; [|by apply IH].
  exists p. split; [reflexivity|by eapply is_path_resolved].
Qed.

Lemma entry_ok_seen fs seen a e :
  entry_ok fs seen e → entry_ok fs (seen ++ [a]) e.
Proof.
  intros [Hk Hv]. split; [|exact Hv]. intros k Hin. apply elem_of_app. left. by apply Hk.
Qed.

(** One attribute keeps the invariant. *)
Lemma visit_attr_ok fs base entry a seen e e' :
  entry_ok fs seen e →
  visit_attr fs base entry a e = Return e' →
  entry_ok fs (seen ++ [a]) e'.
Proof.
  intros Hok H. pose proof (entry_ok_seen fs seen a e Hok) as [Hkeys Hval].
  unfold visit_attr in H.
  destruct a as [| | | |a| |]; try (injection H as <-; by split).
  destruct (bool_decide (a = "Source") || bool_decide (a = "Files")) eqn:Hsf.
  - destruct (getitem entry a) as [v|]; simpl in H; [|discriminate].
    assert (Hk' : ∀ k, is_Some (<[a := is_path fs v base]> (plugin_paths e) !! k) →
                       JString k ∈ seen ++ [JString a]).
    { intros k. destruct (decide (a = k)) as [<-|Hak].
      - intros _. apply elem_of_app. right. left.
      - rewrite lookup_insert_ne by exact Hak. apply Hkeys. }
    destruct (is_path fs v base) as [p|] eqn:Hp; injection H as <-.
    + split; [exact Hk'|]. simpl. intros Hv. destruct (Hval Hv) as [Hpaths Hdeps].
      split; [|exact Hdeps]. intros k w. destruct (decide (a = k)) as [<-|Hak].
      * rewrite lookup_insert_eq. intros [= <-].
        exists p. split; [reflexivity|by eapply is_path_resolved].
      * rewrite lookup_insert_ne by exact Hak. apply Hpaths.
    + split; [exact Hk'|discriminate].
  - destruct (bool_decide (a = "Dependencies")).
    + destruct (getitem entry a) as [raw|]; simpl in H; [|discriminate].
      destruct (iterate raw) as [elements|]; simpl in H; [|discriminate].
      injection H as <-.
      destruct (existsb _ _) eqn:Hnone.
      * split; [|discriminate]. simpl. by destruct (isinstance_list raw).
      * split; simpl.
        -- by destruct (isinstance_list raw).
        -- intros Hv. destruct (isinstance_list raw); [|discriminate].
           destruct (Hval Hv) as [Hpaths _]. split; [exact Hpaths|].
           by apply map_is_path_resolved.
    + destruct (bool_decide (a = "Description")).
      * destruct (getitem entry a) as [v|]; simpl in H; [|discriminate].
        destruct v; injection H as <-; (split; [exact Hkeys|try discriminate]).
        exact Hval.
      * injection H as <-. by split.
Qed.

Lemma visit_attrs_ok fs base entry attrs : ∀ seen e e',
  entry_ok fs seen e →
  visit_attrs fs base entry attrs e = Return e' →
  entry_ok fs (seen ++ attrs) e'.
Proof.
  induction attrs as [|a attrs IH]; intros seen e e' Hok H; simpl in H.
  - injection H as <-. by rewrite app_nil_r.
  - destruct (visit_attr fs base entry a e) as [e1|] eqn:Ha; simpl in H; [|discriminate].
    replace (seen ++ a :: attrs) with ((seen ++ [a]) ++ attrs)
      by (by rewrite <- app_assoc).
    eapply IH; [|exact H]. by eapply visit_attr_ok.
Qed.

Lemma entry_ok_initial fs :
  entry_ok fs [] {| valid := true; plugin_paths := ∅;
                    entry_dependencies := []; entry_description := "" |}.
Proof.
  split; simpl.
  - intros k [x Hx]. rewrite lookup_empty in Hx. discriminate.
  - intros _. split; [|constructor]. intros k v Hx. rewrite lookup_empty in Hx. discriminate.
Qed.

Lemma visit_plugin_kept fs base plugins plugin_id lp lp' :
  visit_plugin fs base plugins plugin_id lp = Return lp' →
  ∀ k pl, lp' !! k = Some pl →
    lp !! k = Some pl ∨ (k = plugin_id ∧ kept_for fs plugins plugin_id pl).
Proof.
  unfold visit_plugin. intros H k pl Hk.
  destruct (re_match_plugin_id plugin_id) as [m|] eqn:Hm;
    [|injection H as <-; by left].
  destruct (getitem plugins plugin_id) as [entry|] eqn:He; simpl in H; [|discriminate].
  destruct (iterate entry) as [attrs|] eqn:Hi; simpl in H; [|discriminate].
  destruct (visit_attrs _ _ _ _ _) as [e|] eqn:Hv; simpl in H; [|discriminate].
  apply (visit_attrs_ok _ _ _ _ []) in Hv; [|apply entry_ok_initial].
  - destruct Hv as [Hkeys Hval]. simpl in Hkeys.
    case_bool_decide as Hsrc; simpl in H; [|injection H as <-; by left].
    case_bool_decide as Hfiles; simpl in H; [|injection H as <-; by left].
    destruct (valid e) eqn:Hvalid; injection H as <-; [|by left].
    destruct (decide (plugin_id = k)) as [<-|Hid];
      [|rewrite lookup_insert_ne in Hk by exact Hid; by left].
    rewrite lookup_insert_eq in Hk.
    injection Hk as <-. right. split; [reflexivity|].
    destruct (Hval eq_refl) as [Hpaths Hdeps].
    destruct Hsrc as [s Hs], Hfiles as [f Hf].
    split; [by eexists|]. split.
    + rewrite Hs, Hf. simpl. split; [by eapply Hpaths|]. split; [by eapply Hpaths|exact Hdeps].
    + exists entry, attrs. repeat split; auto; apply Hkeys; by eexists.
Qed.

Lemma visit_plugins_kept fs base plugins ids : ∀ lp lp',
  visit_plugins fs base plugins ids lp = Return lp' →
  ∀ k pl, lp' !! k = Some pl →
    lp !! k = Some pl ∨ (k ∈ ids ∧ kept_for fs plugins k pl).
Proof.
  induction ids as [|plugin_id ids IH]; intros lp lp' H k pl Hk; simpl in H.
  - injection H as <-. by left.
  - destruct (visit_plugin fs base plugins plugin_id lp) as [lp1|] eqn:H1;
      simpl in H; [|discriminate].
    destruct (IH _ _ H k pl Hk) as [Hk1|[Hin Hkept]].
    + destruct (visit_plugin_kept _ _ _ _ _ _ H1 k pl Hk1) as [Hk0|[-> Hkept]].
      * by left.
      * right. split; [left|exact Hkept].
    + right. split; [by right|exact Hkept].
Qed.

(** X6. Every plug-in [load] returns was declared in the file under an
    identifier that begins with a letter, its entry names both [Source] and
    [Files], and its source, its files directory and all its dependencies
    are paths that exist. *)
Theorem loaded_plugins_are_resolved
    (fs : FileSystem) (base_directory : string) (plugin_file : json)
    (language_plugins : gmap string Plugin) (default_language plugin_id : string)
    (pl : Plugin) :
  load fs base_directory plugin_file = Return (language_plugins, default_language) →
  language_plugins !! plugin_id = Some pl →
  ∃ plugins,
    getitem plugin_file "Plugins" = Return plugins ∧
    plugin_id ∈ keys plugins ∧
    (∃ c rest, plugin_id = String c rest ∧ is_alpha c = true) ∧
    plugin_resolved fs pl ∧
    ∃ entry attrs, getitem plugins plugin_id = Return entry ∧
                   iterate entry = Return attrs ∧
                   JString "Source" ∈ attrs ∧ JString "Files" ∈ attrs.
Proof.
  intros H Hk. apply load_Return_inv in H as (_ & _ & (plugins & Hpl & _ & Hloop) & _).
  destruct (visit_plugins_kept _ _ _ _ _ _ Hloop _ _ Hk) as [H0|[Hin (Hm & Hres & Hentry)]].
  { rewrite lookup_empty in H0. discriminate. }
  exists plugins. split; [exact Hpl|]. split; [exact Hin|]. split; [|split; [exact Hres|exact Hentry]].
  destruct plugin_id as [|c rest]; simpl in Hm; [by destruct Hm|].
  exists c, rest. split; [reflexivity|]. destruct (is_alpha c); [reflexivity|by destruct Hm].
Qed.

(** ** Entries that abort the load *)

Lemma visit_plugins_Raise fs base plugins ids plugin_id :
  plugin_id ∈ ids →
  (∀ lp, is_Raise (visit_plugin fs base plugins plugin_id lp)) →
  ∀ lp, is_Raise (visit_plugins fs base plugins ids lp).
Proof.
  intros Hin Hraise. induction ids as [|i ids IH]; intros lp; [inversion Hin|].
  simpl. destruct (visit_plugin fs base plugins i lp) as [lp1|e] eqn:H1; simpl.
  - apply elem_of_cons in Hin as [->|Hin]; [|by apply IH].
    destruct (Hraise lp) as [e He]. congruence.
  - by exists e.
Qed.

(** X7. An entry that cannot be iterated (a number, a truth value, null) under
    an identifier of the accepted form is not skipped: [load] raises. *)
Theorem uniterable_entry_aborts_load
    (fs : FileSystem) (base_directory : string) (plugin_file plugins entry : json)
    (plugin_id : string) (e : exn) :
  getitem plugin_file "Plugins" = Return plugins →
  plugin_id ∈ keys plugins →
  is_Some (re_match_plugin_id plugin_id) →
  getitem plugins plugin_id = Return entry →
  iterate entry = Raise e →
  is_Raise (load fs base_directory plugin_file).
Proof.
  intros Hpl Hin [m Hm] Hentry Hiter. apply not_Return_is_Raise. intros [lp d] H.
  apply load_Return_inv in H as (_ & _ & (plugins' & Hpl' & _ & Hloop) & _).
  rewrite Hpl in Hpl'. injection Hpl' as <-.
  destruct (visit_plugins_Raise fs base_directory plugins (keys plugins) plugin_id Hin) with (lp := (∅ : gmap string Plugin))
    as [e' He'].
  - intros lp0. unfold visit_plugin. rewrite Hm, Hentry. simpl. rewrite Hiter. by eexists.
  - congruence.
Qed.

Lemma loaded_plugins_are_resolved_witness :
  ∃ lp d pl,
    load sample_fs "." sample_file = Return (lp, d) ∧
    lp !! "c" = Some pl ∧
    ∃ plugins,
      getitem sample_file "Plugins" = Return plugins ∧
      "c" ∈ keys plugins ∧
      (∃ c rest, "c" = String c rest ∧ is_alpha c = true) ∧
      plugin_resolved sample_fs pl ∧
      ∃ entry attrs, getitem plugins "c" = Return entry ∧
                     iterate entry = Return attrs ∧
                     JString "Source" ∈ attrs ∧ JString "Files" ∈ attrs.
Proof.
  eexists _, _, _. split; [vm_compute; reflexivity|]. split; [vm_compute; reflexivity|].
  eapply (loaded_plugins_are_resolved sample_fs "." sample_file).
  - vm_compute. reflexivity.
  - vm_compute. reflexivity.
Defined.

Lemma uniterable_entry_aborts_load_witness :
  is_Raise (load sample_fs "." number_entry_file).
Proof.
  apply (uniterable_entry_aborts_load sample_fs "." number_entry_file
           (JDict [ ("x", JInt 5) ]) (JInt 5) "x" (TypeError "object is not iterable")
           eq_refl).
  - left.
  - eexists. reflexivity.
  - reflexivity.
  - reflexivity.
Defined.

End PluginFacts.

Module CAsciiEmitterFacts.
Import Py PyFacts CAscii CAsciiEmitter MoreSamples.

(** ** The constructor *)

Lemma check_name_Return name description :
  check_name name description = Return tt →
  ∀ n, name = Some n → is_Some (re_match_name n) ∧ n ∉ reserved_keywords.
Proof.
  intros H n ->. unfold check_name in H.
  destruct (re_match_name n) as [m|]; [|discriminate].
  case_bool_decide; [discriminate|]. split; [by eexists|assumption].
Qed.

(** X8. Without a namespace among the options the constructor never returns:
    it raises for a bad file name or a class name, and otherwise fails on
    the attribute [default_namespaces], which the class does not have. *)
Theorem init_without_namespace_raises (plugin_options : PluginOptions) :
  namespace plugin_options = None →
  is_Raise (init plugin_options) ∧
  (class_name plugin_options = None →
   check_name (file_name plugin_options) "Base file name" = Return tt →
   init plugin_options =
     Raise (AttributeError
              "type object 'CAsciiEmitter' has no attribute 'default_namespaces'")).
Proof.
  intros Hns. unfold init. rewrite Hns. simpl. split.
  - destruct (check_name (file_name plugin_options) _) as [[]|e]; simpl; [|by eexists].
    destruct (class_name plugin_options); eexists; reflexivity.
  - intros -> ->. reflexivity.
Qed.

(** X9. When the constructor returns, no class name was asked for, the
    namespace was given, both names given begin with a letter or an
    underscore and are no C keyword, the file name defaults to
    [lexical_analyzer], and the two name tables are empty. *)
Theorem init_Return_inv (plugin_options : PluginOptions) (e : Emitter) :
  init plugin_options = Return e →
  class_name plugin_options = None ∧
  namespace plugin_options = Some (emitter_namespace e) ∧
  is_Some (re_match_name (emitter_namespace e)) ∧
  (emitter_namespace e ∉ reserved_keywords) ∧
  base_file_name e = default "lexical_analyzer" (file_name plugin_options) ∧
  (∀ f, file_name plugin_options = Some f →
        is_Some (re_match_name f) ∧ f ∉ reserved_keywords) ∧
  ids e = ∅ ∧ rule_ids e = ∅.
Proof.
  unfold init. intros H.
  destruct (check_name (file_name plugin_options) _) as [[]|] eqn:Hf; simpl in H;
    [|discriminate].
  destruct (check_name (namespace plugin_options) _) as [[]|] eqn:Hn; simpl in H;
    [|discriminate].
  destruct (class_name plugin_options); [discriminate|].
  destruct (namespace plugin_options) as [ns|] eqn:Hns; [|discriminate].
  injection H as <-. simpl.
  destruct (check_name_Return _ _ Hn ns eq_refl) as [Hm Hr].
  split; [reflexivity|]. split; [reflexivity|]. split; [exact Hm|].
  split; [exact Hr|]. split; [reflexivity|]. split; [|split; reflexivity].
  by eapply check_name_Return.
Qed.

(** ** Texts *)

Lemma lower_app a b : lower (a +:+ b) = lower a +:+ lower b.
Proof. induction a as [|c a IH]; simpl; [reflexivity|by rewrite IH]. Qed.

Lemma append_inv_head a x y : a +:+ x = a +:+ y → x = y.
Proof. induction a as [|c a IH]; simpl; [auto|]. intros [= H]. by apply IH. Qed.

Lemma lower_string_of_uint d :
  lower (DecimalString.NilEmpty.string_of_uint d) = DecimalString.NilEmpty.string_of_uint d.
Proof. induction d; simpl; [reflexivity|by rewrite IHd..]. Qed.

Lemma repr_inj n m : repr n = repr m → n = m.
Proof.
  unfold repr. intros H. apply DecimalNat.Unsigned.to_uint_inj.
  apply (f_equal DecimalString.NilEmpty.uint_of_string) in H.
  rewrite !DecimalString.NilEmpty.usu in H. congruence.
Qed.

Lemma lower_numbered_inj prefix n m :
  lower (prefix +:+ repr n) = lower (prefix +:+ repr m) → n = m.
Proof.
  rewrite !lower_app. intros H. apply append_inv_head in H.
  unfold repr in H. rewrite !lower_string_of_uint in H. by apply repr_inj.
Qed.

(** ** The search for a free name *)

Lemma free_name_Some fuel vals numbered : ∀ id n r,
  free_name fuel vals numbered id n = Some r → taken vals r = false.
Proof.
  induction fuel as [|fuel IH]; intros id n r H; simpl in H; [discriminate|].
  destruct (taken vals id) eqn:Ht; [by eapply IH|congruence].
Qed.

Lemma free_name_None fuel vals numbered : ∀ id n,
  free_name fuel vals numbered id n = None →
  ∀ k, (n ≤ k)%nat → (S k < n + fuel)%nat → taken vals (numbered k) = true.
Proof.
  induction fuel as [|fuel IH]; intros id n H k Hk1 Hk2; [lia|].
  simpl in H. destruct (taken vals id) eqn:Ht; [|discriminate].
  destruct (decide (k = n)) as [->|Hne].
  - destruct fuel as [|fuel]; [lia|]. simpl in H.
    destruct (taken vals (numbered n)); [reflexivity|discriminate].
  - apply (IH _ _ H); lia.
Qed.

Lemma taken_key vals id :
  taken vals id = true → lower id ∈ map lower vals ++ reserved_keywords.
Proof.
  unfold taken. intros H. apply orb_true_iff in H as [H|H];
    apply bool_decide_eq_true in H; apply elem_of_app; [left|by right].
  by apply (list_elem_of_fmap_2 lower).
Qed.

(** The numbered names are pairwise distinct, so the search ends once it
    has tried more of them than there are names to avoid. *)
Lemma free_name_enough fuel vals prefix id n :
  (length vals + length reserved_keywords + 1 < fuel)%nat →
  is_Some (free_name fuel vals (fun k => prefix +:+ repr k) id n).
Proof.
  intros Hfuel.
  destruct (free_name fuel vals _ id n) as [r|] eqn:H; [by eexists|exfalso].
  pose proof (free_name_None _ _ _ _ _ H) as Htaken.
  set (N := (fuel - 1)%nat).
  set (l := (fun k => lower (prefix +:+ repr k)) <$> seq n N).
  assert (Hnd : NoDup l).
  { apply NoDup_fmap_2_strong; [|apply NoDup_seq].
    intros x y _ _. apply lower_numbered_inj. }
  assert (Hsub : ∀ x, x ∈ l → x ∈ map lower vals ++ reserved_keywords).
  { intros x Hx. apply list_elem_of_fmap in Hx as (k & -> & Hk).
    apply elem_of_seq in Hk. apply taken_key, Htaken; lia. }
  pose proof (submseteq_length _ _ (NoDup_submseteq _ _ Hnd Hsub)) as Hlen.
  unfold l in Hlen. rewrite length_fmap, length_seq, length_app, length_map in Hlen.
  unfold N in Hlen. lia.
Qed.

Lemma free_name_fresh fuel vals prefix id n :
  (length vals + length reserved_keywords + 1 < fuel)%nat →
  ∃ r, free_name fuel vals (fun k => prefix +:+ repr k) id n = Some r ∧
       (r ∉ vals) ∧ (lower r ∉ reserved_keywords).
Proof.
  intros Hfuel. destruct (free_name_enough fuel vals prefix id n Hfuel) as [r Hr].
  exists r. split; [exact Hr|]. apply free_name_Some in Hr.
  unfold taken in Hr. apply orb_false_iff in Hr as [H1 H2].
  apply bool_decide_eq_false in H1, H2. auto.
Qed.

(** ** Dictionaries with distinct values *)

Lemma elem_of_values {K} `{Countable K} (m : gmap K string) v :
  v ∈ values m ↔ ∃ k, m !! k = Some v.
Proof.
  unfold values. rewrite list_elem_of_fmap. split.
  - intros ([k v'] & -> & Hin). exists k. by apply elem_of_map_to_list.
  - intros [k Hk]. exists (k, v). split; [reflexivity|by apply elem_of_map_to_list].
Qed.

Lemma length_values {K} `{Countable K} (m : gmap K string) :
  length (values m) = size m.
Proof. unfold values. rewrite length_fmap. apply length_map_to_list. Qed.

Lemma injective_insert {K} `{Countable K} (m : gmap K string) k v :
  injective m → v ∉ values m → injective (<[k := v]> m).
Proof.
  intros Hinj Hv k1 k2 w. rewrite !lookup_insert.
  destruct (decide (k = k1)) as [<-|H1], (decide (k = k2)) as [<-|H2]; auto.
  - intros [= <-] H2'. exfalso. apply Hv, elem_of_values. eauto.
  - intros H1' [= <-]. exfalso. apply Hv, elem_of_values. eauto.
  - apply Hinj.
Qed.

Lemma size_insert_le {K} `{Countable K} (m : gmap K string) k v :
  (size (<[k := v]> m) ≤ S (size m))%nat.
Proof.
  destruct (m !! k) eqn:Hk.
  - rewrite map_size_insert_Some by eauto. lia.
  - rewrite map_size_insert_None by exact Hk. lia.
Qed.

Lemma no_keyword_insert {K} `{Countable K} (m : gmap K string) k v :
  no_keyword m → lower v ∉ reserved_keywords → no_keyword (<[k := v]> m).
Proof.
  intros Hm Hv k' w. rewrite lookup_insert. case_decide; [|apply Hm].
  by intros [= <-].
Qed.

(** ** [map_rule_names] *)

Lemma map_rule_names_loop_keys fuel ns all : ∀ m m',
  map_rule_names_loop fuel ns all m = Some m' →
  ∀ k, is_Some (m' !! k) ↔ is_Some (m !! k) ∨ k ∈ all.
Proof.
  induction all as [|id all IH]; intros m m' H k; simpl in H.
  - injection H as <-. split; [intros Hs; left; exact Hs|].
    intros [Hs|Hin]; [exact Hs|inversion Hin].
  - destruct (free_name _ _ _ _ _) as [code_id|]; simpl in H; [|discriminate].
    rewrite (IH _ _ H k), elem_of_cons, lookup_insert_is_Some'. split.
    + intros [[->|?]|?]; auto.
    + intros [?|[->|?]]; auto.
Qed.

Lemma map_rule_names_loop_spec fuel ns all : ∀ m,
  (size m + length all + length reserved_keywords + 1 < fuel)%nat →
  injective m → no_keyword m →
  ∃ m', map_rule_names_loop fuel ns all m = Some m' ∧ injective m' ∧ no_keyword m'.
Proof.
  induction all as [|id all IH]; intros m Hfuel Hinj Hkw; simpl.
  - by exists m.
  - destruct (free_name_fresh fuel (values m) ("TOKEN_" +:+ upper ns +:+ "_" +:+ id)
                ("TOKEN_" +:+ upper ns +:+ "_" +:+ id) 1) as (r & Hr & Hfresh & Hnk).
    { rewrite length_values.
      change (length (id :: all)) with (S (length all)) in Hfuel. lia. }
    change (length (id :: all)) with (S (length all)) in Hfuel.
    rewrite Hr. simpl. apply IH.
    + pose proof (size_insert_le m id r). lia.
    + by apply injective_insert.
    + by apply no_keyword_insert.
Qed.

(** X10. Given enough tests for its [while] loops, [map_rule_names] returns with
    a table that has a name for exactly the upper-cased rule identifiers
    and reserved identifiers, gives different identifiers different names,
    and uses no C keyword as a name. *)
Theorem map_rule_names_spec (fuel : nat) (la : LexicalAnalyzer) (e : Emitter) :
  rule_ids e = ∅ →
  (length (all_ids la) + length reserved_keywords + 1 < fuel)%nat →
  ∃ e', map_rule_names fuel la e = Some e' ∧
        (∀ k, is_Some (rule_ids e' !! k) ↔ k ∈ all_ids la) ∧
        injective (rule_ids e') ∧ no_keyword (rule_ids e') ∧
        ids e' = ids e ∧ emitter_namespace e' = emitter_namespace e ∧
        base_file_name e' = base_file_name e.
Proof.
  intros Hempty Hfuel. unfold map_rule_names. rewrite Hempty.
  destruct (map_rule_names_loop_spec fuel (emitter_namespace e) (all_ids la) ∅)
    as (m' & Hm' & Hinj & Hkw).
  - rewrite map_size_empty. lia.
  - intros k1 k2 v Hk. rewrite lookup_empty in Hk. discriminate.
  - intros k v Hk. rewrite lookup_empty in Hk. discriminate.
  - rewrite Hm'. simpl. eexists. split; [reflexivity|]. simpl.
    split; [|auto]. intros k.
    rewrite (map_rule_names_loop_keys _ _ _ _ _ Hm' k), lookup_empty.
    split; [intros [[x Hx]|?]; [discriminate|done]|by right].
Qed.

Lemma free_name_Some_fresh fuel vals numbered id n r :
  free_name fuel vals numbered id n = Some r →
  (r ∉ vals) ∧ (lower r ∉ reserved_keywords).
Proof.
  intros H. apply free_name_Some in H. unfold taken in H.
  apply orb_false_iff in H as [H1 H2]. apply bool_decide_eq_false in H1, H2. auto.
Qed.

Lemma map_rule_names_loop_injective fuel ns all : ∀ m m',
  map_rule_names_loop fuel ns all m = Some m' →
  injective m → injective m'.
Proof.
  induction all as [|id all IH]; intros m m' H Hinj; simpl in H.
  - by injection H as <-.
  - destruct (free_name _ _ _ _ _) as [code_id|] eqn:Hfree; simpl in H; [|discriminate].
    apply (IH _ _ H). apply injective_insert; [exact Hinj|].
    by apply free_name_Some_fresh in Hfree as [? _].
Qed.

Lemma injective_empty {K} `{Countable K} : injective (∅ : gmap K string).
Proof. intros k1 k2 v Hk. rewrite lookup_empty in Hk. discriminate. Qed.

(** ** The token names written by [emit] *)

Lemma lookup_all_Return (m : gmap string string) l :
  (∀ k, k ∈ l → is_Some (m !! k)) →
  ∃ vs, lookup_all m l = Return vs ∧ Forall2 (λ k v, m !! k = Some v) l vs.
Proof.
  induction l as [|k l IH]; intros Hall; simpl.
  - exists []. split; [reflexivity|constructor].
  - destruct (Hall k) as [v Hv]; [left|]. rewrite Hv.
    destruct IH as (vs & -> & Hvs); [intros k' Hk'; apply Hall; by right|].
    exists (v :: vs). split; [reflexivity|by constructor].
Qed.

Lemma Forall2_injective_NoDup (m : gmap string string) l vs :
  injective m → Forall2 (λ k v, m !! k = Some v) l vs → NoDup l → NoDup vs.
Proof.
  intros Hinj HF. induction HF as [|k v l vs Hkv HF IH]; intros Hnd; [constructor|].
  apply NoDup_cons in Hnd as [Hk Hnd]. apply NoDup_cons. split; [|by apply IH].
  intros Hin. apply Hk. clear IH Hnd Hk.
  induction HF as [|k' v' l vs Hkv' HF IH]; [inversion Hin|].
  apply elem_of_cons in Hin as [->|Hin].
  - rewrite (Hinj _ _ _ Hkv Hkv'). left.
  - right. by apply IH.
Qed.

(** X11. After [map_rule_names] the list of token names for the header file is
    built without a missing key, has one name for each rule and reserved
    identifier, and its names are pairwise distinct when the upper-cased
    identifiers are. *)
Theorem token_ids_after_map_rule_names
    (fuel : nat) (la : LexicalAnalyzer) (e e' : Emitter) :
  rule_ids e = ∅ →
  map_rule_names fuel la e = Some e' →
  ∃ names, token_ids la e' = Return names ∧
           length names = (length (rules la) + length (reserved_ids la))%nat ∧
           (NoDup (all_ids la) → NoDup names).
Proof.
  intros Hempty H. unfold map_rule_names in H. rewrite Hempty in H.
  destruct (map_rule_names_loop _ _ _ _) as [m'|] eqn:Hloop; [|discriminate].
  injection H as <-. unfold token_ids. simpl.
  destruct (lookup_all_Return m' (all_ids la)) as (vs & Hvs & HF).
  { intros k Hk. apply (map_rule_names_loop_keys _ _ _ _ _ Hloop). by right. }
  exists vs. split; [exact Hvs|]. split.
  - rewrite <- (Forall2_length _ _ _ HF). unfold all_ids.
    by rewrite length_app, !length_map.
  - apply (Forall2_injective_NoDup m'); [|exact HF].
    eapply map_rule_names_loop_injective; [exact Hloop|apply injective_empty].
Qed.

(** ** The token case of a state, after [map_rule_names] *)

Lemma rule_of_token_Return rules m :
  m ∈ tokens_by_priority rules → is_Return (rule_of_token rules (upper m)).
Proof.
  unfold tokens_by_priority, rule_of_token. intros Hin.
  apply list_elem_of_fmap in Hin as (r & -> & Hr).
  destruct (filter _ rules) as [|r0 l] eqn:Hf; [|by eexists].
  assert (Hin : r ∈ filter (λ r0, upper (id r0) = upper (id r)) rules)
    by (by apply list_elem_of_filter).
  rewrite Hf in Hin. inversion Hin.
Qed.

(** X12. With the table of [map_rule_names], the closing part of a state's case
    is written without error for every state whose final identifiers are
    identifiers of rules: no [ValueError], [IndexError] or [KeyError]. *)
Theorem final_case_after_map_rule_names
    (fuel : nat) (la : LexicalAnalyzer) (e e' : Emitter)
    (start_id : string) (final_ids : list string) :
  map_rule_names fuel la e = Some e' →
  final_ids ⊆ tokens_by_priority (rules la) →
  is_Return (final_case (rules la) (rule_ids e') (emitter_namespace e') start_id final_ids).
Proof.
  intros H Hsub. unfold final_case.
  destruct (decide (0 < length final_ids)%nat) as [Hlen|Hlen]; [|by eexists].
  assert (Hne : final_ids ≠ []) by (destruct final_ids; simpl in Hlen; [lia|discriminate]).
  destruct (min_least (fun x => index x (tokens_by_priority (rules la))) final_ids Hne)
    as (m & i & Hmin & _ & Hin & _).
  { intros x Hx. destruct (index_elem_of x _ (Hsub x Hx)) as [k Hk]. by exists k. }
  unfold token, min_final_id. rewrite Hmin. simpl.
  destruct (rule_of_token_Return (rules la) m (Hsub m Hin)) as [r Hr].
  rewrite Hr. simpl. destruct (is_skip r); [by eexists|].
  unfold map_rule_names in H.
  destruct (map_rule_names_loop _ _ _ _) as [m'|] eqn:Hloop; [|discriminate].
  injection H as <-. simpl.
  destruct (proj2 (map_rule_names_loop_keys _ _ _ _ _ Hloop (upper m))) as [v Hv].
  { right. unfold all_ids. apply elem_of_app. left.
    specialize (Hsub m Hin). unfold tokens_by_priority in Hsub.
    apply list_elem_of_fmap in Hsub as (r' & -> & Hr').
    by apply (list_elem_of_fmap_2 (λ rule, upper (id rule))). }
  rewrite Hv. by eexists.
Qed.

(** ** [map_state_ids] *)

Lemma map_state_ids_loop_spec fuel ns start sts : ∀ m,
  (size m + length sts + length reserved_keywords + 1 < fuel)%nat →
  injective m →
  ∃ m', map_state_ids_loop fuel ns start sts m = Some m' ∧ injective m' ∧
        (∀ k, is_Some (m !! k) → is_Some (m' !! k)) ∧
        (∀ st, st ∈ sts → state st ≠ start → is_Some (m' !! Some (state st))) ∧
        m' !! None = m !! None ∧ m' !! Some start = m !! Some start.
Proof.
  induction sts as [|st sts IH]; intros m Hfuel Hinj; cbn [map_state_ids_loop].
  - exists m. repeat split; auto. intros st Hin. inversion Hin.
  - change (length (st :: sts)) with (S (length sts)) in Hfuel.
    destruct (decide (state st ≠ start)) as [Hne|Heq].
    + set (initial_id := "STATE_" +:+ upper ns +:+ "_" +:+
                         String.concat "_" (map upper (sorted (state_ids st)))).
      destruct (free_name_fresh fuel (values m) initial_id
                  (String.substring 0 256 initial_id) 1) as (r & Hr & Hfresh & _).
      { rewrite length_values. lia. }
      fold initial_id. rewrite Hr. cbn [mbind option_bind].
      destruct (IH (<[Some (state st) := r]> m)) as (m' & Hm' & Hinj' & Hmono & Hcov & HNone & Hstart).
      { pose proof (size_insert_le m (Some (state st)) r). lia. }
      { by apply injective_insert. }
      exists m'. split; [exact Hm'|]. split; [exact Hinj'|]. split; [|split; [|split]].
      * intros k Hk. apply Hmono. rewrite lookup_insert_is_Some'. by right.
      * intros st' Hin Hne'. apply elem_of_cons in Hin as [->|Hin]; [|by apply Hcov].
        apply Hmono. rewrite lookup_insert_eq. by eexists.
      * rewrite HNone. by apply lookup_insert_ne.
      * rewrite Hstart. apply lookup_insert_ne. congruence.
    + destruct (IH m) as (m' & Hm' & Hinj' & Hmono & Hcov & HNone & Hstart);
        [lia|exact Hinj|].
      exists m'. repeat split; auto.
      intros st' Hin Hne'. apply elem_of_cons in Hin as [->|Hin]; [|by apply Hcov].
      contradiction.
Qed.

(** X13. Given enough tests for its [while] loop, [map_state_ids] returns with a
    table in which the start state, the invalid-character state and every
    state of the automaton have a name, the first two the fixed ones, and no
    two states share a name. *)
Theorem map_state_ids_spec (fuel : nat) (dfa : DFA) (e : Emitter) :
  ids e = ∅ →
  (length (states dfa) + length reserved_keywords + 3 < fuel)%nat →
  ∃ e', map_state_ids fuel dfa e = Some e' ∧
        injective (ids e') ∧
        ids e' !! None = Some ("STATE_" +:+ upper (emitter_namespace e) +:+ "_INVALIDCHAR") ∧
        ids e' !! Some (start_state dfa)
          = Some ("STATE_" +:+ upper (emitter_namespace e) +:+ "_INITIALSTATE") ∧
        (∀ st, st ∈ states dfa → is_Some (ids e' !! Some (state st))) ∧
        rule_ids e' = rule_ids e.
Proof.
  intros Hempty Hfuel. unfold map_state_ids. rewrite Hempty.
  set (ns := emitter_namespace e).
  set (ids0 := <[None := "STATE_" +:+ upper ns +:+ "_INVALIDCHAR"]>
                 (<[Some (start_state dfa) := "STATE_" +:+ upper ns +:+ "_INITIALSTATE"]>
                    (∅ : gmap (option nat) string))).
  destruct (map_state_ids_loop_spec fuel ns (start_state dfa) (states dfa) ids0)
    as (m' & Hm' & Hinj & Hmono & Hcov & HNone & Hstart).
  - unfold ids0. pose proof (size_insert_le
      (<[Some (start_state dfa) := "STATE_" +:+ upper ns +:+ "_INITIALSTATE"]>
         (∅ : gmap (option nat) string)) None ("STATE_" +:+ upper ns +:+ "_INVALIDCHAR")).
    pose proof (size_insert_le (∅ : gmap (option nat) string) (Some (start_state dfa))
                  ("STATE_" +:+ upper ns +:+ "_INITIALSTATE")).
    rewrite map_size_empty in *. lia.
  - unfold ids0. apply injective_insert; [apply injective_insert; [apply injective_empty|]|].
    + intros Hin. apply elem_of_values in Hin as [k Hk]. rewrite lookup_empty in Hk.
      discriminate.
    + intros Hin. apply elem_of_values in Hin as [k Hk].
      rewrite lookup_insert in Hk. case_decide; [|rewrite lookup_empty in Hk; discriminate].
      injection Hk as Hk. do 2 apply append_inv_head in Hk. discriminate.
  - rewrite Hm'. cbn [mbind option_bind]. eexists. split; [reflexivity|].
    cbn [ids rule_ids].
    split; [exact Hinj|]. split; [rewrite HNone; unfold ids0; apply lookup_insert_eq|].
    split; [rewrite Hstart; unfold ids0; by rewrite lookup_insert_ne, lookup_insert_eq|].
    split; [|reflexivity].
    intros st Hin. destruct (decide (state st = start_state dfa)) as [->|Hne].
    + rewrite Hstart. unfold ids0. rewrite lookup_insert_ne, lookup_insert_eq by done.
      by eexists.
    + by apply Hcov.
Qed.

(** ** The emitter on the sample inputs *)

Lemma init_without_namespace_raises_witness :
  init no_options =
  Raise (AttributeError "type object 'CAsciiEmitter' has no attribute 'default_namespaces'").
Proof.
  apply (proj2 (init_without_namespace_raises no_options eq_refl)); reflexivity.
Defined.

Lemma init_Return_inv_witness :
  class_name poodle_options = None ∧
  namespace poodle_options = Some (emitter_namespace poodle_emitter) ∧
  is_Some (re_match_name (emitter_namespace poodle_emitter)) ∧
  (emitter_namespace poodle_emitter ∉ reserved_keywords) ∧
  base_file_name poodle_emitter = default "lexical_analyzer" (file_name poodle_options) ∧
  (∀ f, file_name poodle_options = Some f →
        is_Some (re_match_name f) ∧ f ∉ reserved_keywords) ∧
  ids poodle_emitter = ∅ ∧ rule_ids poodle_emitter = ∅.
Proof. apply (init_Return_inv poodle_options poodle_emitter). reflexivity. Defined.

Lemma map_rule_names_spec_witness :
  ∃ e', map_rule_names 40 sample_analyzer poodle_emitter = Some e' ∧
        (∀ k, is_Some (rule_ids e' !! k) ↔ k ∈ all_ids sample_analyzer) ∧
        injective (rule_ids e') ∧ no_keyword (rule_ids e') ∧
        ids e' = ids poodle_emitter ∧
        emitter_namespace e' = emitter_namespace poodle_emitter ∧
        base_file_name e' = base_file_name poodle_emitter.
Proof.
  apply (map_rule_names_spec 40 sample_analyzer poodle_emitter); [reflexivity|].
  vm_compute. lia.
Defined.

Lemma token_ids_after_map_rule_names_witness :
  ∃ e' names,
    map_rule_names 40 sample_analyzer poodle_emitter = Some e' ∧
    token_ids sample_analyzer e' = Return names ∧
    length names = (length (rules sample_analyzer)
                    + length (reserved_ids sample_analyzer))%nat ∧
    (NoDup (all_ids sample_analyzer) → NoDup names).
Proof.
  eexists. 
  edestruct (token_ids_after_map_rule_names 40 sample_analyzer poodle_emitter)
    as (names & Hn); [reflexivity|vm_compute; reflexivity|].
  exists names. split; [reflexivity|exact Hn].
Defined.

Lemma final_case_after_map_rule_names_witness :
  ∃ e', map_rule_names 40 sample_analyzer poodle_emitter = Some e' ∧
        is_Return (final_case (rules sample_analyzer) (rule_ids e')
                     (emitter_namespace e') "STATE_POODLE_INITIALSTATE"
                     ["IDENTIFIER"; "KEYWORD_IF"]).
Proof.
  eexists. split; [vm_compute; reflexivity|].
  eapply (final_case_after_map_rule_names 40 sample_analyzer poodle_emitter).
  - vm_compute. reflexivity.
  - intros x Hx. simpl.
    apply elem_of_cons in Hx as [->|Hx]; [do 2 right; left|].
    apply elem_of_cons in Hx as [->|Hx]; [left|]. inversion Hx.
Defined.

Lemma map_state_ids_spec_witness :
  ∃ e', map_state_ids 40 sample_dfa poodle_emitter = Some e' ∧
        injective (ids e') ∧
        ids e' !! None
          = Some ("STATE_" +:+ upper (emitter_namespace poodle_emitter) +:+ "_INVALIDCHAR") ∧
        ids e' !! Some (start_state sample_dfa)
          = Some ("STATE_" +:+ upper (emitter_namespace poodle_emitter) +:+ "_INITIALSTATE") ∧
        (∀ st, st ∈ states sample_dfa → is_Some (ids e' !! Some (state st))) ∧
        rule_ids e' = rule_ids poodle_emitter.
Proof.
  apply (map_state_ids_spec 40 sample_dfa poodle_emitter); [reflexivity|].
  vm_compute. lia.
Defined.

Example map_state_ids_sample :
  (λ e, map_to_list (ids e)) <$> map_state_ids 40 sample_dfa poodle_emitter
  = Some [ (Some 3%nat, "STATE_POODLE_IDENTIFIER1");
           (Some 1%nat, "STATE_POODLE_IDENTIFIER_KEYWORD_IF");
           (Some 2%nat, "STATE_POODLE_IDENTIFIER");
           (Some 0%nat, "STATE_POODLE_INITIALSTATE");
           (None, "STATE_POODLE_INVALIDCHAR") ].
Proof. vm_compute. reflexivity. Qed.

End CAsciiEmitterFacts.
